(** * stereo_rerender: the frame-synthesis pipeline of the depth video toolbox

    A shallow embedding of [src/stereo_rerender.py]: the depth decoder, the
    re-basing of the transformation stream, the background point cloud and
    its decimation cadence, the per-format render dispatch with its frame
    layout, and the rectilinear to equirectangular remap.

    Numbers.  The script computes pixel values with NumPy floats.  Here
    integers are [Z] with their wrap-around written out, and a float is
    an exact rational ([Q]): the rounding of float32/float64 results is
    not modelled, a float that is not finite (nan, inf) is [None].  The
    projector is also given with its angles, its mask and its maps in
    IEEE binary64, the numbers NumPy computes with (module Equirect64):
    there the rounding decides which pixels are valid.
    Geometry (mesh coordinates, 4x4 transformations) lives in an arbitrary
    field [F], with MathComp's matrices.  The functions of depth_map_tools,
    which the script imports, are the fields of a record of collaborators.

    Part I holds the definitions, Part II the lemmas and theorems on
    the properties the specification states, Part III further facts
    about the code. *)

From HB Require Import structures.
From mathcomp Require Import ssreflect ssrfun ssrbool eqtype ssrnat div seq path.
From mathcomp Require Import fintype bigop ssralg ssrnum ssrint rat matrix.
From Stdlib Require Import ZArith QArith Qround Qabs Lia Lqa String.
From Stdlib Require PrimFloat SpecFloat FloatOps Uint63.
Close Scope Q_scope.

Set Implicit Arguments.
Unset Strict Implicit.
Unset Printing Implicit Defensive.

(** * Part I: the program *)

(** ** Python results: a value or a raised exception *)

Inductive py_error : Type :=
| IndexError
| NameError
| TypeError
| ValueError
| ZeroDivisionError
| LinAlgError
| AssertionError
| CvError
| SystemExit.

Inductive result (A : Type) : Type :=
| Ok of A
| Raise of py_error.

Arguments Ok {A} _.
Arguments Raise {A} _.

Definition bind {A B} (m : result A) (k : A -> result B) : result B :=
  match m with
  | Ok a => k a
  | Raise e => Raise e
  end.

Declare Scope result_scope.
Delimit Scope result_scope with res.

Notation "x <- m ;; k" := (bind m (fun x => k))
  (at level 61, m at next level, right associativity) : result_scope.

Definition is_ok {A} (m : result A) : bool :=
  if m is Ok _ then true else false.

(** ** Numbers *)

Module Num8.

Local Open Scope Z_scope.

(** [astype(np.uint32)], [astype(np.uint8)] and stores into such arrays
    wrap around. *)
Definition to_uint32 (z : Z) : Z := z mod 2 ^ 32.
Definition to_uint8 (z : Z) : Z := z mod 2 ^ 8.

Definition is_uint8 (z : Z) : Prop := 0 <= z <= 255.

(** A float converted to an integer type is truncated toward zero. *)
Definition Qtrunc (q : Q) : Z :=
  if Qle_bool 0 q then Qfloor q else Qceiling q.

(** [np.rint]: to the nearest integer, a tie to the even one. *)
Definition Qrint (q : Q) : Z :=
  let f := Qfloor q in
  match (q - inject_Z f ?= 1 # 2)%Q with
  | Lt => f
  | Gt => f + 1
  | Eq => if Z.even f then f else f + 1
  end.

(** [np.minimum] *)
Definition Qminimum (a b : Q) : Q := if Qle_bool a b then a else b.

End Num8.

(** ** Images: H rows of W pixels, as [image.shape[:2]] reads them *)

Section Images.
Variable pixel : Type.

Definition image := seq (seq pixel).

Definition height (img : image) : nat := size img.

(** A NumPy array is rectangular: the width is that of any row. *)
Definition width (img : image) : nat := size (head [::] img).

(** [img] has H rows of W pixels each. *)
Definition has_dims (W H : nat) (img : image) : bool :=
  (size img == H) && all (fun row => size row == W) img.

(** The pixel at column x of row y, [img[y, x]]. *)
Definition pixel_at (d : pixel) (img : image) (x y : nat) : pixel :=
  nth d (nth [::] img y) x.

(** [cv2.vconcat]: the images one above the other; OpenCV refuses an empty
    list and images of different widths. *)
Definition vconcat (imgs : seq image) : result image :=
  match imgs with
  | [::] => Raise CvError
  | i0 :: _ =>
      if all (fun i => width i == width i0) imgs then Ok (flatten imgs)
      else Raise CvError
  end.

(** Two images side by side, row by row. *)
Fixpoint beside (a b : image) : image :=
  match a, b with
  | ra :: a', rb :: b' => (ra ++ rb) :: beside a' b'
  | _, _ => [::]
  end.

(** [cv2.hconcat]: the images side by side, left to right; OpenCV refuses
    an empty list and images of different heights. *)
Definition hconcat (imgs : seq image) : result image :=
  match imgs with
  | [::] => Raise CvError
  | i0 :: rest =>
      if all (fun i => height i == height i0) imgs
      then Ok (foldl beside i0 rest)
      else Raise CvError
  end.

End Images.

Definition map_image {A B} (f : A -> B) (img : image A) : image B :=
  [seq [seq f p | p <- row] | row <- img].

(** ** Pixels *)

(** One pixel of an RGB frame, [rgb[y, x, :]], dtype uint8. *)
Record rgb_pixel : Type := RGB { red : Z; green : Z; blue : Z }.

(** One pixel of a frame as OpenCV reads and writes it, blue first. *)
Record bgr_pixel : Type := BGR { bgr_b : Z; bgr_g : Z; bgr_r : Z }.

(** [cv2.cvtColor(_, cv2.COLOR_BGR2RGB)] and [cv2.COLOR_RGB2BGR] *)
Definition bgr2rgb (p : bgr_pixel) : rgb_pixel :=
  RGB (bgr_r p) (bgr_g p) (bgr_b p).
Definition rgb2bgr (p : rgb_pixel) : bgr_pixel :=
  BGR (blue p) (green p) (red p).

Definition valid_pixel (p : rgb_pixel) : Prop :=
  Num8.is_uint8 (red p) /\ Num8.is_uint8 (green p) /\ Num8.is_uint8 (blue p).

Definition black : rgb_pixel := RGB 0 0 0.

(** [np.repeat(d[..., np.newaxis], 3, axis=-1)] *)
Definition gray3 (v : Z) : rgb_pixel := RGB v v v.

(** ** DepthCodec: lines 239-243 *)

Module DepthCodec.

Import Num8.
Local Open Scope Z_scope.

(** [((rgb[..., 0].astype(np.uint32) + rgb[..., 1]).astype(np.uint32) / 2)]:
    a uint32 sum, then a true division, stored into the uint8 view. *)
Definition high_byte (p : rgb_pixel) : Z :=
  let sum := to_uint32 (to_uint32 (red p) + green p) in
  to_uint8 (Qtrunc (inject_Z sum / inject_Z 2)%Q).

(** [depth_unit[..., 2] = rgb[..., 2]] *)
Definition low_byte (p : rgb_pixel) : Z := to_uint8 (blue p).

(** The uint32 cell seen as four bytes, [depth.view(np.uint8)], index 0
    first (little endian).  Bytes 0 and 1 keep the zeros of [np.zeros]. *)
Definition depth_unit (p : rgb_pixel) : seq Z :=
  [:: 0; 0; low_byte p; high_byte p].

(** The uint32 value of a little-endian byte sequence. *)
Fixpoint le_value (bytes : seq Z) : Z :=
  match bytes with
  | [::] => 0
  | b :: rest => b + 2 ^ 8 * le_value rest
  end.

Definition depth_word (p : rgb_pixel) : Z := le_value (depth_unit p).

(** [(255**4)/MODEL_maxOUTPUT_depth] *)
Definition depth_scale (max_depth : Z) : Q :=
  (inject_Z (255 ^ 4) / inject_Z max_depth)%Q.

(** One cell of [depth.astype(np.float32)/((255**4)/MODEL_maxOUTPUT_depth)] *)
Definition decode (max_depth : Z) (p : rgb_pixel) : Q :=
  (inject_Z (depth_word p) / depth_scale max_depth)%Q.

(** The whole frame.  Python raises when it divides by [max_depth = 0]. *)
Definition decode_frame (max_depth : Z) (rgb : image rgb_pixel)
  : result (image Q) :=
  if max_depth =? 0 then Raise ZeroDivisionError
  else Ok (map_image (decode max_depth) rgb).

(** The spec's [(r+g)//2]. *)
Definition avg_rg (p : rgb_pixel) : Z := (red p + green p) / 2.

(** The largest word the decoder can build, 0xFFFF0000. *)
Definition max_word : Z := 65535 * 2 ^ 16.

End DepthCodec.

(** ** Touchly depth: lines 247-249, 322-325 and 355-358 *)

Module Touchly.

Import Num8.

(** [255/args.touchly_max_depth] *)
Definition depth_gain (touchly_max_depth : Q) : result Q :=
  if Qeq_bool touchly_max_depth 0 then Raise ZeroDivisionError
  else Ok (inject_Z 255 / touchly_max_depth)%Q.

(** [np.rint(np.minimum(d, max)*(255/max)).astype(np.uint8)] *)
Definition depth8bit (touchly_max_depth gain : Q) (d : Q) : Z :=
  to_uint8 (Qrint (Qminimum d touchly_max_depth * gain)%Q).

(** [d8[d8 == 0] = 255]: a pixel the render never hit moves to the back. *)
Definition push_back (v : Z) : Z := if (v =? 0)%Z then 255%Z else v.

(** [255 - d8], in uint8 *)
Definition reverse_depth (v : Z) : Z := to_uint8 (255 - v)%Z.

(** The fast path: clip, scale, reverse, three equal channels. *)
Definition fast_depth (touchly_max_depth gain : Q) (d : Q) : rgb_pixel :=
  gray3 (reverse_depth (depth8bit touchly_max_depth gain d)).

(** A rendered depth buffer: as above, with the zero pixels pushed back. *)
Definition rendered_depth (touchly_max_depth gain : Q) (d : Q) : rgb_pixel :=
  gray3 (reverse_depth (push_back (depth8bit touchly_max_depth gain d))).

(** [(color*255).astype(np.uint8)], channel by channel *)
Definition color8bit (c : Q * Q * Q) : rgb_pixel :=
  let: (r, g, b) := c in
  RGB (to_uint8 (Qtrunc (r * inject_Z 255)%Q))
      (to_uint8 (Qtrunc (g * inject_Z 255)%Q))
      (to_uint8 (Qtrunc (b * inject_Z 255)%Q)).

End Touchly.

(** ** EquirectProjector: [convert_to_equirectangular], lines 24-85 *)

Module Equirect.

Import Num8.

(** [np.pi], the float64 nearest to pi: 0x400921FB54442D18. *)
Definition np_pi : Q := 884279719003555 # 281474976710656.

(** A float, or [None] when it is not finite. *)
Definition float := option Q.

(** Float division: a quotient by zero is nan or inf. *)
Definition fdiv (a b : Q) : float :=
  if Qeq_bool b 0 then None else Some (a / b)%Q.

(** [np.abs(a) <= bound]: false when [a] is not finite. *)
Definition fabs_le (a : float) (bound : Q) : bool :=
  if a is Some q then Qle_bool (Qabs q) bound else false.

(** [cx = (W - 1) / 2.0], [cy = (H - 1) / 2.0] *)
Definition center (n : nat) : Q := ((inject_Z (Z.of_nat n) - 1) / 2)%Q.

(** [np.linspace(0, n - 1, n)]: the pixel positions 0, 1, ..., n - 1. *)
Definition linspace (n : nat) : seq Q :=
  [seq inject_Z (Z.of_nat i) | i <- iota 0 n].

(** [theta = (grid_x - cx) / cx * (np.pi / 2)] at column x of W, and
    [phi] alike at row y of H. *)
Definition angle (n : nat) (pos : Q) : float :=
  omap (fun q => q * (np_pi / 2))%Q (fdiv (pos - center n) (center n)).

(** [half_input_fov = np.radians(input_fov / 2.0)] *)
Definition half_input_fov (input_fov : Q) : Q :=
  (input_fov / 2 * (np_pi / 180))%Q.

(** [(np.abs(theta) <= half_input_fov) & (np.abs(phi) <= half_input_fov)],
    on the exact values; [Equirect64.valid_mask] compares the rounded
    ones. *)
Definition valid_mask (W H : nat) (input_fov : Q) (x y : Q) : bool :=
  fabs_le (angle W x) (half_input_fov input_fov)
  && fabs_le (angle H y) (half_input_fov input_fov).

Section Remap.

(** [np.tan] *)
Variable np_tan : Q -> Q.

(** [f_x = cx / np.tan(half_input_fov)] and
    [map_x = f_x * np.tan(theta) + cx], before the mask is applied. *)
Definition pinhole (n : nat) (input_fov : Q) (pos : Q) : float :=
  match fdiv (center n) (np_tan (half_input_fov input_fov)), angle n pos with
  | Some f, Some a => Some (f * np_tan a + center n)%Q
  | _, _ => None
  end.

(** [map_x[~valid_mask] = -1; map_y[~valid_mask] = -1] *)
Definition map_xy (W H : nat) (input_fov : Q) (x y : Q) : float * float :=
  if valid_mask W H input_fov x y
  then (pinhole W input_fov x, pinhole H input_fov y)
  else (Some (-1 # 1)%Q, Some (-1 # 1)%Q).

(** The source pixel at integer position (x, y); outside the image it is
    the [borderValue=(0, 0, 0)] of [cv2.BORDER_CONSTANT]. *)
Definition src_pixel (img : image rgb_pixel) (x y : Z) : rgb_pixel :=
  if [&& (0 <=? x)%Z, (x <? Z.of_nat (width img))%Z,
         (0 <=? y)%Z & (y <? Z.of_nat (height img))%Z]
  then nth black (nth [::] img (Z.to_nat y)) (Z.to_nat x)
  else black.

(** The store of an interpolated value into a uint8 image saturates. *)
Definition saturate_uint8 (z : Z) : Z := Z.max 0 (Z.min 255 z).

(** [cv2.INTER_LINEAR] on one channel: the four neighbours weighted by the
    fractional parts of the coordinate.  OpenCV computes the weights in
    fixed point; here they are exact. *)
Definition lerp2 (fx fy : Q) (c00 c10 c01 c11 : Z) : Z :=
  saturate_uint8 (Qrint
    ((1 - fx) * (1 - fy) * inject_Z c00 + fx * (1 - fy) * inject_Z c10
     + (1 - fx) * fy * inject_Z c01 + fx * fy * inject_Z c11)%Q).

Definition sample_linear (img : image rgb_pixel) (mx my : Q) : rgb_pixel :=
  let x0 := Qfloor mx in
  let y0 := Qfloor my in
  let fx := (mx - inject_Z x0)%Q in
  let fy := (my - inject_Z y0)%Q in
  let p00 := src_pixel img x0 y0 in
  let p10 := src_pixel img (x0 + 1) y0 in
  let p01 := src_pixel img x0 (y0 + 1) in
  let p11 := src_pixel img (x0 + 1) (y0 + 1) in
  RGB (lerp2 fx fy (red p00) (red p10) (red p01) (red p11))
      (lerp2 fx fy (green p00) (green p10) (green p01) (green p11))
      (lerp2 fx fy (blue p00) (blue p10) (blue p01) (blue p11)).

(** One output pixel of [cv2.remap].  A coordinate that is not finite lies
    outside every image; it is only met when [np.tan(half_input_fov)] is
    zero. *)
Definition remap_pixel (img : image rgb_pixel) (m : float * float)
  : rgb_pixel :=
  match m with
  | (Some mx, Some my) => sample_linear img mx my
  | _ => black
  end.

(** [cv2.remap(image, map_x, map_y, ...)]: the output has the shape of the
    maps, H rows of W pixels; OpenCV refuses empty maps. *)
Definition convert_to_equirectangular (img : image rgb_pixel) (input_fov : Q)
  : result (image rgb_pixel) :=
  let H := height img in
  let W := width img in
  if (H == 0) || (W == 0) then Raise CvError
  else Ok [seq [seq remap_pixel img (map_xy W H input_fov x y)
               | x <- linspace W]
          | y <- linspace H].

End Remap.

End Equirect.

(** ** EquirectProjector in binary64

    Lines 24-85 once more, with the numbers of NumPy: the angles, the
    mask and the maps are IEEE binary64 floats (the primitive floats of
    the kernel, every operation rounded to nearest even), and the maps
    are converted to float32 for [cv2.remap].  The remap itself is the
    bilinear sampling of [Equirect], at the exact value of the float32
    coordinates. *)

Module Equirect64.

Import Num8 PrimFloat.

(** A Python int as a float: exact below 2^53 in absolute value, where
    the sizes and positions of an image lie. *)
Definition of_Z (z : Z) : float :=
  if (z <? 0)%Z then (- of_uint63 (Uint63.of_Z (- z)))%float
  else of_uint63 (Uint63.of_Z z).

(** [np.pi], the binary64 nearest to pi: 3.141592653589793. *)
Definition np_pi : float := 0x1.921fb54442d18p+1%float.

(** [cx = (W - 1) / 2.0], [cy = (H - 1) / 2.0] *)
Definition center (n : nat) : float := (of_Z (Z.of_nat n - 1) / 2)%float.

(** [np.linspace(0, n - 1, n)]: the pixel positions 0.0, 1.0, ..., n - 1. *)
Definition linspace (n : nat) : seq float :=
  [seq of_Z (Z.of_nat i) | i <- iota 0 n].

(** [theta = (grid_x - cx) / cx * (np.pi / 2)] at column x of W, and
    [phi] alike at row y of H; nan in an image one pixel wide or high. *)
Definition angle (n : nat) (pos : float) : float :=
  ((pos - center n) / center n * (np_pi / 2))%float.

(** [half_input_fov = np.radians(input_fov / 2.0)]; NumPy's [radians]
    multiplies by the constant [pi / 180]. *)
Definition half_input_fov (input_fov : float) : float :=
  (input_fov / 2 * (np_pi / 180))%float.

(** [(np.abs(theta) <= half_input_fov) & (np.abs(phi) <= half_input_fov)];
    a comparison with nan is false. *)
Definition valid_mask (W H : nat) (input_fov : float) (x y : float) : bool :=
  (abs (angle W x) <=? half_input_fov input_fov)%float
  && (abs (angle H y) <=? half_input_fov input_fov)%float.

(** [astype(np.float32)]: the nearest float32 (24 bits of precision,
    exponents below 128), ties to even. *)
Definition astype_float32 (f : float) : SpecFloat.spec_float :=
  match FloatOps.Prim2SF f with
  | SpecFloat.S754_finite s m e => SpecFloat.binary_round 24 128 s m e
  | sf => sf
  end.

(** The exact value of a float, [None] when it is not finite. *)
Definition SF2Q (f : SpecFloat.spec_float) : Equirect.float :=
  match f with
  | SpecFloat.S754_zero _ => Some 0%Q
  | SpecFloat.S754_finite s m e =>
      Some (inject_Z (if s then Z.neg m else Z.pos m) * Qpower 2 e)%Q
  | _ => None
  end.

Section Remap.

(** [np.tan] *)
Variable np_tan : float -> float.

(** [f_x = cx / np.tan(half_input_fov)] and
    [map_x = f_x * np.tan(theta) + cx], before the mask is applied. *)
Definition pinhole (n : nat) (input_fov : float) (pos : float) : float :=
  (center n / np_tan (half_input_fov input_fov) * np_tan (angle n pos)
   + center n)%float.

(** [map_x[~valid_mask] = -1; map_y[~valid_mask] = -1] *)
Definition map_xy (W H : nat) (input_fov : float) (x y : float)
  : float * float :=
  if valid_mask W H input_fov x y
  then (pinhole W input_fov x, pinhole H input_fov y)
  else ((-1)%float, (-1)%float).

(** One output pixel of [cv2.remap] on the float32 maps. *)
Definition remap_pixel (img : image rgb_pixel) (m : float * float)
  : rgb_pixel :=
  Equirect.remap_pixel img
    (SF2Q (astype_float32 m.1), SF2Q (astype_float32 m.2)).

(** Lines 24-85; [input_fov] is the number that line 58 divides by 2.0. *)
Definition convert_to_equirectangular (img : image rgb_pixel)
    (input_fov : float) : result (image rgb_pixel) :=
  let H := height img in
  let W := width img in
  if (H == 0%nat) || (W == 0%nat) then Raise CvError
  else Ok [seq [seq remap_pixel img (map_xy W H input_fov x y)
               | x <- linspace W]
          | y <- linspace H].

End Remap.

End Equirect64.

(** ** FrameAssembler: lines 250, 327 and 372-380 *)

(** Touchly mono: [cv2.vconcat([color, touchly_depth])]. *)
Definition assemble_mono (color_frame touchly_depth : image rgb_pixel)
  : result (image rgb_pixel) :=
  vconcat [:: color_frame; touchly_depth].

(** Lines 372-374: the left and right images, then the left depth when
    there is one. *)
Definition stereo_imgs (left_image right_image : image rgb_pixel)
    (touchly_left_depth : option (image rgb_pixel))
  : seq (image rgb_pixel) :=
  [:: left_image; right_image]
  ++ (if touchly_left_depth is Some d then [:: d] else [::]).

Fixpoint map_result {A B} (f : A -> result B) (s : seq A) : result (seq B) :=
  match s with
  | [::] => Ok [::]
  | x :: s' =>
      (y <- f x ;; ys <- map_result f s' ;; Ok (y :: ys))%res
  end.

(** Lines 372-380: with [--vr180] every image goes through the
    equirectangular remap, then the images are set side by side. *)
Definition assemble_stereo (np_tan : Q -> Q) (vr180 : bool) (render_fov : Z)
    (left_image right_image : image rgb_pixel)
    (touchly_left_depth : option (image rgb_pixel))
  : result (image rgb_pixel) :=
  (let imgs := stereo_imgs left_image right_image touchly_left_depth in
   imgs <- (if vr180 then
              map_result
                (fun img => Equirect.convert_to_equirectangular np_tan img
                              (inject_Z render_fov))
                imgs
            else Ok imgs) ;;
   hconcat imgs)%res.

(** What lines 375-378 make of an image that goes into the frame: with
    [--vr180] its equirectangular remap, the image itself otherwise. *)
Definition projected (np_tan : Q -> Q) (vr180 : bool) (render_fov : Z)
    (img img' : image rgb_pixel) : Prop :=
  if vr180
  then Equirect.convert_to_equirectangular np_tan img (inject_Z render_fov)
       = Ok img'
  else img' = img.

(** ** Python sequences *)

(** [s[i]] on a list or along the first axis of an array: a negative index
    counts from the end, an index out of range raises. *)
Definition py_getitem {T} (s : seq T) (i : Z) : result T :=
  let n := Z.of_nat (size s) in
  let j := if (i <? 0)%Z then (i + n)%Z else i in
  if (0 <=? j)%Z && (j <? n)%Z then
    match ohead (drop (Z.to_nat j) s) with
    | Some x => Ok x
    | None => Raise IndexError
    end
  else Raise IndexError.

(** [arr[idx]] with an array of non-negative indices: one element per
    index, in the order of [idx]. *)
Fixpoint py_take {T} (arr : seq T) (idx : seq nat) : result (seq T) :=
  match idx with
  | [::] => Ok [::]
  | i :: idx' =>
      match ohead (drop i arr), py_take arr idx' with
      | Some x, Ok xs => Ok (x :: xs)
      | None, _ => Raise IndexError
      | _, Raise e => Raise e
      end
  end.

(** [np.unique]: the sorted distinct values. *)
Definition np_unique (s : seq nat) : seq nat := sort leq (undup s).

(** [aux[:-1][aux[1:] == aux[:-1]]]: the values equal to their successor. *)
Fixpoint equal_to_next (aux : seq nat) : seq nat :=
  match aux with
  | x :: ((y :: _) as rest) =>
      if x == y then x :: equal_to_next rest else equal_to_next rest
  | _ => [::]
  end.

(** [np.intersect1d(ar1, ar2)], as NumPy computes it: both arrays made
    unique, concatenated and sorted; a value common to both is then next
    to its copy. *)
Definition np_intersect1d (ar1 ar2 : seq nat) : seq nat :=
  let aux := sort leq (np_unique ar1 ++ np_unique ar2) in
  equal_to_next aux.

(** ** Geometry and the transformation stream *)

Section Geometry.

Variable F : fieldType.
Local Open Scope ring_scope.

Definition vec3 : Type := F * F * F.

Definition vadd (p d : vec3) : vec3 :=
  let: (x, y, z) := p in
  let: (dx, dy, dz) := d in
  (x + dx, y + dy, z + dz).

(** An Open3D geometry, a TriangleMesh ([vertices], [vertex_colors]) or a
    PointCloud ([points], [colors], no triangle). *)
Record geometry : Type := Geometry {
  points : seq vec3;
  colors : seq vec3;
  triangles : seq (nat * nat * nat)
}.

(** [mesh.translate(offset)]: every vertex moves by the offset. *)
Definition translate (offset : vec3) (g : geometry) : geometry :=
  Geometry [seq vadd p offset | p <- points g] (colors g) (triangles g).

Definition transformation : Type := 'M[F]_4.

(** [np.linalg.inv]: raises on a singular matrix.  Over the field [F]
    the inverse is exact; the rounding of the float64 inverse is not
    modelled. *)
Definition np_linalg_inv (m : transformation) : result transformation :=
  if m \in unitmx then Ok (invmx m) else Raise LinAlgError.

(** Lines 152-153: [for i, transformation in enumerate(transformations):
    transformations[i] = transformation @ ref_frame_inv_trans]. *)
Definition rebase_all (ref_frame_inv_trans : transformation)
    (transformations : seq transformation) : seq transformation :=
  foldl (fun ts i => set_nth 0 ts i (nth 0 ts i *m ref_frame_inv_trans))
        transformations (iota 0 (size transformations)).

(** Lines 149-153. *)
Definition rebase (transformation_lock_frame : Z)
    (transformations : seq transformation) : result (seq transformation) :=
  if (transformation_lock_frame =? 0)%Z then Ok transformations
  else
    (ref_frame <- py_getitem transformations transformation_lock_frame ;;
     ref_frame_inv_trans <- np_linalg_inv ref_frame ;;
     Ok (rebase_all ref_frame_inv_trans transformations))%res.

(** An integer option of the command line, as a float. *)
Definition ZtoF (z : Z) : F :=
  if (z <? 0)%Z then - (Z.to_nat (- z))%:R else (Z.to_nat z)%:R.

(** Lines 214-215. *)
Definition left_shift (pupillary_distance : Z) : F :=
  - (ZtoF pupillary_distance / 1000%:R) / 2%:R.
Definition right_shift (pupillary_distance : Z) : F :=
  (ZtoF pupillary_distance / 1000%:R) / 2%:R.

(** ** The background cloud and its persisted artifact *)

(** [bg_points], [bg_point_colors] and [bg_cloud]: bound only when a mask
    video is given. *)
Record background : Type := Background {
  bg_points : seq vec3;
  bg_point_colors : seq vec3;
  bg_cloud : geometry
}.

(** What a [.npy] file holds: an array, read along its first axis.  The
    rows of an array of numbers have one length; rows of different
    lengths can only be stored as an array of objects, which is
    pickled. *)
Definition artifact : Type := seq (seq vec3).

Definition rectangular (file : artifact) : bool :=
  all (fun row => size row == size (head [::] file)) file.

(** Line 209: [np.load(args.load_background)], with its default
    [allow_pickle=False]: an array of objects is refused. *)
Definition np_load (file : artifact) : result artifact :=
  if rectangular file then Ok file else Raise ValueError.

(** Line 399: [np.array([bg_points, bg_point_colors])]. *)
Definition save_background_artifact (b : background) : artifact :=
  [:: bg_points b; bg_point_colors b].

(** Lines 209-211: [loaded_bg = np.load(args.load_background)],
    [bg_points = loaded_bg[0]], [bg_point_colors = loaded_bg[1]]. *)
Definition load_background (file : artifact)
  : result (seq vec3 * seq vec3) :=
  (loaded_bg <- np_load file ;;
   pts <- py_getitem loaded_bg 0 ;;
   cols <- py_getitem loaded_bg 1 ;;
   Ok (pts, cols))%res.

(** Lines 202-211. *)
Definition init_background (has_mask_video : bool)
    (load : option artifact) : result (option background) :=
  if has_mask_video then
    let bg_cloud := Geometry [::] [::] [::] in
    match load with
    | Some loaded_bg =>
        (pc <- load_background loaded_bg ;;
         Ok (Some (Background pc.1 pc.2 bg_cloud)))%res
    | None => Ok (Some (Background (points bg_cloud) (colors bg_cloud) bg_cloud))
    end
  else Ok None.

End Geometry.

(** ** The command line, the input files and the collaborators *)

Record args : Type := Args {
  xfov : option Z;
  yfov : option Z;
  max_depth : Z;
  transformation_lock_frame : Z;
  pupillary_distance : Z;
  max_frames : Z;
  touchly0 : bool;
  vr180 : bool;
  touchly1 : bool;
  touchly_max_depth : Q;
  infill_mask : bool;
  remove_edges : bool;
  save_background : bool
}.

(** How [depth_map_tools.render] is called: for a color buffer (the
    default), a depth buffer ([True]) or both ([-2]). *)
Inductive render_mode : Type := ColorOnly | DepthOnly | ColorAndDepth.

(** A float RGB triple, range [0, 1]. *)
Definition color : Type := (Q * Q * Q)%type.

(** The functions the script imports: depth_map_tools, and the library
    calls whose results it only passes on. *)
Record collaborators (F : fieldType) : Type := Collaborators {
  camera : Type;
  compute_camera_matrix : option Z -> option Z -> nat -> nat -> camera;
  get_mesh_from_depth_map :
    image Q -> camera -> image rgb_pixel -> option (geometry F) -> bool ->
    geometry F * seq nat;
  render :
    seq (geometry F) -> camera -> render_mode -> option color ->
    image color * image Q;
  pts_2_pcd : seq (vec3 F) -> seq (vec3 F) -> geometry F;
  perspective_aware_down_sample : geometry F -> Q -> geometry F;
  (** [mesh.transform(matrix)] of Open3D *)
  transform : transformation F -> geometry F -> geometry F;
  (** [cv2.cvtColor(_, cv2.COLOR_BGR2GRAY)], one pixel *)
  bgr2gray : bgr_pixel -> Z;
  (** [cv2.cvtColor(_, cv2.COLOR_RGB2BGR)] on a single-channel mask *)
  mask2bgr : image Z -> result (image bgr_pixel);
  np_tan : Q -> Q
}.

Arguments camera {F} c.
Arguments compute_camera_matrix {F} c _ _ _ _.
Arguments get_mesh_from_depth_map {F} c _ _ _ _ _.
Arguments render {F} c _ _ _ _.

Section Pipeline.

Variable F : fieldType.
Variable dmt : collaborators F.
Local Open Scope ring_scope.

(** The files named on the command line, as read. *)
Record inputs : Type := Inputs {
  depth_video : seq (image bgr_pixel);
  frame_width : nat;
  frame_height : nat;
  color_video_file : option (seq (image bgr_pixel));
  mask_video_file : option (seq (image bgr_pixel));
  transformation_file : option (seq (transformation F));
  load_background_file : option (artifact F)
}.

(** What lines 118-215 compute before the loop. *)
Record config : Type := Config {
  transformations : option (seq (transformation F));
  cam_matrix : camera dmt;
  render_cam_matrix : camera dmt;
  out_width : nat;
  out_height : nat;
  use_vr180 : bool;
  render_fov : Z;
  out_size : nat * nat
}.

(** Lines 174-183. *)
Definition select_out_size (a : args) (out_width out_height : nat)
  : nat * nat :=
  if touchly1 a then (out_width, out_height * 2)%nat
  else if touchly0 a then (out_width * 3, out_height)%nat
  else (out_width * 2, out_height)%nat.

(** [max(args.xfov, args.yfov)]: Python cannot compare None. *)
Definition max_fov (a : args) : result Z :=
  match xfov a, yfov a with
  | Some x, Some y => Ok (Z.max x y)
  | _, _ => Raise TypeError
  end.

(** Lines 118-183, on input files that exist: the inputs hold what the
    files contain, and the [os.path.isfile] checks of lines 127-145 are
    passed. *)
Definition configure (a : args) (inp : inputs) : result config :=
  (if ~~ (xfov a) && ~~ (yfov a) then Raise SystemExit
   else
     transformations <-
       match transformation_file inp with
       | Some ts =>
           ts' <- rebase (transformation_lock_frame a) ts ;; Ok (Some ts')
       | None => Ok None
       end ;;
     let cam_matrix :=
       compute_camera_matrix dmt (xfov a) (yfov a)
         (frame_width inp) (frame_height inp) in
     let use_vr180 := touchly0 a || vr180 a in
     if use_vr180 then
       max_fov <- max_fov a ;;
       if (180 <=? max_fov)%Z then Raise ValueError
       else
         let render_fov := Z.max 75 max_fov in
         Ok (Config transformations cam_matrix
               (compute_camera_matrix dmt (Some render_fov) (Some render_fov)
                  1920 1920)
               1920 1920 true render_fov (select_out_size a 1920 1920))
     else
       Ok (Config transformations cam_matrix cam_matrix
             (frame_width inp) (frame_height inp) false 0%Z
             (select_out_size a (frame_width inp) (frame_height inp))))%res.

(** A call the loop makes to a collaborator, with the frame counter. *)
Inductive call : Type :=
| CallRender of nat & seq (geometry F) & render_mode
| CallPts2Pcd of nat & seq (vec3 F) & seq (vec3 F)
| CallDownSample of nat & geometry F & Q.

(** The variables the loop carries from frame to frame, the videos it
    reads and writes, and the trace of its calls. *)
Record state : Type := State {
  frame_n : nat;
  last_mesh : option (geometry F);
  bg : option (background F);
  color_video : option (seq (image bgr_pixel));
  mask_video : option (seq (image bgr_pixel));
  out : seq (image bgr_pixel);
  infill_mask_video : option (seq (image bgr_pixel));
  calls : seq call
}.

Definition set_frame_n (n : nat) (s : state) : state :=
  State n (last_mesh s) (bg s) (color_video s) (mask_video s) (out s)
    (infill_mask_video s) (calls s).
Definition set_last_mesh (m : option (geometry F)) (s : state) : state :=
  State (frame_n s) m (bg s) (color_video s) (mask_video s) (out s)
    (infill_mask_video s) (calls s).
Definition set_bg (b : option (background F)) (s : state) : state :=
  State (frame_n s) (last_mesh s) b (color_video s) (mask_video s) (out s)
    (infill_mask_video s) (calls s).
Definition set_color_video (v : option (seq (image bgr_pixel))) (s : state)
  : state :=
  State (frame_n s) (last_mesh s) (bg s) v (mask_video s) (out s)
    (infill_mask_video s) (calls s).
Definition set_mask_video (v : option (seq (image bgr_pixel))) (s : state)
  : state :=
  State (frame_n s) (last_mesh s) (bg s) (color_video s) v (out s)
    (infill_mask_video s) (calls s).
Definition set_out (o : seq (image bgr_pixel)) (s : state) : state :=
  State (frame_n s) (last_mesh s) (bg s) (color_video s) (mask_video s) o
    (infill_mask_video s) (calls s).
Definition set_infill_mask_video (v : option (seq (image bgr_pixel)))
    (s : state) : state :=
  State (frame_n s) (last_mesh s) (bg s) (color_video s) (mask_video s)
    (out s) v (calls s).
Definition set_calls (c : seq call) (s : state) : state :=
  State (frame_n s) (last_mesh s) (bg s) (color_video s) (mask_video s)
    (out s) (infill_mask_video s) c.

(** The state the loop starts from: lines 196-218. *)
Definition init_state (a : args) (inp : inputs) : result state :=
  (b <- init_background (isSome (mask_video_file inp))
         (load_background_file inp) ;;
   Ok (State 0 None b (color_video_file inp) (mask_video_file inp) [::]
         (if infill_mask a then Some [::] else None) [::]))%res.

(** *** The loop body as a computation on the state that may raise *)

Definition M (A : Type) : Type := state -> result A * state.

Definition ret {A} (a : A) : M A := fun s => (Ok a, s).
Definition raise {A} (e : py_error) : M A := fun s => (Raise e, s).
Definition bindM {A B} (m : M A) (k : A -> M B) : M B :=
  fun s => match m s with
           | (Ok a, s') => k a s'
           | (Raise e, s') => (Raise e, s')
           end.
Definition lift {A} (r : result A) : M A := fun s => (r, s).
Definition get : M state := fun s => (Ok s, s).
Definition modify (f : state -> state) : M unit := fun s => (Ok tt, f s).

Declare Scope M_scope.
Delimit Scope M_scope with M.
Notation "x <- m ;; k" := (bindM m (fun x => k))
  (at level 61, m at next level, right associativity) : M_scope.
Notation "m ;; k" := (bindM m (fun _ => k))
  (at level 61, right associativity) : M_scope.

Definition log (c : call) : M unit :=
  modify (fun s => set_calls (rcons (calls s) c) s).

(** *** The loop body: lines 219-396 *)

Variable a : args.
Variable inp : inputs.
Variable cfg : config.

Local Open Scope M_scope.

(** What the [while] loop does after a frame. *)
Inductive control : Type := Next | Break.

(** Lines 229-236: the color frame is that of the color video, which must
    have the shape of the depth frame, or the depth frame itself. *)
Definition read_color_frame (rgb : image rgb_pixel) : M (image rgb_pixel) :=
  s <- get ;;
  match color_video s with
  | None => ret rgb
  | Some [::] => raise CvError
  | Some (frame :: rest) =>
      modify (set_color_video (Some rest)) ;;
      let color_frame := map_image bgr2rgb frame in
      if (height color_frame == height rgb) && (width color_frame == width rgb)
      then ret color_frame
      else raise AssertionError
  end.

(** Lines 247-250, the fast path. *)
Definition fast_path (depth : image Q) (color_frame : image rgb_pixel)
  : result (image rgb_pixel) :=
  (gain <- Touchly.depth_gain (touchly_max_depth a) ;;
   let touchly_depth :=
     map_image (Touchly.fast_depth (touchly_max_depth a) gain) depth in
   assemble_mono color_frame touchly_depth)%res.

(** Line 393: [out.write(cv2.cvtColor(out_image, cv2.COLOR_RGB2BGR))]. *)
Definition write_out (out_image : image rgb_pixel) : M unit :=
  modify (fun s => set_out (rcons (out s) (map_image rgb2bgr out_image)) s).

(** Lines 307 and 395: [args.max_frames < frame_n and
    args.max_frames != -1]. *)
Definition past_max_frames (s : state) : bool :=
  (max_frames a <? Z.of_nat (frame_n s))%Z && ~~ (max_frames a =? -1)%Z.

(** Lines 393-396. *)
Definition finish (out_image : image rgb_pixel) : M control :=
  write_out out_image ;;
  s <- get ;;
  ret (if past_max_frames s then Break else Next).

(** Lines 278-279: [np.where(mask_img.reshape(-1) < 128)[0]]. *)
Definition bg_mask_of (mask_img : image Z) : seq nat :=
  let mask_img1d := flatten mask_img in
  filter (fun i => (nth 0%Z mask_img1d i <? 128)%Z) (iota 0 (size mask_img1d)).

(** Line 298: the cell size handed to the down-sampling. *)
Definition decimation_cell : Q := 3 # 1000.

(** Lines 272-302: the mask frame is read, the vertices that are both
    used and masked as background join the cloud, and every tenth frame
    the cloud is down-sampled. *)
Definition update_background (mesh : geometry F) (used_indices : seq nat)
  : M unit :=
  s <- get ;;
  match mask_video s with
  | None => ret tt
  | Some [::] => raise CvError
  | Some (mask_frame :: rest) =>
      modify (set_mask_video (Some rest)) ;;
      let mask_img := map_image (bgr2gray dmt) mask_frame in
      let bg_mask := bg_mask_of mask_img in
      let points_2_keep := np_intersect1d used_indices bg_mask in
      new_points <- lift (py_take (points mesh) points_2_keep) ;;
      new_colors <- lift (py_take (colors mesh) points_2_keep) ;;
      match bg s with
      | None => raise NameError
      | Some b =>
          let bg_points := bg_points b ++ new_points in
          let bg_point_colors := bg_point_colors b ++ new_colors in
          log (CallPts2Pcd (frame_n s) bg_points bg_point_colors) ;;
          let bg_cloud := pts_2_pcd dmt bg_points bg_point_colors in
          if (frame_n s %% 10 == 0)%nat then
            log (CallDownSample (frame_n s) bg_cloud decimation_cell) ;;
            let bg_cloud :=
              perspective_aware_down_sample dmt bg_cloud decimation_cell in
            modify (set_bg (Some (Background (points bg_cloud)
                                    (colors bg_cloud) bg_cloud)))
          else
            modify (set_bg (Some (Background bg_points bg_point_colors
                                    bg_cloud)))
      end
  end.

(** The object the name [mesh] is bound to when the renders start: the
    frame's mesh, which [last_mesh] also names, or after line 315 the
    background cloud. *)
Inductive scene_ref : Type := FrameMesh | BackgroundCloud.

Definition get_scene (r : scene_ref) : M (geometry F) :=
  s <- get ;;
  match r with
  | FrameMesh =>
      if last_mesh s is Some mesh then ret mesh else raise NameError
  | BackgroundCloud =>
      if bg s is Some b then ret (bg_cloud b) else raise NameError
  end.

(** [mesh.translate(offset)] moves the object in place: every name bound
    to it sees the move. *)
Definition translate_scene (r : scene_ref) (offset : vec3 F) : M unit :=
  modify (fun s =>
    match r with
    | FrameMesh => set_last_mesh (omap (translate offset) (last_mesh s)) s
    | BackgroundCloud =>
        set_bg (omap (fun b => Background (bg_points b) (bg_point_colors b)
                                 (translate offset (bg_cloud b))) (bg s)) s
    end).

(** [bg_color_infill_detect] *)
Definition sentinel : rgb_pixel := RGB 0 255 0.

Definition rgb_eqb (p q : rgb_pixel) : bool :=
  [&& (red p =? red q)%Z, (green p =? green q)%Z & (blue p =? blue q)%Z].

(** Lines 330-332, 346-348 and 368-370: the pixels of the render that
    are the sentinel, marked on a plane of the size of the input frame; a
    boolean index of another shape raises. *)
Definition infill_plane (img : image rgb_pixel) : result (image Z) :=
  if has_dims (frame_width inp) (frame_height inp) img
  then Ok (map_image (fun p => if rgb_eqb p sentinel then 255%Z else 0%Z) img)
  else Raise IndexError.

(** [np.zeros((frame_height, frame_width), dtype=np.uint8)] *)
Definition zero_plane : image Z :=
  nseq (frame_height inp) (nseq (frame_width inp) 0%Z).

(** Lines 337 and 390. *)
Definition write_infill_mask (out_mask_image : image Z) : M unit :=
  frame <- lift (mask2bgr dmt out_mask_image) ;;
  modify (fun s =>
    set_infill_mask_video (omap (rcons^~ frame) (infill_mask_video s)) s).

Definition render_call (r : scene_ref) (mode : render_mode)
    (bg_color : option color) : M (image color * image Q) :=
  scene <- get_scene r ;;
  s <- get ;;
  log (CallRender (frame_n s) [:: scene] mode) ;;
  ret (render dmt [:: scene] (render_cam_matrix cfg) mode bg_color).

(** Lines 317-337: one render from the unshifted pose. *)
Definition render_touchly1 (r : scene_ref) (infill : bool) (bg_color : color)
  : M (image rgb_pixel) :=
  buffers <- render_call r ColorAndDepth (Some bg_color) ;;
  let color_transformed := map_image Touchly.color8bit buffers.1 in
  gain <- lift (Touchly.depth_gain (touchly_max_depth a)) ;;
  let touchly_depth :=
    map_image (Touchly.rendered_depth (touchly_max_depth a) gain) buffers.2 in
  out_image <- lift (assemble_mono color_transformed touchly_depth) ;;
  (if infill then
     img_mask <- lift (infill_plane color_transformed) ;;
     out_mask_image <- lift (vconcat [:: img_mask; zero_plane]) ;;
     write_infill_mask out_mask_image
   else ret tt) ;;
  ret out_image.

(** Lines 341-390: the two eye renders, and the depth of the left eye for
    the 3-in-1 format. *)
Definition render_stereo (r : scene_ref) (infill : bool) (bg_color : color)
  : M (image rgb_pixel) :=
  let left_shift := left_shift F (pupillary_distance a) in
  let right_shift := right_shift F (pupillary_distance a) in
  translate_scene r (- left_shift, 0, 0)%R ;;
  buffers <- render_call r ColorOnly (Some bg_color) ;;
  let left_image := map_image Touchly.color8bit buffers.1 in
  left_img_mask <- (if infill then lift (infill_plane left_image)
                    else ret [::]) ;;
  touchly_left_depth <-
    (if touchly0 a then
       buffers <- render_call r DepthOnly None ;;
       gain <- lift (Touchly.depth_gain (touchly_max_depth a)) ;;
       ret (Some (map_image
                    (Touchly.rendered_depth (touchly_max_depth a) gain)
                    buffers.2))
     else ret None) ;;
  translate_scene r (left_shift, 0, 0)%R ;;
  translate_scene r (- right_shift, 0, 0)%R ;;
  buffers <- render_call r ColorOnly (Some bg_color) ;;
  let right_image := map_image Touchly.color8bit buffers.1 in
  right_img_mask <- (if infill then lift (infill_plane right_image)
                     else ret [::]) ;;
  out_image <- lift (assemble_stereo (np_tan dmt) (use_vr180 cfg)
                       (render_fov cfg) left_image right_image
                       touchly_left_depth) ;;
  (if infill then
     let masks := [:: left_img_mask; right_img_mask]
                  ++ (if touchly_left_depth is Some _ then [:: zero_plane]
                      else [::]) in
     out_mask_image <- lift (hconcat masks) ;;
     write_infill_mask out_mask_image
   else ret tt) ;;
  ret out_image.

(** One pass of the loop body on a frame that was read: lines 227-396. *)
Definition step (raw_frame : image bgr_pixel) : M control :=
  let rgb := map_image bgr2rgb raw_frame in
  color_frame <- read_color_frame rgb ;;
  depth <- lift (DepthCodec.decode_frame (max_depth a) rgb) ;;
  if ~~ (transformations cfg) && touchly1 a then
    out_image <- lift (fast_path depth color_frame) ;;
    finish out_image
  else
    s <- get ;;
    let infill := isSome (infill_mask_video s) in
    let bg_color : color :=
      if infill then (0, 1, 0)%Q else (0, 0, 0)%Q in
    transform_to_zero <-
      (if transformations cfg is Some ts
       then lift (py_getitem ts (Z.of_nat (frame_n s) - 1))
       else ret (1%:M : transformation F)) ;;
    let: (mesh, used_indices) :=
      get_mesh_from_depth_map dmt depth (cam_matrix cfg) color_frame
        (last_mesh s) (infill_mask a || remove_edges a) in
    let mesh := if transformations cfg is Some _
                then transform dmt transform_to_zero mesh else mesh in
    modify (set_last_mesh (Some mesh)) ;;
    update_background mesh used_indices ;;
    s <- get ;;
    if save_background a then
      ret (if past_max_frames s then Break else Next)
    else
      let r := if mask_video s is Some _ then BackgroundCloud
               else FrameMesh in
      out_image <- (if touchly1 a then render_touchly1 r infill bg_color
                    else render_stereo r infill bg_color) ;;
      finish out_image.

(** The [while] loop, lines 219-396: the counter is advanced, then a frame
    is read; the loop ends with the video, on a [break] or on an
    exception, which leaves the state as it is then. *)
Fixpoint run_loop (frames : seq (image bgr_pixel)) (s : state)
  : option py_error * state :=
  let s := set_frame_n (frame_n s).+1 s in
  match frames with
  | [::] => (None, s)
  | raw_frame :: rest =>
      match step raw_frame s with
      | (Ok Next, s') => run_loop rest s'
      | (Ok Break, s') => (None, s')
      | (Raise e, s') => (Some e, s')
      end
  end.

End Pipeline.

(** ** The whole script *)

Section Main.

Variable F : fieldType.
Variable dmt : collaborators F.

(** How a run ends: the state, the exception that stopped the loop if
    any, and the artifact that line 399 saved. *)
Record outcome : Type := Outcome {
  final : state F;
  raised : option py_error;
  saved_background : option (artifact F)
}.

(** Lines 118-408. *)
Definition main (a : args) (inp : inputs F) : result outcome :=
  (cfg <- configure dmt a inp ;;
   s0 <- init_state a inp ;;
   let: (e, s) := run_loop a inp cfg (depth_video inp) s0 in
   match e with
   | Some _ => Ok (Outcome s e None)
   | None =>
       if save_background a then
         match bg s with
         | Some b => Ok (Outcome s None (Some (save_background_artifact b)))
         | None => Ok (Outcome s (Some NameError) None)
         end
       else Ok (Outcome s None None)
   end)%res.

End Main.

(** ** Parts of the state the claims speak of *)

Section Observations.

Variable F : fieldType.
Implicit Types (s : state F) (r : scene_ref).

(** [keeps proj m]: the computation leaves a part of the state as it is,
    whether it returns or raises. *)
Definition keeps X (proj : state F -> X) A (m : M F A) : Prop :=
  forall s, proj (m s).2 = proj s.

(** The parts of the state the background lives in: the mask video, the
    cloud, the mesh of the last frame and the trace of collaborator
    calls. *)
Definition background_side s :=
  (mask_video s, bg s, last_mesh s, calls s).

(** The frame counters at which the cloud was extended and rebuilt
    (line 291), and those at which it was down-sampled (line 298), with
    the cell sizes. *)
Definition accumulated (cs : seq (call F)) : seq nat :=
  flatten [seq (if c is CallPts2Pcd n _ _ then [:: n] else [::]) | c <- cs].

Definition decimated (cs : seq (call F)) : seq nat :=
  flatten [seq (if c is CallDownSample n _ _ then [:: n] else [::]) | c <- cs].

Definition decimation_cells (cs : seq (call F)) : seq Q :=
  flatten [seq (if c is CallDownSample _ _ q then [:: q] else [::]) | c <- cs].

(** What a run shows of the accumulation: the three traces above, the
    frame counter and whether a mask video is open. *)
Definition accumulation_side s :=
  (accumulated (calls s), decimated (calls s), decimation_cells (calls s),
   frame_n s, isSome (mask_video s)).

(** The same after one more frame joined the cloud: the cloud is rebuilt
    at the frame counter, and down-sampled with cell size 0.003 when the
    counter is a multiple of 10. *)
Definition one_more_frame
    (side : seq nat * seq nat * seq Q * nat * bool)
  : seq nat * seq nat * seq Q * nat * bool :=
  let: (acc, dec, cells, n, mask) := side in
  (rcons acc n,
   dec ++ (if (n %% 10 == 0)%nat then [:: n] else [::]),
   cells ++ (if (n %% 10 == 0)%nat then [:: (3 # 1000)%Q] else [::]),
   n, mask).

(** The traces of a run that has joined the frames 1 to k to the cloud. *)
Definition cadence_upto (k : nat) s : Prop :=
  [/\ accumulated (calls s) = iota 1 k,
      decimated (calls s) = filter (fun n => n %% 10 == 0)%nat (iota 1 k)
    & decimation_cells (calls s)
      = nseq (size (decimated (calls s))) (3 # 1000)%Q].

(** [post m s Qok Qerr]: from the state [s] the computation [m] returns
    a value and a state that satisfy [Qok], or raises in a state that
    satisfies [Qerr]. *)
Definition post A (m : M F A) s (Qok : A -> state F -> Prop)
    (Qerr : state F -> Prop) : Prop :=
  match m s with
  | (Ok x, s') => Qok x s'
  | (Raise _, s') => Qerr s'
  end.

(** The object the renders look at. *)
Definition scene_of r s : option (geometry F) :=
  match r with
  | FrameMesh => last_mesh s
  | BackgroundCloud => omap (@bg_cloud F) (bg s)
  end.

(** What the renders see and log. *)
Definition render_side r s := (scene_of r s, calls s, frame_n s).

End Observations.

Arguments keeps {F X} proj {A} m.
Arguments accumulated {F} cs.
Arguments decimated {F} cs.
Arguments decimation_cells {F} cs.
Arguments accumulation_side {F} s.
Arguments cadence_upto {F} k s.
Arguments post {F A} m s Qok Qerr.
Arguments background_side {F} s.
Arguments scene_of {F} r s.
Arguments render_side {F} r s.

(** ** What a run shows of its frames *)

(** The number of frames a loop that starts with the counter at [n0] gets
    through, of [N] that can be read, when nothing raises: all of them
    with [--max_frames -1], else those up to the first whose number is
    above [max_frames] (lines 307 and 395). *)
Definition frames_done (a : args) (n0 N : nat) : nat :=
  if (max_frames a =? -1)%Z then N
  else minn N (Z.to_nat (max_frames a - Z.of_nat n0)).+1.

(** The accumulated arrays [bg_points] and [bg_point_colors], which
    line 399 saves. *)
Definition bg_arrays {F : fieldType} (s : state F)
  : option (seq (vec3 F) * seq (vec3 F)) :=
  omap (fun b => (bg_points b, bg_point_colors b)) (bg s).

(** ** The files the script writes: lines 174-200 and 399 *)

Section OutputFiles.

Local Open Scope string_scope.

(** Lines 175-194: the name of the output video, from the path of the
    depth video, the format and [--compressed]. *)
Definition output_file (depth_video : string) (a : args) (compressed : bool)
  : string :=
  let output_file :=
    if touchly1 a then depth_video ++ "_Touchly1."
    else if touchly0 a then depth_video ++ "_Touchly0."
    else depth_video ++ "_stereo." in
  if compressed then output_file ++ "mp4" else output_file ++ "mkv".

(** Lines 189-194: the four characters handed to
    [cv2.VideoWriter_fourcc]. *)
Definition codec (compressed : bool) : string :=
  if compressed then "avc1" else "FFV1".

(** Line 200: the infill mask video, always FFV1 in a Matroska file. *)
Definition infill_mask_file (depth_video : string) (a : args)
    (compressed : bool) : string :=
  output_file depth_video a compressed ++ "_infillmask.mkv".

(** Line 399. *)
Definition background_file (depth_video : string) : string :=
  depth_video ++ "_background.npy".

End OutputFiles.

(** ** A small run, for examples *)

Section Sample.

Local Open Scope ring_scope.

(** A mesh of two vertices, the first one at the origin. *)
Definition sample_mesh : geometry rat :=
  Geometry [:: (0, 0, 0); (1, 0, 0)] [:: (1, 1, 1); (0, 0, 0)] [::].

(** Collaborators that answer with constants: the mesh above, whose
    vertices 0 and 1 are used, and renders of one row of two pixels. *)
Definition sample_tools : collaborators rat :=
  {| camera := unit;
     compute_camera_matrix := fun _ _ _ _ => tt;
     get_mesh_from_depth_map := fun _ _ _ _ _ => (sample_mesh, [:: 1; 0; 1]%nat);
     render := fun _ _ _ _ =>
       ([:: [:: (0, 0, 0)%Q; (1, 1, 1)%Q]], [:: [:: 0%Q; 1%Q]]);
     pts_2_pcd := fun pts cols => Geometry pts cols [::];
     perspective_aware_down_sample := fun cloud _ => cloud;
     transform := fun _ mesh => mesh;
     bgr2gray := fun p => bgr_g p;
     mask2bgr := fun img => Ok (map_image (fun v => BGR v v v) img);
     np_tan := fun q => q |}.

(** The same collaborators with a down-sampling that keeps the first
    point of the cloud only. *)
Definition sample_tools_thin : collaborators rat :=
  {| camera := unit;
     compute_camera_matrix := fun _ _ _ _ => tt;
     get_mesh_from_depth_map := fun _ _ _ _ _ => (sample_mesh, [:: 1; 0; 1]%nat);
     render := fun _ _ _ _ =>
       ([:: [:: (0, 0, 0)%Q; (1, 1, 1)%Q]], [:: [:: 0%Q; 1%Q]]);
     pts_2_pcd := fun pts cols => Geometry pts cols [::];
     perspective_aware_down_sample := fun cloud _ =>
       Geometry (take 1 (points cloud)) (take 1 (colors cloud)) [::];
     transform := fun _ mesh => mesh;
     bgr2gray := fun p => bgr_g p;
     mask2bgr := fun img => Ok (map_image (fun v => BGR v v v) img);
     np_tan := fun q => q |}.

Definition sample_args : args :=
  {| xfov := Some 60%Z; yfov := Some 60%Z; max_depth := 20;
     transformation_lock_frame := 0; pupillary_distance := 63;
     max_frames := (-1); touchly0 := false; vr180 := false;
     touchly1 := false; touchly_max_depth := 5%Q; infill_mask := false;
     remove_edges := false; save_background := false |}.

(** The same command line with [--touchly1]. *)
Definition sample_args_touchly1 : args :=
  {| xfov := Some 60%Z; yfov := Some 60%Z; max_depth := 20;
     transformation_lock_frame := 0; pupillary_distance := 63;
     max_frames := (-1); touchly0 := false; vr180 := false;
     touchly1 := true; touchly_max_depth := 5%Q; infill_mask := false;
     remove_edges := false; save_background := false |}.

(** The same command line with [--save_background]: no render. *)
Definition sample_args_save : args :=
  {| xfov := Some 60%Z; yfov := Some 60%Z; max_depth := 20;
     transformation_lock_frame := 0; pupillary_distance := 63;
     max_frames := (-1); touchly0 := false; vr180 := false;
     touchly1 := false; touchly_max_depth := 5%Q; infill_mask := false;
     remove_edges := false; save_background := true |}.

(** The same command line with [--touchly0], the 3-in-1 format. *)
Definition sample_args_touchly0 : args :=
  {| xfov := Some 60%Z; yfov := Some 60%Z; max_depth := 20;
     transformation_lock_frame := 0; pupillary_distance := 63;
     max_frames := (-1); touchly0 := true; vr180 := false;
     touchly1 := false; touchly_max_depth := 5%Q; infill_mask := false;
     remove_edges := false; save_background := false |}.

(** The same command line with [--max_frames 3]. *)
Definition sample_args_max3 : args :=
  {| xfov := Some 60%Z; yfov := Some 60%Z; max_depth := 20;
     transformation_lock_frame := 0; pupillary_distance := 63;
     max_frames := 3; touchly0 := false; vr180 := false;
     touchly1 := false; touchly_max_depth := 5%Q; infill_mask := false;
     remove_edges := false; save_background := false |}.

(** The same command line with [--infill_mask]. *)
Definition sample_args_infill : args :=
  {| xfov := Some 60%Z; yfov := Some 60%Z; max_depth := 20;
     transformation_lock_frame := 0; pupillary_distance := 63;
     max_frames := (-1); touchly0 := false; vr180 := false;
     touchly1 := false; touchly_max_depth := 5%Q; infill_mask := true;
     remove_edges := false; save_background := false |}.

(** A frame of one row of two pixels; as a mask, its first pixel is
    background and its second one foreground. *)
Definition sample_frame : image bgr_pixel :=
  [:: [:: BGR 0 0 0; BGR 255 255 255]].

Definition sample_inputs : inputs rat :=
  {| depth_video := nseq 10 sample_frame;
     frame_width := 2; frame_height := 1;
     color_video_file := None;
     mask_video_file := Some (nseq 10 sample_frame);
     transformation_file := None;
     load_background_file := None |}.

Definition sample_config : config sample_tools :=
  @Config rat sample_tools None tt tt 2 1 false 0 (4, 1)%nat.

(** A white image of three rows of three pixels. *)
Definition sample_white : image rgb_pixel :=
  nseq 3 (nseq 3 (RGB 255 255 255)).

(** The state the loop starts from with the mask video of ten frames,
    and the state in which the first frame reaches line 272. *)
Definition sample_state0 : state rat :=
  {| frame_n := 0; last_mesh := None;
     bg := Some (Background [::] [::] (Geometry [::] [::] [::]));
     color_video := None; mask_video := Some (nseq 10 sample_frame);
     out := [::]; infill_mask_video := None; calls := [::] |}.

Definition sample_state1 : state rat := set_frame_n 1 sample_state0.

(** The state in which the tenth frame reaches line 272, with a cloud of
    two points. *)
Definition sample_state10 : state rat :=
  {| frame_n := 10; last_mesh := None;
     bg := Some (Background [:: (1, 1, 1); (2, 2, 2)]
                   [:: (0, 0, 0); (1, 1, 1)] (Geometry [::] [::] [::]));
     color_video := None; mask_video := Some [:: sample_frame];
     out := [::]; infill_mask_video := None; calls := [::] |}.

(** The state at the renders of a frame: the mesh is bound, no cloud. *)
Definition sample_state : state rat :=
  {| frame_n := 1; last_mesh := Some sample_mesh; bg := None;
     color_video := None; mask_video := None; out := [::];
     infill_mask_video := None; calls := [::] |}.

End Sample.

(** * Part II: what the program does *)

(** ** DepthCodec *)

Module DepthCodecFacts.

Import Num8 DepthCodec.
Local Open Scope Z_scope.

Lemma avg_rg_range p : valid_pixel p -> 0 <= avg_rg p <= 255.
Proof.
case: p => r g b [/= [Hr0 Hr1] [[Hg0 Hg1] _]]; rewrite /avg_rg /=.
by split; [apply: Z.div_pos; lia | apply: Z.div_le_upper_bound; lia].
Qed.

(** On a uint8 pixel nothing wraps: the byte stored at index 3 is the
    integer average of red and green. *)
Lemma high_byte_avg p : valid_pixel p -> high_byte p = avg_rg p.
Proof.
move=> Hp; have Ha := avg_rg_range Hp.
case: p Hp Ha => r g b [/= [Hr0 Hr1] [[Hg0 Hg1] _]].
rewrite /high_byte /avg_rg /to_uint32 /to_uint8 /= => Ha.
rewrite (Z.mod_small r) ?(Z.mod_small (r + g)); try lia.
have Hq : (inject_Z (r + g) / inject_Z 2 == (r + g) # 2)%Q.
  by rewrite /Qdiv /Qmult /Qinv /inject_Z /Qeq /=; lia.
have Hnn : Qle_bool 0 (inject_Z (r + g) / inject_Z 2)%Q = true.
  by apply/Qle_bool_iff; rewrite Hq /Qle /=; lia.
by rewrite /Qtrunc Hnn Hq /Qfloor /= Z.mod_small //; lia.
Qed.

Lemma low_byte_blue p : valid_pixel p -> low_byte p = blue p.
Proof.
case: p => r g b [_ [_ /= [H0 H1]]].
by rewrite /low_byte /to_uint8 /= Z.mod_small; lia.
Qed.

Lemma depth_word_eq p :
  valid_pixel p -> depth_word p = (256 * avg_rg p + blue p) * 2 ^ 16.
Proof.
move=> Hp; rewrite /depth_word /depth_unit /le_value.
by rewrite (high_byte_avg Hp) (low_byte_blue Hp); lia.
Qed.

Lemma depth_word_range p : valid_pixel p -> 0 <= depth_word p <= max_word.
Proof.
move=> Hp; rewrite (depth_word_eq Hp) /max_word.
have := avg_rg_range Hp; case: Hp => _ [_ Hb]; rewrite /is_uint8 in Hb.
by lia.
Qed.

(** The decoded depth as one fraction. *)
Lemma decode_fraction (md : positive) p :
  (decode (Zpos md) p == (depth_word p * Zpos md) # 4228250625)%Q.
Proof.
rewrite /decode /depth_scale /Qdiv /Qmult /Qinv /inject_Z /Qeq /=.
by lia.
Qed.

(** C1, as the code has it: the decoded depth is never negative and never
    above [max_depth * 0xFFFF0000 / 255^4], about 1.0158 times
    [max_depth]; it stays within [max_depth] exactly when the 16-bit value
    [256 * ((r+g)//2) + b] is at most 0xFC05 = 64517. *)
Theorem decode_range (max_depth : Z) (p : rgb_pixel) :
  valid_pixel p -> 0 < max_depth ->
  [/\ (0 <= decode max_depth p)%Q,
      (decode max_depth p <= inject_Z max_depth * (max_word # 4228250625))%Q
    & (decode max_depth p <= inject_Z max_depth)%Q
      <-> 256 * avg_rg p + blue p <= 64517].
Proof.
move=> Hp; case: max_depth => // md _.
have Hw := depth_word_range Hp; have Hweq := depth_word_eq Hp.
rewrite /max_word in Hw *.
have Hmd : 0 < Z.pos md by [].
split; rewrite decode_fraction /Qle /Qmult; cbn [Qnum Qden inject_Z].
- by nia.
- by rewrite Pos2Z.inj_mul; nia.
rewrite Hweq; set x := 256 * avg_rg p + blue p.
have -> : x * 2 ^ 16 * Z.pos md * 1 = (x * 65536) * Z.pos md by ring.
rewrite (Z.mul_comm (Z.pos md)) -Z.mul_le_mono_pos_r //.
by lia.
Qed.

Lemma decode_range_witness :
  let p := RGB 200 100 17 in
  [/\ (0 <= decode 20 p)%Q,
      (decode 20 p <= inject_Z 20 * (max_word # 4228250625))%Q
    & (decode 20 p <= inject_Z 20)%Q <-> 256 * avg_rg p + blue p <= 64517].
Proof.
apply: (@decode_range 20 (RGB 200 100 17)); last by [].
by rewrite /valid_pixel /is_uint8 /=; lia.
Defined.

(** The claim as the spec words it fails: white, r = g = b = 255, decodes
    to more than [max_depth]. *)
Lemma decode_above_max_depth :
  let p := RGB 255 255 255 in
  valid_pixel p /\ 0 < 20 /\ ~ (decode 20 p <= inject_Z 20)%Q.
Proof.
split; first by rewrite /valid_pixel /is_uint8 /=; lia.
by split=> //; rewrite /Qle; vm_compute.
Qed.

(** C9: two pixels with the same integer average of red and green and
    the same blue decode to the same depth. *)
Theorem decode_depends_on_avg_and_blue (max_depth : Z) (p q : rgb_pixel) :
  valid_pixel p -> valid_pixel q ->
  avg_rg p = avg_rg q -> blue p = blue q ->
  decode max_depth p = decode max_depth q.
Proof.
move=> Hp Hq Ha Hb.
by rewrite /decode (depth_word_eq Hp) (depth_word_eq Hq) Ha Hb.
Qed.

Lemma decode_depends_on_avg_and_blue_witness :
  decode 20 (RGB 10 21 7) = decode 20 (RGB 20 11 7).
Proof.
apply: decode_depends_on_avg_and_blue; rewrite /valid_pixel /is_uint8 //=; lia.
Defined.

End DepthCodecFacts.

(** ** Python indexing *)

Lemma ohead_drop_nth (T : Type) (x0 : T) (s : seq T) (i : nat) :
  i < size s -> ohead (drop i s) = Some (nth x0 s i).
Proof.
by elim: s i => [|x s IH] [|i] //= Hi; rewrite IH.
Qed.

(** A position inside the list is read. *)
Lemma py_getitem_nat (T : Type) (x0 : T) (s : seq T) (i : nat) :
  i < size s -> py_getitem s (Z.of_nat i) = Ok (nth x0 s i).
Proof.
move=> Hi; rewrite /py_getitem.
have /ltP Hi' := Hi.
have -> : (Z.of_nat i <? 0)%Z = false by apply/Z.ltb_ge; lia.
have -> : (0 <=? Z.of_nat i)%Z = true by apply/Z.leb_le; lia.
have -> : (Z.of_nat i <? Z.of_nat (size s))%Z = true by apply/Z.ltb_lt; lia.
by rewrite /= Nat2Z.id (ohead_drop_nth x0 Hi).
Qed.

(** Whatever index is read, it is read at a position of the list. *)
Lemma py_getitem_inv (T : Type) (x0 : T) (s : seq T) (k : Z) (x : T) :
  py_getitem s k = Ok x -> exists2 i, i < size s & x = nth x0 s i.
Proof.
rewrite /py_getitem.
set j := (if (k <? 0)%Z then _ else _).
case: ifP => // /andP [/Z.leb_le Hj0 /Z.ltb_lt Hj1].
have Hlt : Z.to_nat j < size s by apply/ltP; lia.
by rewrite (ohead_drop_nth x0 Hlt) => -[<-]; exists (Z.to_nat j).
Qed.

(** The position read depends on the list through its length only. *)
Lemma py_getitem_map (T U : Type) (f : T -> U) (s : seq T) (k : Z) (x : T) :
  py_getitem s k = Ok x -> py_getitem [seq f y | y <- s] k = Ok (f x).
Proof.
rewrite /py_getitem size_map.
set j := (if (k <? 0)%Z then _ else _).
case: ifP => // /andP [/Z.leb_le Hj0 /Z.ltb_lt Hj1].
have Hlt : Z.to_nat j < size s by apply/ltP; lia.
rewrite (ohead_drop_nth x Hlt) => -[Hx].
by rewrite (ohead_drop_nth (f x)) ?size_map // (nth_map x) // Hx.
Qed.

(** ** The transformation stream *)

Section RebaseFacts.

Variable F : fieldType.
Local Open Scope ring_scope.
Implicit Types (ts : seq (transformation F)) (inv ref : transformation F).

(** The loop of lines 152-153 after its first k rounds. *)
Lemma rebase_rounds inv ts k :
  (k <= size ts)%nat ->
  let ts' := foldl (fun ts i => set_nth 0 ts i (nth 0 ts i *m inv)) ts
                   (iota 0 k) in
  size ts' = size ts
  /\ forall i, nth 0 ts' i = if (i < k)%nat then nth 0 ts i *m inv
                             else nth 0 ts i.
Proof.
elim: k => [|k IH] Hk; first by split.
have [Hsz Hnth] := IH (ltnW Hk).
have -> : iota 0 k.+1 = iota 0 k ++ [:: k] by rewrite -addn1 iotaD add0n.
rewrite foldl_cat /=; split.
  by rewrite size_set_nth Hsz; apply/maxn_idPr.
move=> i; rewrite nth_set_nth /= ltnS leq_eqVlt.
by case: eqP => [->|_] /=; rewrite Hnth ?ltnn.
Qed.

(** The loop multiplies every matrix of the stream, once, on the right. *)
Lemma rebase_all_map inv ts :
  rebase_all inv ts = [seq t *m inv | t <- ts].
Proof.
have [Hsz Hnth] := @rebase_rounds inv ts (size ts) (leqnn _).
apply: (@eq_from_nth _ 0); first by rewrite size_map.
move=> i; rewrite Hsz => Hi.
by rewrite /rebase_all Hnth Hi (nth_map 0).
Qed.

(** With lock frame 0, the default, the stream is left as it was read. *)
Lemma rebase_zero ts : rebase 0 ts = Ok ts.
Proof. by []. Qed.

(** C3, as the code has it, in exact arithmetic: the matrices are over a
    field, [np.linalg.inv] is the exact inverse and [@] the exact
    product.  With lock frame 0, the default, the stream is left as it
    was read.  For a lock frame other than 0 whose matrix is invertible,
    every matrix of the stream becomes T_i * inverse(T_L), and the matrix
    at the lock frame becomes the identity.  (The script computes in
    float64, where the inverse and the products are rounded: there the
    matrix at the lock frame is the identity up to rounding only.) *)
Theorem rebase_lock_frame ts :
  rebase 0 ts = Ok ts
  /\ forall (L : Z) ref,
       L <> 0%Z -> py_getitem ts L = Ok ref -> ref \in unitmx ->
       exists ts',
         [/\ rebase L ts = Ok ts',
             ts' = [seq t *m invmx ref | t <- ts],
             forall (i : Z) t,
               py_getitem ts i = Ok t -> py_getitem ts' i = Ok (t *m invmx ref)
           & py_getitem ts' L = Ok 1%:M].
Proof.
split=> // L ref /Z.eqb_neq HL Href Hunit.
exists [seq t *m invmx ref | t <- ts]; split=> //.
- by rewrite /rebase HL Href /= /np_linalg_inv Hunit /= rebase_all_map.
- by move=> i t; apply: py_getitem_map.
- by rewrite (py_getitem_map _ Href) mulmxV.
Qed.

End RebaseFacts.

Section RebaseExamples.

Import GRing.Theory Num.Theory.
Local Open Scope ring_scope.

Lemma scalar_unitmx (n : nat) : (n.+1%:R%:M : transformation rat) \in unitmx.
Proof.
by rewrite unitmxE det_scalar unitfE expf_neq0 // pnatr_eq0.
Qed.

Lemma rebase_lock_frame_witness :
  let ts : seq (transformation rat) := [:: 2%:R%:M; 3%:R%:M] in
  rebase 0 ts = Ok ts
  /\ exists ts',
       [/\ rebase (-1) ts = Ok ts',
           ts' = [seq t *m invmx (3%:R%:M) | t <- ts],
           forall (i : Z) t,
             py_getitem ts i = Ok t ->
             py_getitem ts' i = Ok (t *m invmx (3%:R%:M))
         & py_getitem ts' (-1) = Ok 1%:M].
Proof.
move=> ts; have [H0 HL] := @rebase_lock_frame rat ts.
split; first exact: H0.
apply: (HL (-1)%Z (3%:R%:M)) => //.
exact: scalar_unitmx.
Defined.

(** The claim as the spec words it fails at lock frame 0: a stream of
    invertible matrices whose first one is not the identity keeps it. *)
Lemma rebase_lock_frame_0_not_identity :
  let ts : seq (transformation rat) := [:: 2%:R%:M; 3%:R%:M] in
  [/\ all (fun t => t \in unitmx) ts,
      rebase 0 ts = Ok ts
    & py_getitem ts 0 <> Ok 1%:M].
Proof.
split=> //; first by rewrite /= !scalar_unitmx.
rewrite /py_getitem /= => -[] /matrixP /(_ ord0 ord0).
by rewrite !mxE.
Qed.

End RebaseExamples.

(** ** The persisted background *)

Section BackgroundFacts.

Variable F : fieldType.
Variable dmt : collaborators F.
Implicit Types (pts cols : seq (vec3 F)) (b : background F).
Implicit Types (file rest : artifact F).

Lemma rectangular2 pts cols rest :
  rectangular (pts :: cols :: rest) -> size pts = size cols.
Proof. by rewrite /rectangular /= eqxx /= => /andP [/eqP ->]. Qed.

Lemma load_background_Ok file pts cols :
  load_background file = Ok (pts, cols) ->
  exists2 rest, file = pts :: cols :: rest & rectangular file.
Proof.
rewrite /load_background /np_load; case Hr: (rectangular file) => //.
cbv beta iota delta [bind]; case: file Hr => [|p [|c rest]] // Hr.
rewrite (@py_getitem_nat _ [::] _ 0) // (@py_getitem_nat _ [::] _ 1) //.
by case=> <- <-; exists rest.
Qed.

Lemma load_background_rectangular pts cols rest :
  rectangular (pts :: cols :: rest) ->
  load_background (pts :: cols :: rest) = Ok (pts, cols).
Proof.
rewrite /load_background /np_load => ->; cbv beta iota delta [bind].
by rewrite (@py_getitem_nat _ [::] _ 0) // (@py_getitem_nat _ [::] _ 1).
Qed.

(** C4: a background file whose points and colors differ in length can
    only hold an array of objects, which [np.load] (line 209) refuses
    with a ValueError; in a run with a mask video the script ends there,
    in its set-up, and no frame is read.  A load that returns hands back
    the elements 0 and 1 of the array, which have one length: nothing is
    cut.  What line 399 wrote from a cloud with as many colors as points
    is restored exactly, and the cloud of the run starts from it. *)
Theorem load_background_rejects_mismatch file :
  [/\ forall pts cols rest,
        file = pts :: cols :: rest -> size pts <> size cols ->
        load_background file = Raise ValueError
        /\ forall a inp,
             is_ok (configure dmt a inp) -> mask_video_file inp ->
             load_background_file inp = Some file ->
             main dmt a inp = Raise ValueError,
      forall pts cols,
        load_background file = Ok (pts, cols) ->
        [/\ size pts = size cols, py_getitem file 0 = Ok pts
          & py_getitem file 1 = Ok cols]
    & forall b,
        file = save_background_artifact b ->
        size (bg_points b) = size (bg_point_colors b) ->
        load_background file = Ok (bg_points b, bg_point_colors b)
        /\ exists g, init_background true (Some file)
                     = Ok (Some (Background (bg_points b)
                                   (bg_point_colors b) g))].
Proof.
split.
- move=> pts cols rest -> Hne.
  have Hrect : rectangular (pts :: cols :: rest) = false.
    by apply/negP => /rectangular2.
  have Hload : load_background (pts :: cols :: rest) = Raise ValueError
      :> result (_ * _).
    by rewrite /load_background /np_load Hrect.
  split=> // a inp Hcfg Hmask Hfile.
  have Hinit : init_state a inp = Raise ValueError.
    rewrite /init_state Hfile; case: (mask_video_file inp) Hmask => // v _.
    by rewrite /init_background Hload.
  by rewrite /main Hinit; case: (configure dmt a inp) Hcfg.
- move=> pts cols Hload.
  have [rest Efile Hrect] := load_background_Ok Hload.
  rewrite Efile in Hrect *; split; first exact: rectangular2 Hrect.
    by rewrite (@py_getitem_nat _ [::] _ 0).
  by rewrite (@py_getitem_nat _ [::] _ 1).
- move=> b -> Hsz.
  have Hrect : rectangular (save_background_artifact b).
    by rewrite /rectangular /save_background_artifact /= Hsz !eqxx.
  have Hload := load_background_rectangular Hrect.
  split=> //.
  by exists (@Geometry F [::] [::] [::]); rewrite /init_background Hload.
Qed.

End BackgroundFacts.

Section BackgroundExamples.

Local Open Scope ring_scope.

(** An artifact with two points and one color is refused, and the run
    that is given it ends in its set-up; an artifact with one point and
    one color is restored. *)
Lemma load_background_rejects_mismatch_witness :
  let pts : seq (vec3 rat) := [:: (0, 0, 0); (1, 1, 1)] in
  let cols : seq (vec3 rat) := [:: (0, 0, 0)] in
  let inp := {| depth_video := nseq 10 sample_frame;
                frame_width := 2; frame_height := 1;
                color_video_file := None;
                mask_video_file := Some (nseq 10 sample_frame);
                transformation_file := None;
                load_background_file := Some [:: pts; cols] |} in
  [/\ load_background [:: pts; cols] = Raise ValueError,
      main sample_tools sample_args inp = Raise ValueError
    & load_background [:: cols; cols] = Ok (cols, cols)].
Proof.
move=> pts cols inp.
have [Hbad _ _] := @load_background_rejects_mismatch rat sample_tools
                     [:: pts; cols].
have [H1 H2] := Hbad pts cols [::] (erefl _) (fun E => eq_ind 2%nat
                  (fun n => if n is 2%nat then True else False) I 1%nat E).
have [_ _ Hgood] := @load_background_rejects_mismatch rat sample_tools
                      [:: cols; cols].
have [H3 _] := Hgood (Background cols cols (Geometry [::] [::] [::]))
                 (erefl _) (erefl _).
split; [exact: H1 | | exact: H3].
by apply: H2.
Defined.

End BackgroundExamples.

(** ** Reasoning on the loop body *)

Section MonadFacts.

Variable F : fieldType.
Implicit Types (s : state F).

(** A computation that returns went through both halves of a bind. *)
Lemma bindM_Ok A B (m : M F A) (k : A -> M F B) s b s' :
  bindM m k s = (Ok b, s') ->
  exists a s1, m s = (Ok a, s1) /\ k a s1 = (Ok b, s').
Proof.
by rewrite /bindM; case: (m s) => [[x|e] s1] // Hk; exists x, s1.
Qed.

Section Keeps.

Variables (X : Type) (proj : state F -> X).

Lemma keeps_ret A (x : A) : keeps proj (ret x).
Proof. by []. Qed.

Lemma keeps_raise A e : keeps proj (@raise F A e).
Proof. by []. Qed.

Lemma keeps_lift A (r : result A) : keeps proj (lift r).
Proof. by []. Qed.

Lemma keeps_get : keeps proj (@get F).
Proof. by []. Qed.

Lemma keeps_modify f : (forall s, proj (f s) = proj s) -> keeps proj (modify f).
Proof. by move=> Hf s; rewrite /modify /=. Qed.

Lemma keeps_bind A B (m : M F A) (k : A -> M F B) :
  keeps proj m -> (forall x, keeps proj (k x)) -> keeps proj (bindM m k).
Proof.
move=> Hm Hk s; rewrite /bindM; have := Hm s.
by case: (m s) => [[x|e] s1] /= <- //; apply: Hk.
Qed.

Lemma keeps_if A (c : bool) (m1 m2 : M F A) :
  keeps proj m1 -> keeps proj m2 -> keeps proj (if c then m1 else m2).
Proof. by case: c. Qed.

End Keeps.

Lemma read_color_frame_keeps rgb :
  keeps background_side (@read_color_frame F rgb).
Proof.
apply: keeps_bind; first exact: keeps_get.
move=> s; case: (color_video s) => [[|frame rest]|]; try by [].
apply: keeps_bind; first exact: keeps_modify.
by move=> _; apply: keeps_if.
Qed.

Lemma finish_keeps a out_image : keeps background_side (@finish F a out_image).
Proof.
apply: keeps_bind; first exact: keeps_modify.
by move=> _; apply: keeps_bind => // ?; apply: keeps_ret.
Qed.

Section FastPath.

Variables (dmt : collaborators F) (a : args) (inp : inputs F).
Variable cfg : config dmt.

Hypothesis touchly1_selected : touchly1 a.
Hypothesis no_transformations : transformations cfg = None.

(** On the fast path a frame reads no mask frame, leaves the cloud and
    calls no collaborator, whether the frame is written or an exception
    stops it. *)
Lemma step_fast_path_keeps raw_frame :
  keeps background_side (step a inp cfg raw_frame).
Proof.
rewrite /step no_transformations touchly1_selected /=.
apply: keeps_bind; first exact: read_color_frame_keeps.
move=> color_frame; apply: keeps_bind; first exact: keeps_lift.
move=> depth; apply: keeps_bind; first exact: keeps_lift.
by move=> out_image; apply: finish_keeps.
Qed.

Lemma run_loop_fast_path_keeps frames s :
  background_side (run_loop a inp cfg frames s).2 = background_side s.
Proof.
elim: frames s => [|raw_frame rest IH] s //=.
have := step_fast_path_keeps raw_frame (set_frame_n (frame_n s).+1 s).
case: (step _ _ _ _ _) => [[[|]|e] s1] /= Hs1 //.
by rewrite IH Hs1.
Qed.

End FastPath.

End MonadFacts.

(** ** The fast path and the background *)

Section FastPathRun.

Variable F : fieldType.
Variable dmt : collaborators F.

Lemma configure_transformations a (inp : inputs F) (cfg : config dmt) :
  transformation_file inp = None -> configure dmt a inp = Ok cfg ->
  transformations cfg = None.
Proof.
rewrite /configure => ->; case: ifP => // _ /=.
case: ifP => _; last by case=> <-.
by case: (max_fov a) => //= m; case: ifP => // _ [<-].
Qed.

(** C10: with Touchly mono selected and no transformation stream, every
    frame goes the fast path.  From any state and over any frames the loop
    reads no mask frame, leaves the background cloud as it is and calls
    neither the renderer nor the down-sampling, up to the end of the run
    or to the exception that stops it; at the end of the script the mask
    video is unread and the cloud is the initial one, empty or loaded. *)
Theorem fast_path_leaves_background a (inp : inputs F) :
  touchly1 a -> transformation_file inp = None ->
  forall cfg : config dmt, configure dmt a inp = Ok cfg ->
  (forall frames s,
     let s' := (run_loop a inp cfg frames s).2 in
     [/\ mask_video s' = mask_video s, bg s' = bg s & calls s' = calls s])
  /\ (forall o, main dmt a inp = Ok o ->
      [/\ mask_video (final o) = mask_video_file inp,
          init_background (isSome (mask_video_file inp))
            (load_background_file inp) = Ok (bg (final o))
        & calls (final o) = [::]]).
Proof.
move=> Ht1 Hnt cfg Hcfg.
have Hts := configure_transformations Hnt Hcfg.
have Hrun frames s := run_loop_fast_path_keeps inp Ht1 Hts frames s.
split=> [frames s /=|o].
  by have [-> -> _ ->] := Hrun frames s.
rewrite /main Hcfg /= /init_state.
case Hb: (init_background _ _) => [b0|e] //=.
set s0 := State _ _ _ _ _ _ _ _.
have := Hrun (depth_video inp) s0.
case: (run_loop _ _ _ _ _) => [e s1] /= [Hm Hbg _ Hc].
have Hfin : [/\ mask_video s1 = mask_video_file inp, Ok b0 = Ok (bg s1)
               & calls s1 = [::]] by rewrite Hm Hbg Hc.
case: e => [e|]; first by case=> <-.
case: ifP => _; last by case=> <-.
by case: (bg s1) => [b|] [<-].
Qed.

End FastPathRun.

(** ** The eye renders *)

Section StereoFacts.

Import GRing.Theory.
Local Open Scope ring_scope.

Variable F : fieldType.
Variable dmt : collaborators F.
Variables (a : args) (inp : inputs F) (cfg : config dmt).
Implicit Types (s : state F) (g : geometry F) (r : scene_ref).

Lemma translate_translate (d1 d2 : vec3 F) g :
  translate d2 (translate d1 g) = translate (vadd d1 d2) g.
Proof.
case: g => pts cols tris; rewrite /translate /= -map_comp; congr Geometry.
apply: eq_map => -[[x y] z] /=.
by case: d1 => [[x1 y1] z1]; case: d2 => [[x2 y2] z2] /=; rewrite !addrA.
Qed.

Lemma translate_back (x : F) g :
  translate (- x, 0, 0) (translate (x, 0, 0) g) = g.
Proof.
rewrite translate_translate /= subrr addr0; case: g => pts cols tris.
rewrite /translate /=; congr Geometry.
by rewrite -[RHS]map_id; apply: eq_map => -[[u v] w] /=; rewrite !addr0.
Qed.

Lemma translate_scene_Ok r d s :
  exists s1, [/\ translate_scene r d s = (Ok tt, s1),
                 scene_of r s1 = omap (translate d) (scene_of r s),
                 calls s1 = calls s & frame_n s1 = frame_n s].
Proof.
eexists; split; first by [].
- by case: r => //=; case: (bg s).
- by case: r.
- by case: r.
Qed.

Lemma render_call_Ok r mode bgc s x s1 :
  render_call cfg r mode bgc s = (Ok x, s1) ->
  exists g, [/\ scene_of r s = Some g,
                scene_of r s1 = Some g,
                calls s1 = rcons (calls s) (CallRender (frame_n s) [:: g] mode)
              & frame_n s1 = frame_n s].
Proof.
rewrite /render_call /get_scene /bindM /get /ret /raise /=.
case: r => /=.
  by case Hm: (last_mesh s) => [g|] //= [_ <-]; exists g.
by case Hb: (bg s) => [b|] //= [_ <-]; exists (bg_cloud b); rewrite /= Hb.
Qed.

(** A render that returns has called the collaborator on the scene. *)
Lemma render_call_value r mode bgc s x s1 g :
  scene_of r s = Some g ->
  render_call cfg r mode bgc s = (Ok x, s1) ->
  x = render dmt [:: g] (render_cam_matrix cfg) mode bgc.
Proof.
rewrite /render_call /get_scene /bindM /get /ret /raise /=.
case: r => /=.
  by move=> ->; case.
by case: (bg s) => [b|] //= [->]; case.
Qed.

Lemma lift_Ok A (res : result A) s x s1 :
  @lift F A res s = (Ok x, s1) -> res = Ok x /\ s1 = s.
Proof. by rewrite /lift => -[-> ->]. Qed.

Lemma write_infill_mask_keeps r out_mask_image :
  keeps (render_side r) (write_infill_mask dmt out_mask_image).
Proof.
apply: keeps_bind; first exact: keeps_lift.
by move=> frame; apply: keeps_modify => s; case: r.
Qed.

(** When a computation that keeps a part of the state returns, the part
    is as before. *)
Lemma keeps_Ok X (proj : state F -> X) A (m : M F A) s x s1 :
  keeps proj m -> m s = (Ok x, s1) -> proj s1 = proj s.
Proof. by move=> /(_ s) + Hm; rewrite Hm. Qed.


Lemma mask_block_keeps r (infill : bool) (plane : result (image Z)) :
  keeps (render_side r)
        (if infill then @lift F _ plane else ret [::]).
Proof. by case: infill. Qed.

Lemma left_shift_opp pd : left_shift F pd = - right_shift F pd.
Proof. by rewrite /left_shift /right_shift mulNr. Qed.

(** The depth render of the 3-in-1 format looks at the scene where the
    left eye left it. *)
Lemma depth_block_Ok r s g d s1 :
  scene_of r s = Some g ->
  (if touchly0 a then
     bindM (render_call cfg r DepthOnly None) (fun buffers =>
     bindM (lift (Touchly.depth_gain (touchly_max_depth a))) (fun gain =>
     ret (Some (map_image
                  (Touchly.rendered_depth (touchly_max_depth a) gain)
                  buffers.2))))
   else ret None) s = (Ok d, s1) ->
  [/\ scene_of r s1 = Some g, frame_n s1 = frame_n s,
      calls s1 = calls s ++ (if touchly0 a
                             then [:: CallRender (frame_n s) [:: g] DepthOnly]
                             else [::])
    & if touchly0 a then
        exists2 gain,
          Touchly.depth_gain (touchly_max_depth a) = Ok gain
          & d = Some (map_image
                        (Touchly.rendered_depth (touchly_max_depth a) gain)
                        (render dmt [:: g] (render_cam_matrix cfg) DepthOnly
                           None).2)
      else d = None].
Proof.
move=> Hg; case: (touchly0 a); last first.
  by case=> <- <-; rewrite cats0.
move=> H.
have [buffers [s2 [H1 H2]]] := bindM_Ok H.
have [g' [Hg' Hs2 Hc2 Hn2]] := render_call_Ok H1.
have Ebuf := render_call_value Hg H1.
have [gain [s3 [H3 H4]]] := bindM_Ok H2.
have [Hgain E3] := lift_Ok H3.
case: H4 => <- <-; rewrite E3 cats1 Hn2 Hc2 Hs2 Ebuf.
by move: Hg'; rewrite Hg => -[->]; split=> //; exists gain.
Qed.


(** A frame of the stereo, VR180 or 3-in-1 path that completes: the
    scene is moved for the left eye and rendered, for the color and with
    [--touchly0] for the depth; it is moved back, moved for the right eye
    and rendered; the frame is assembled from these renders. *)
Lemma render_stereo_Ok r infill bgc s g out_image s' :
  scene_of r s = Some g ->
  render_stereo a inp cfg r infill bgc s = (Ok out_image, s') ->
  let shift := right_shift F (pupillary_distance a) in
  let g_left := translate (shift, 0, 0) g in
  let g_right := translate (- shift, 0, 0) g in
  let cam := render_cam_matrix cfg in
  [/\ scene_of r s' = Some g_right,
      calls s' =
        calls s
        ++ CallRender (frame_n s) [:: g_left] ColorOnly
           :: (if touchly0 a
               then [:: CallRender (frame_n s) [:: g_left] DepthOnly]
               else [::])
        ++ [:: CallRender (frame_n s) [:: g_right] ColorOnly]
    & exists depth,
        (if touchly0 a then
           exists2 gain,
             Touchly.depth_gain (touchly_max_depth a) = Ok gain
             & depth = Some (map_image
                               (Touchly.rendered_depth (touchly_max_depth a)
                                  gain)
                               (render dmt [:: g_left] cam DepthOnly None).2)
         else depth = None)
        /\ assemble_stereo (np_tan dmt) (use_vr180 cfg) (render_fov cfg)
             (map_image Touchly.color8bit
                (render dmt [:: g_left] cam ColorOnly (Some bgc)).1)
             (map_image Touchly.color8bit
                (render dmt [:: g_right] cam ColorOnly (Some bgc)).1)
             depth
           = Ok out_image].
Proof.
move=> Hg; rewrite /render_stereo left_shift_opp opprK.
set shift := right_shift F _ => H /=.
(* the move for the left eye *)
have [[] [s1 [H1 {}H]]] := bindM_Ok H.
have [s1' [E1 Hg1 Hc1 Hn1]] := translate_scene_Ok r (shift, 0, 0) s.
move: H1; rewrite E1 => -[?]; subst s1'; rewrite Hg /= in Hg1.
(* the left render *)
have [left [s2 [Hleft {}H]]] := bindM_Ok H.
have [g2 [Hg2 Hs2 Hc2 Hn2]] := render_call_Ok Hleft.
have Eleft := render_call_value Hg1 Hleft.
move: Hg2; rewrite Hg1 => -[?]; subst g2.
have [mask1 [s3 [/(keeps_Ok (mask_block_keeps r _ _)) [Hs3 Hc3 Hn3] {}H]]]
  := bindM_Ok H.
(* the left depth *)
have [depth [s4 [H4 {}H]]] := bindM_Ok H.
have [Hs4 Hn4 Hc4 Hdepth] := depth_block_Ok (etrans Hs3 Hs2) H4.
(* back, and the move for the right eye *)
have [[] [s5 [H5 {}H]]] := bindM_Ok H.
have [s5' [E5 Hg5 Hc5 Hn5]] := translate_scene_Ok r (- shift, 0, 0) s4.
move: H5; rewrite E5 => -[?]; subst s5'; rewrite Hs4 /= in Hg5.
have [[] [s6 [H6 {}H]]] := bindM_Ok H.
have [s6' [E6 Hg6 Hc6 Hn6]] := translate_scene_Ok r (- shift, 0, 0) s5.
move: H6; rewrite E6 => -[?]; subst s6'; rewrite Hg5 /= in Hg6.
(* the right render *)
have [right [s7 [Hright {}H]]] := bindM_Ok H.
have [g7 [Hg7 Hs7 Hc7 Hn7]] := render_call_Ok Hright.
have Eright := render_call_value Hg6 Hright.
move: Hg7; rewrite Hg6 => -[?]; subst g7.
have [mask2 [s8 [/(keeps_Ok (mask_block_keeps r _ _)) [Hs8 Hc8 Hn8] {}H]]]
  := bindM_Ok H.
(* the assembly *)
have [out [s9 [Hout {}H]]] := bindM_Ok H.
have [Hs9 Hc9 Hn9] := keeps_Ok (@keeps_lift _ _ (render_side r) _ _) Hout.
have [Eout _] := lift_Ok Hout.
have [[] [s10 [H10 [Eret ?]]]] := bindM_Ok H; subst s10.
have Hk : keeps (render_side r)
            (if infill
             then bindM (lift (hconcat
                    ([:: mask1; mask2]
                     ++ (if depth is Some _ then [:: zero_plane inp]
                         else [::]))))
                    (fun m => write_infill_mask dmt m)
             else ret tt).
  case: infill {H10 H H4} => //.
  apply: keeps_bind; first exact: keeps_lift.
  by move=> m; apply: write_infill_mask_keeps.
have [Hs' Hc' Hn'] := keeps_Ok Hk H10.
have Eback := translate_back shift g.
split.
- by rewrite Hs' Hs9 Hs8 Hs7 Eback.
- rewrite Hc' Hc9 Hc8 Hc7 Hc6 Hc5 Hc4 Hc3 Hc2 Hc1 Hn6 Hn5 Hn4 Hn3 Hn2 Hn1.
  by rewrite Eback -!cats1 -!catA.
- by exists depth; split=> //; rewrite -Eret -Eout Eleft Eright Eback.
Qed.

(** C2, what the code does: in a frame of the stereo, VR180 or 3-in-1
    path that completes, the left eye (and the left depth) is rendered
    with the scene moved by +pd/2000 along x, the scene is moved back, and
    the right eye is rendered with the scene moved by -pd/2000 from the
    same pose; the second move is not undone: the scene object is left
    displaced by (-pd/2000, 0, 0). *)
Theorem render_stereo_leaves_scene_shifted r infill bgc s g out_image s' :
  scene_of r s = Some g ->
  render_stereo a inp cfg r infill bgc s = (Ok out_image, s') ->
  let shift := right_shift F (pupillary_distance a) in
  let g_left := translate (shift, 0, 0) g in
  let g_right := translate (- shift, 0, 0) g in
  scene_of r s' = Some g_right
  /\ calls s' =
     calls s
     ++ CallRender (frame_n s) [:: g_left] ColorOnly
        :: (if touchly0 a
            then [:: CallRender (frame_n s) [:: g_left] DepthOnly]
            else [::])
     ++ [:: CallRender (frame_n s) [:: g_right] ColorOnly].
Proof.
by move=> Hg /(render_stereo_Ok Hg) [Hs Hc _].
Qed.

End StereoFacts.

(** ** The eye renders on the sample run *)

Section StereoExample.

Import GRing.Theory Num.Theory.
Local Open Scope ring_scope.

Lemma ZtoF_pos_neq0 (R : numFieldType) (p : positive) : ZtoF R (Zpos p) != 0.
Proof.
rewrite /ZtoF (_ : (Z.pos p <? 0)%Z = false) // pnatr_eq0 Z2Nat.inj_pos.
by apply/eqP => H; have := Pos2Nat.is_pos p; rewrite H; move/ltP.
Qed.

(** A positive pupillary distance gives a shift that is not zero. *)
Lemma right_shift_pos_neq0 (R : numFieldType) (p : positive) :
  right_shift R (Zpos p) != 0.
Proof.
rewrite /right_shift; apply: mulf_neq0; last by rewrite invr_eq0 pnatr_eq0.
by apply: mulf_neq0; [exact: ZtoF_pos_neq0 | rewrite invr_eq0 pnatr_eq0].
Qed.

(** The failing input of C2: pupillary distance 63, a mesh with a vertex
    at the origin.  After the two eye renders the mesh that the next frame
    gets as its hint is 63/2000 off along x. *)
Lemma render_stereo_leaves_scene_shifted_witness :
  let res := render_stereo sample_args sample_inputs sample_config FrameMesh
               false (0, 0, 0)%Q sample_state in
  let shift := right_shift rat 63 in
  [/\ scene_of FrameMesh res.2 = Some (translate (- shift, 0, 0) sample_mesh),
      calls res.2 =
        [:: CallRender 1 [:: translate (shift, 0, 0) sample_mesh] ColorOnly;
            CallRender 1 [:: translate (- shift, 0, 0) sample_mesh] ColorOnly]
    & scene_of FrameMesh res.2 <> scene_of FrameMesh sample_state].
Proof.
move=> res shift.
have Hok : is_ok res.1 by [].
case E: res Hok => [[out_image|e] s'] //= _.
have [Hs Hc] :=
  @render_stereo_leaves_scene_shifted rat sample_tools sample_args
    sample_inputs sample_config FrameMesh false (0, 0, 0)%Q sample_state
    sample_mesh out_image s' (erefl _) E.
split=> //.
rewrite -/(scene_of FrameMesh s') Hs [pupillary_distance _]/= => Hg.
have {Hg} : (head (0, 0, 0) (points (translate (- right_shift rat 63, 0, 0)
                                     sample_mesh))).1.1
            = (head (0, 0, 0) (points sample_mesh)).1.1.
  exact: (congr1 (fun o => if o is Some g
                           then (head (0, 0, 0) (points g)).1.1 else 0) Hg).
rewrite /translate /sample_mesh; cbn [points map head vadd fst] => /eqP.
by rewrite add0r oppr_eq0 (negbTE (right_shift_pos_neq0 _ 63)).
Defined.

End StereoExample.

(** ** The fast path on the sample run *)

Section FastPathExample.

Lemma Ok_inj A (x y : A) : Ok x = Ok y -> x = y.
Proof. by case. Qed.

Lemma fast_path_leaves_background_witness :
  exists o,
    main sample_tools sample_args_touchly1 sample_inputs = Ok o
    /\ [/\ raised o = None & size (out (final o)) = 10]
    /\ [/\ mask_video (final o) = Some (nseq 10 sample_frame),
            bg (final o) = Some (Background [::] [::] (Geometry [::] [::] [::]))
          & calls (final o) = [::]].
Proof.
pose cfg := @Config rat sample_tools None tt tt 2 1 false 0 (2, 2)%nat.
have Hcfg : configure sample_tools sample_args_touchly1 sample_inputs = Ok cfg.
  by [].
have [_ Hmain] :=
  @fast_path_leaves_background rat sample_tools sample_args_touchly1
    sample_inputs (erefl _) (erefl _) cfg Hcfg.
have Hrun :
  (if main sample_tools sample_args_touchly1 sample_inputs is Ok o
   then (raised o, size (out (final o))) else (Some SystemExit, 0%nat))
  = (None, 10%nat) by vm_compute.
case E: (main sample_tools sample_args_touchly1 sample_inputs) Hrun => [o|e] //.
have [Hm Hb Hc] := Hmain o E.
move=> [Hr Ho]; exists o; split=> //; split=> //.
by have /= <- := Ok_inj Hb.
Defined.

End FastPathExample.

(** ** The intersection of the used and the masked indices *)

Section Intersect.

Implicit Types (s aux ar : seq nat) (x : nat).

Lemma equal_to_next_cons2 (a b : nat) (rest : seq nat) :
  equal_to_next (a :: b :: rest)
  = if a == b then a :: equal_to_next (b :: rest)
    else equal_to_next (b :: rest).
Proof. by []. Qed.

Lemma equal_to_next_subseq aux : subseq (equal_to_next aux) aux.
Proof.
elim: aux => [|a [|b rest] IH] //.
rewrite equal_to_next_cons2; case: ifP => _.
  by rewrite [subseq _ _]/= eqxx.
exact: subseq_trans IH (subseq_cons _ _).
Qed.

(** In a sorted array a value has one copy less among the values equal to
    their successor. *)
Lemma count_equal_to_next aux x :
  sorted leq aux ->
  count_mem x (equal_to_next aux) = (count_mem x aux).-1.
Proof.
elim: aux => [|a [|b rest] IH] //; first by rewrite /=; case: (a == x).
move=> Hs; have Hs' : sorted leq (b :: rest) by move: Hs => /= /andP [].
have Hab : a <= b by move: Hs => /= /andP [].
have Ecount : count_mem x [:: a, b & rest]
              = (a == x) + count_mem x (b :: rest).
  by rewrite -(cat1s a) count_cat [count_mem x [:: a]]/= addn0.
rewrite equal_to_next_cons2 Ecount; case: ifP => [/eqP Eab|/negbT Nab].
  rewrite -cat1s count_cat [count_mem x [:: a]]/= addn0 (IH Hs') Eab.
  by rewrite [count_mem x (b :: rest)]/=; case: (b == x).
rewrite (IH Hs'); have [Eax|//] := eqVneq a x.
suff /count_memPn -> : x \notin b :: rest by [].
have Hall : all (leq b) (b :: rest).
  by rewrite /= leqnn /=; apply: (order_path_min leq_trans); move: Hs' => /=.
apply/negP => /(allP Hall); rewrite -Eax => Hba.
by move: Nab; rewrite eqn_leq Hab Hba.
Qed.

Lemma mem_np_unique s x : (x \in np_unique s) = (x \in s).
Proof. by rewrite /np_unique mem_sort mem_undup. Qed.

Lemma np_unique_uniq s : uniq (np_unique s).
Proof. by rewrite /np_unique sort_uniq undup_uniq. Qed.

(** A value is once in the intersection when it is in both arrays, and
    not at all otherwise. *)
Lemma count_np_intersect1d (ar1 ar2 : seq nat) x :
  count_mem x (np_intersect1d ar1 ar2) = (x \in ar1) && (x \in ar2).
Proof.
rewrite /np_intersect1d; cbv zeta.
rewrite count_equal_to_next; first exact: (sort_sorted leq_total).
rewrite (permP (permEl (perm_sort _ _))) count_cat.
rewrite !count_uniq_mem ?np_unique_uniq // !mem_np_unique.
by case: (x \in ar1); case: (x \in ar2).
Qed.

Lemma mem_np_intersect1d (ar1 ar2 : seq nat) x :
  (x \in np_intersect1d ar1 ar2) = (x \in ar1) && (x \in ar2).
Proof.
rewrite -has_pred1 has_count count_np_intersect1d.
by case: (_ && _).
Qed.

Lemma np_intersect1d_uniq (ar1 ar2 : seq nat) : uniq (np_intersect1d ar1 ar2).
Proof.
apply: count_mem_uniq => x.
by rewrite count_np_intersect1d mem_np_intersect1d.
Qed.

Lemma np_intersect1d_sorted (ar1 ar2 : seq nat) : sorted leq (np_intersect1d ar1 ar2).
Proof.
rewrite /np_intersect1d; cbv zeta.
apply: (subseq_sorted leq_trans (equal_to_next_subseq _)).
exact: (sort_sorted leq_total).
Qed.

(** The intersection is the sorted list of the distinct values of the
    first array that are in the second. *)
Lemma np_intersect1d_filter (ar1 ar2 : seq nat) :
  np_intersect1d ar1 ar2 = sort leq (undup (filter (mem ar2) ar1)).
Proof.
apply: (sorted_eq leq_trans anti_leq).
- exact: np_intersect1d_sorted.
- exact: (sort_sorted leq_total).
apply: uniq_perm; rewrite ?np_intersect1d_uniq ?sort_uniq ?undup_uniq //.
by move=> x; rewrite mem_np_intersect1d mem_sort mem_undup mem_filter andbC.
Qed.

(** It depends on its arguments through the sets of their values only. *)
Lemma np_intersect1d_eq_mem (ar1 ar1' ar2 ar2' : seq nat) :
  ar1 =i ar1' -> ar2 =i ar2' ->
  np_intersect1d ar1 ar2 = np_intersect1d ar1' ar2'.
Proof.
move=> H1 H2; apply: (sorted_eq leq_trans anti_leq).
- exact: np_intersect1d_sorted.
- exact: np_intersect1d_sorted.
apply: uniq_perm; rewrite ?np_intersect1d_uniq // => x.
by rewrite !mem_np_intersect1d H1 H2.
Qed.

End Intersect.

(** ** The cadence of the decimation *)

Section PostFacts.

Variable F : fieldType.
Implicit Types (s : state F).

Lemma post_bind A B (m : M F A) (k : A -> M F B) s Qok Qerr :
  post m s (fun x s1 => post (k x) s1 Qok Qerr) Qerr ->
  post (bindM m k) s Qok Qerr.
Proof. by rewrite /post /bindM; case: (m s) => [[x|e] s1]. Qed.

Lemma post_keeps X (proj : state F -> X) A (m : M F A) s
    (Qok : A -> state F -> Prop) (Qerr : state F -> Prop) :
  keeps proj m ->
  (forall x s', proj s' = proj s -> Qok x s') ->
  (forall s', proj s' = proj s -> Qerr s') ->
  post m s Qok Qerr.
Proof.
move=> /(_ s) Hm Hok Herr; rewrite /post.
by case: (m s) Hm => [[x|e] s1] /= Hs; [apply: Hok | apply: Herr].
Qed.

Lemma post_ret A (x : A) s (Qok : A -> state F -> Prop) Qerr :
  Qok x s -> post (ret x) s Qok Qerr.
Proof. by []. Qed.

Lemma post_raise A e s (Qok : A -> state F -> Prop) (Qerr : state F -> Prop) :
  Qerr s -> post (raise e) s Qok Qerr.
Proof. by []. Qed.

Lemma post_lift A (r : result A) s (Qok : A -> state F -> Prop)
    (Qerr : state F -> Prop) :
  (forall x, Qok x s) -> Qerr s -> post (lift r) s Qok Qerr.
Proof. by rewrite /post /lift; case: r. Qed.

Lemma post_get s (Qok : state F -> state F -> Prop) Qerr :
  Qok s s -> post (@get F) s Qok Qerr.
Proof. by []. Qed.

Lemma post_modify f s (Qok : unit -> state F -> Prop) Qerr :
  Qok tt (f s) -> post (modify f) s Qok Qerr.
Proof. by []. Qed.

End PostFacts.

Section CadenceFacts.

Variable F : fieldType.
Variable dmt : collaborators F.
Implicit Types (s : state F) (cs : seq (call F)) (c : call F).

Lemma accumulated_rcons cs c :
  accumulated (rcons cs c)
  = accumulated cs ++ (if c is CallPts2Pcd n _ _ then [:: n] else [::]).
Proof. by rewrite /accumulated map_rcons flatten_rcons. Qed.

Lemma decimated_rcons cs c :
  decimated (rcons cs c)
  = decimated cs ++ (if c is CallDownSample n _ _ then [:: n] else [::]).
Proof. by rewrite /decimated map_rcons flatten_rcons. Qed.

Lemma decimation_cells_rcons cs c :
  decimation_cells (rcons cs c)
  = decimation_cells cs
    ++ (if c is CallDownSample _ _ q then [:: q] else [::]).
Proof. by rewrite /decimation_cells map_rcons flatten_rcons. Qed.

(** A frame that goes through lines 272-302 joins the cloud, and is
    down-sampled when its counter is a multiple of 10; a frame that raises
    there has not touched the cloud. *)
Lemma update_background_post mesh used_indices s :
  mask_video s ->
  post (update_background dmt mesh used_indices) s
    (fun _ s' => accumulation_side s' = one_more_frame (accumulation_side s))
    (fun s' => accumulation_side s' = accumulation_side s).
Proof.
rewrite /post /update_background /bindM /get /=.
case Hm: (mask_video s) => [[|mask_frame rest]|] //= _.
rewrite /lift; case: (py_take (points mesh) _) => [new_points|e] /=;
  last by rewrite /accumulation_side /= Hm.
case: (py_take (colors mesh) _) => [new_colors|e] /=;
  last by rewrite /accumulation_side /= Hm.
case: (bg s) => [b|] /=; last by rewrite /accumulation_side /= Hm.
case: ifP => Hn /=; rewrite /accumulation_side /=.
  rewrite !accumulated_rcons !decimated_rcons !decimation_cells_rcons /=.
  by rewrite !cats0 cats1.
rewrite !accumulated_rcons !decimated_rcons !decimation_cells_rcons /=.
by rewrite !cats0 cats1.
Qed.


(** The renders and the writes leave the traces of the accumulation. *)
Lemma log_render_keeps n scenes mode :
  keeps accumulation_side (log (@CallRender F n scenes mode)).
Proof.
apply: keeps_modify => s; rewrite /accumulation_side /=.
by rewrite accumulated_rcons decimated_rcons decimation_cells_rcons !cats0.
Qed.

Lemma get_scene_keeps X (proj : state F -> X) r :
  keeps proj (@get_scene F r).
Proof.
apply: keeps_bind; first exact: keeps_get.
by move=> s; case: r; [case: (last_mesh s) | case: (bg s)].
Qed.

Lemma translate_scene_keeps r offset :
  keeps accumulation_side (@translate_scene F r offset).
Proof. by apply: keeps_modify => s; case: r. Qed.

Lemma render_call_keeps (cfg : config dmt) r mode bg_color :
  keeps accumulation_side (render_call cfg r mode bg_color).
Proof.
apply: keeps_bind; first exact: get_scene_keeps.
move=> scene; apply: keeps_bind; first exact: keeps_get.
move=> s; apply: keeps_bind; first exact: log_render_keeps.
by move=> _; apply: keeps_ret.
Qed.

Lemma write_infill_mask_keeps_acc out_mask_image :
  keeps accumulation_side (write_infill_mask dmt out_mask_image).
Proof.
apply: keeps_bind; first exact: keeps_lift.
by move=> frame; apply: keeps_modify.
Qed.

Lemma read_color_frame_keeps_acc rgb :
  keeps accumulation_side (@read_color_frame F rgb).
Proof.
apply: keeps_bind; first exact: keeps_get.
move=> s; case: (color_video s) => [[|frame rest]|]; try by [].
apply: keeps_bind; first exact: keeps_modify.
by move=> _; apply: keeps_if.
Qed.

Lemma finish_keeps_acc a out_image :
  keeps accumulation_side (@finish F a out_image).
Proof.
apply: keeps_bind; first exact: keeps_modify.
by move=> _; apply: keeps_bind => // ?; apply: keeps_ret.
Qed.

Lemma render_touchly1_keeps_acc a inp (cfg : config dmt) r infill bg_color :
  keeps accumulation_side (render_touchly1 a inp cfg r infill bg_color).
Proof.
apply: keeps_bind; first exact: render_call_keeps.
move=> buffers; apply: keeps_bind; first exact: keeps_lift.
move=> gain; apply: keeps_bind; first exact: keeps_lift.
move=> out_image; apply: keeps_bind; last by move=> _; apply: keeps_ret.
apply: keeps_if; last exact: keeps_ret.
apply: keeps_bind; first exact: keeps_lift.
move=> img_mask; apply: keeps_bind; first exact: keeps_lift.
by move=> m; apply: write_infill_mask_keeps_acc.
Qed.

Lemma render_stereo_keeps_acc a inp (cfg : config dmt) r infill bg_color :
  keeps accumulation_side (render_stereo a inp cfg r infill bg_color).
Proof.
rewrite /render_stereo.
apply: keeps_bind; first exact: translate_scene_keeps.
move=> _; apply: keeps_bind; first exact: render_call_keeps.
move=> left; apply: keeps_bind; first by apply: keeps_if.
move=> mask1; apply: keeps_bind.
  apply: keeps_if; last exact: keeps_ret.
  apply: keeps_bind; first exact: render_call_keeps.
  move=> buffers; apply: keeps_bind; first exact: keeps_lift.
  by move=> gain; apply: keeps_ret.
move=> depth; apply: keeps_bind; first exact: translate_scene_keeps.
move=> _; apply: keeps_bind; first exact: translate_scene_keeps.
move=> _; apply: keeps_bind; first exact: render_call_keeps.
move=> right; apply: keeps_bind; first by apply: keeps_if.
move=> mask2; apply: keeps_bind; first exact: keeps_lift.
move=> out_image; apply: keeps_bind; last by move=> _; apply: keeps_ret.
apply: keeps_if; last exact: keeps_ret.
apply: keeps_bind; first exact: keeps_lift.
by move=> m; apply: write_infill_mask_keeps_acc.
Qed.


Section Accumulating.

Variables (a : args) (inp : inputs F) (cfg : config dmt).

(** The frames do not all go the fast path of line 246. *)
Hypothesis general_path : ~~ (~~ transformations cfg && touchly1 a).

(** With a mask video open, a frame that completes has joined the cloud,
    once; a frame that raises has joined it or not. *)
Lemma step_post raw_frame s :
  mask_video s ->
  post (step a inp cfg raw_frame) s
    (fun _ s' => accumulation_side s' = one_more_frame (accumulation_side s))
    (fun s' => accumulation_side s' = accumulation_side s
               \/ accumulation_side s' = one_more_frame (accumulation_side s)).
Proof.
move=> Hmask; rewrite /step (negbTE general_path).
have Hside s1 : accumulation_side s1 = accumulation_side s -> mask_video s1.
  by rewrite /accumulation_side => -[_ _ _ _ ->].
apply: post_bind.
apply: (post_keeps (read_color_frame_keeps_acc _)) => [color_frame s1 E1|s1 E1];
  last by left.
apply: post_bind; apply: post_lift => [depth|]; last by left.
apply: post_bind; apply: post_get.
apply: post_bind.
apply: (@post_keeps _ _ accumulation_side) => [||s2 ->]; last by left.
  by case: (transformations cfg) => [ts|]; [apply: keeps_lift|apply: keeps_ret].
move=> transform_to_zero s2 E2.
case: (get_mesh_from_depth_map _ _ _ _ _ _) => mesh used_indices.
apply: post_bind; apply: post_modify.
set s3 := set_last_mesh _ s2.
have E3 : accumulation_side s3 = accumulation_side s by rewrite -E1 -E2.
apply: post_bind.
have := update_background_post
          (if transformations cfg is Some _
           then transform dmt transform_to_zero mesh else mesh)
          used_indices (Hside _ E3).
rewrite /post; case: (update_background _ _ _ _) => [[[]|e] s4];
  rewrite E3 => E4; last by left.
apply: post_bind; apply: post_get.
case: (save_background a); first exact: post_ret.
apply: post_bind.
apply: (@post_keeps _ _ accumulation_side) => [||s5 ->]; last by right.
  case: (touchly1 a); first exact: render_touchly1_keeps_acc.
  exact: render_stereo_keeps_acc.
move=> out_image s5 E5.
apply: (post_keeps (finish_keeps_acc _ _)) => [ctl s6 ->|s6 ->]; last right;
  by rewrite E5.
Qed.


Lemma iota1_rcons k : iota 1 k.+1 = rcons (iota 1 k) k.+1.
Proof.
have -> : k.+1 = k + 1 by rewrite addn1.
by rewrite iotaD /= cats1 add1n addn1.
Qed.

Lemma cadence_one_more k s s' :
  cadence_upto k s -> frame_n s = k.+1 ->
  accumulation_side s' = one_more_frame (accumulation_side s) ->
  [/\ cadence_upto k.+1 s', frame_n s' = k.+1
     & isSome (mask_video s') = isSome (mask_video s)].
Proof.
move=> [Ha Hd Hc] Hn; rewrite /accumulation_side /one_more_frame Hn Ha Hd Hc.
move=> [Ha' Hd' Hc' Hn' Hm']; split=> //; split.
- by rewrite Ha' iota1_rcons.
- by rewrite Hd' iota1_rcons filter_rcons; case: ifP; rewrite ?cats1 ?cats0.
- rewrite Hc' Hd' Hd size_cat.
  by case: ifP => _; rewrite /= ?addn0 ?cats0 ?nseqD.
Qed.

Lemma cadence_same k s s' :
  cadence_upto k s -> accumulation_side s' = accumulation_side s ->
  cadence_upto k s'.
Proof.
by move=> [Ha Hd Hc]; rewrite /accumulation_side => -[Ha' Hd' Hc' _ _];
  split; rewrite ?Ha' ?Hd' ?Hc'.
Qed.

(** The loop from a state that has joined k frames. *)
Lemma run_loop_cadence frames s k :
  mask_video s -> frame_n s = k -> cadence_upto k s ->
  let res := run_loop a inp cfg frames s in
  exists m, cadence_upto m res.2
            /\ (res.1 = None -> m = minn (frame_n res.2) (k + size frames)).
Proof.
elim: frames s k => [|raw_frame rest IH] s k Hmask Hn Hk /=.
  exists k; split; first by case: Hk.
  by rewrite Hn addn0 => _; rewrite (minn_idPr (leqnSn k)).
set s1 := set_frame_n _ s.
have Hmask1 : mask_video s1 by [].
have Hn1 : frame_n s1 = k.+1 by rewrite /= Hn.
have Hk1 : cadence_upto k s1 by case: Hk.
have := step_post raw_frame Hmask1; rewrite /post.
case: (step _ _ _ _ _) => [[[|]|e] s2].
- move=> /(cadence_one_more Hk1 Hn1) [Hk2 Hn2 Hm2].
  have Hmask2 : mask_video s2 by rewrite Hm2.
  have [m [Hm He]] := IH s2 k.+1 Hmask2 Hn2 Hk2.
  by exists m; split=> // /He ->; rewrite addSnnS.
- move=> /(cadence_one_more Hk1 Hn1) [Hk2 Hn2 _].
  exists k.+1; split=> //= _; rewrite Hn2.
  by apply/esym/minn_idPl; rewrite addnS ltnS leq_addr.
- case=> [/(cadence_same Hk1) Hk2|/(cadence_one_more Hk1 Hn1) [Hk2 _ _]].
    by exists k.
  by exists k.+1.
Qed.

End Accumulating.

End CadenceFacts.

(** ** The growth of the background cloud *)

Lemma py_take_nth (T : Type) (x0 : T) (arr : seq T) (idx : seq nat) :
  all (fun i => i < size arr) idx ->
  py_take arr idx = Ok [seq nth x0 arr i | i <- idx].
Proof.
elim: idx => [|i idx IH] //= /andP [Hi Hidx].
by rewrite (ohead_drop_nth x0 Hi) (IH Hidx).
Qed.

Section GrowthFacts.

Import GRing.Theory.
Local Open Scope ring_scope.

Variable F : fieldType.
Variable dmt : collaborators F.
Implicit Types (s : state F) (b : background F) (mesh : geometry F).

(** A frame with a mask frame to read and its kept indices in range goes
    through lines 272-302: the vertices at the kept indices are appended
    to the cloud, and on a multiple of 10 the cloud is then replaced by
    its down-sampling. *)
Lemma update_background_Ok mesh used_indices s mask_frame rest b :
  mask_video s = Some (mask_frame :: rest) -> bg s = Some b ->
  let keep :=
    np_intersect1d used_indices
      (bg_mask_of (map_image (bgr2gray dmt) mask_frame)) in
  all (fun i => (i < size (points mesh))%nat) keep ->
  all (fun i => (i < size (colors mesh))%nat) keep ->
  exists s' b',
    [/\ update_background dmt mesh used_indices s = (Ok tt, s'),
        bg s' = Some b',
        mask_video s' = Some rest
      & let pts := bg_points b ++ [seq nth 0 (points mesh) i | i <- keep] in
        let cols :=
          bg_point_colors b ++ [seq nth 0 (colors mesh) i | i <- keep] in
        let cloud := pts_2_pcd dmt pts cols in
        b' = if (frame_n s %% 10 == 0)%nat then
               let cloud :=
                 perspective_aware_down_sample dmt cloud decimation_cell in
               Background (points cloud) (colors cloud) cloud
             else Background pts cols cloud].
Proof.
move=> Hm Hb keep Hp Hc.
rewrite /update_background /bindM /get /= Hm /= /lift.
rewrite -/keep (py_take_nth 0 Hp) (py_take_nth 0 Hc) /= Hb /=.
by case: ifP => _ /=; do 2!eexists; split.
Qed.


(** C6: on a frame that joins the cloud and is not a multiple of 10, the
    points and the colors of the cloud grow by the vertices at the indices
    that are both used and masked as background (luminance below 128):
    each such index once, whatever the order and the repetitions of the
    two index arrays, so by K points, K being the number of distinct
    indices in both. *)
Theorem background_grows_by_intersection mesh (used_indices : seq nat) s
    mask_frame rest b :
  mask_video s = Some (mask_frame :: rest) -> bg s = Some b ->
  (frame_n s %% 10 != 0)%nat ->
  let bg_mask := bg_mask_of (map_image (bgr2gray dmt) mask_frame) in
  (forall i, i \in used_indices -> i \in bg_mask ->
     (i < size (points mesh))%nat /\ (i < size (colors mesh))%nat) ->
  let K := size (undup (filter (mem bg_mask) used_indices)) in
  let points_2_keep := np_intersect1d used_indices bg_mask in
  exists s' b',
    [/\ update_background dmt mesh used_indices s = (Ok tt, s')
        /\ bg s' = Some b',
        bg_points b'
        = bg_points b ++ [seq nth 0 (points mesh) i | i <- points_2_keep]
        /\ size (bg_points b') = (size (bg_points b) + K)%nat,
        bg_point_colors b'
        = bg_point_colors b ++ [seq nth 0 (colors mesh) i | i <- points_2_keep]
        /\ size (bg_point_colors b') = (size (bg_point_colors b) + K)%nat,
        uniq points_2_keep
        /\ (forall i, (i \in points_2_keep)
                      = (i \in used_indices) && (i \in bg_mask))
      & forall used_indices' bg_mask',
          perm_eq used_indices used_indices' -> perm_eq bg_mask bg_mask' ->
          np_intersect1d used_indices' bg_mask' = points_2_keep].
Proof.
move=> Hm Hb Hn bg_mask Hrange K keep.
have Hin i : i \in keep -> (i < size (points mesh))%nat
                           /\ (i < size (colors mesh))%nat.
  by rewrite mem_np_intersect1d => /andP [Hu Hk]; apply: Hrange.
have Hp : all (fun i => (i < size (points mesh))%nat) keep.
  by apply/allP => i /Hin [].
have Hc : all (fun i => (i < size (colors mesh))%nat) keep.
  by apply/allP => i /Hin [].
have [s' [b' [Hs' Hb' _]]] :=
  @update_background_Ok mesh used_indices _ _ _ _ Hm Hb Hp Hc.
rewrite (negbTE Hn) /= -/bg_mask -/keep => Eb'.
have HK : size keep = K by rewrite /keep np_intersect1d_filter size_sort.
exists s', b'; split=> //.
- by rewrite Eb' /= size_cat size_map HK.
- by rewrite Eb' /= size_cat size_map HK.
- by split; [apply: np_intersect1d_uniq | apply: mem_np_intersect1d].
- by move=> u' m' /perm_mem Hu /perm_mem Hk; apply/esym/np_intersect1d_eq_mem.
Qed.


(** What a frame that went through lines 272-302 did to the cloud. *)
Lemma update_background_inv mesh used_indices s s' :
  mask_video s ->
  update_background dmt mesh used_indices s = (Ok tt, s') ->
  exists b b' new_points new_colors,
    [/\ bg s = Some b, bg s' = Some b'
      & let pts := bg_points b ++ new_points in
        let cols := bg_point_colors b ++ new_colors in
        let cloud := pts_2_pcd dmt pts cols in
        b' = if (frame_n s %% 10 == 0)%nat then
               let cloud :=
                 perspective_aware_down_sample dmt cloud decimation_cell in
               Background (points cloud) (colors cloud) cloud
             else Background pts cols cloud].
Proof.
rewrite /update_background /bindM /get /=.
case: (mask_video s) => [[|mask_frame rest]|] //= _.
rewrite /lift; case: (py_take (points mesh) _) => [new_points|e] //=.
case: (py_take (colors mesh) _) => [new_colors|e] //=.
case Hb: (bg s) => [b|] //=.
by case: ifP => _ /= [<-]; exists b; do 3!eexists; split.
Qed.

(** What a frame that went through lines 272-302 took from its mesh and
    made of the cloud. *)
Lemma update_background_cloud mesh used_indices s s' :
  mask_video s ->
  update_background dmt mesh used_indices s = (Ok tt, s') ->
  exists mask_frame rest b new_points new_colors,
    let points_2_keep :=
      np_intersect1d used_indices
        (bg_mask_of (map_image (bgr2gray dmt) mask_frame)) in
    let pts := bg_points b ++ new_points in
    let cols := bg_point_colors b ++ new_colors in
    let cloud := pts_2_pcd dmt pts cols in
    let small := perspective_aware_down_sample dmt cloud (3 # 1000)%Q in
    [/\ mask_video s = Some (mask_frame :: rest) /\ bg s = Some b,
        py_take (points mesh) points_2_keep = Ok new_points,
        py_take (colors mesh) points_2_keep = Ok new_colors
      & bg s' = Some (if (frame_n s %% 10 == 0)%nat
                      then Background (points small) (colors small) small
                      else Background pts cols cloud)].
Proof.
rewrite /update_background /bindM /get /=.
case: (mask_video s) => [[|mask_frame rest]|] //= _.
rewrite /lift; case Hp: (py_take (points mesh) _) => [new_points|e] //=.
case Hc: (py_take (colors mesh) _) => [new_colors|e] //=.
case Hb: (bg s) => [b|] //=.
by case: ifP => _ /= [<-]; exists mask_frame, rest, b, new_points, new_colors.
Qed.

(** C5: in a run that does not go the fast path, started with a mask
    video, the cloud is extended on the frames 1, 2, ..., m, and it is
    down-sampled, with cell size 0.003, on exactly those of them whose
    counter is a multiple of 10; m is the number of frames the loop went
    through when no exception stopped it.  On a frame whose counter is a
    multiple of 10 the cloud, its points and its colors become those of
    the down-sampling of the extended cloud; on any other frame the
    points and colors of the mesh that the mask selects are appended and
    nothing else is done. *)
Theorem decimation_cadence a inp (cfg : config dmt) :
  ~~ (~~ transformations cfg && touchly1 a) ->
  (forall frames s0,
     mask_video s0 -> frame_n s0 = 0%nat -> calls s0 = [::] ->
     let res := run_loop a inp cfg frames s0 in
     exists m,
       [/\ accumulated (calls res.2) = iota 1 m,
           decimated (calls res.2)
           = filter (fun n => n %% 10 == 0)%nat (iota 1 m),
           decimation_cells (calls res.2)
           = nseq (size (decimated (calls res.2))) (3 # 1000)%Q
         & res.1 = None -> m = minn (frame_n res.2) (size frames)])
  /\ (forall mesh used_indices s s',
        mask_video s ->
        update_background dmt mesh used_indices s = (Ok tt, s') ->
        exists mask_frame rest b new_points new_colors,
          let points_2_keep :=
            np_intersect1d used_indices
              (bg_mask_of (map_image (bgr2gray dmt) mask_frame)) in
          let pts := bg_points b ++ new_points in
          let cols := bg_point_colors b ++ new_colors in
          let cloud := pts_2_pcd dmt pts cols in
          let small := perspective_aware_down_sample dmt cloud (3 # 1000)%Q in
          [/\ mask_video s = Some (mask_frame :: rest) /\ bg s = Some b,
              py_take (points mesh) points_2_keep = Ok new_points
              /\ py_take (colors mesh) points_2_keep = Ok new_colors
            & if (frame_n s %% 10 == 0)%nat then
                [/\ decimated (calls s') = rcons (decimated (calls s)) (frame_n s),
                    decimation_cells (calls s')
                    = rcons (decimation_cells (calls s)) (3 # 1000)%Q
                  & bg s' = Some (Background (points small) (colors small)
                                    small)]
              else
                [/\ decimated (calls s') = decimated (calls s),
                    decimation_cells (calls s') = decimation_cells (calls s)
                  & bg s' = Some (Background pts cols cloud)]]).
Proof.
move=> Hgen; split=> [frames s0 Hmask Hn Hc|mesh used_indices s s' Hmask Hup].
  have Hk : cadence_upto 0 s0 by rewrite /cadence_upto Hc.
  have [m [[Ha Hd Hcells] Hm]] :=
    run_loop_cadence inp Hgen frames Hmask Hn Hk.
  by exists m; split.
have := update_background_post dmt mesh used_indices Hmask.
rewrite /post Hup /accumulation_side /one_more_frame => -[_ Hd Hcells _ _].
have [mask_frame [rest [b [new_points [new_colors]]]]] :=
  update_background_cloud Hmask Hup.
move=> [Hmb Hp Hc Hbg].
exists mask_frame, rest, b, new_points, new_colors; split=> //.
by move: Hd Hcells Hbg; case: ifP => _ /=; rewrite ?cats1 ?cats0.
Qed.

End GrowthFacts.

(** ** The accumulation on the sample run *)

Section AccumulationExamples.

Local Open Scope ring_scope.

Lemma decimation_cadence_witness :
  let res := run_loop sample_args_save sample_inputs sample_config
               (nseq 10 sample_frame) sample_state0 in
  let thin :=
    update_background sample_tools_thin sample_mesh [:: 1; 0; 1]%nat
      sample_state10 in
  [/\ res.1 = None, accumulated (calls res.2) = iota 1 10
    & decimated (calls res.2) = [:: 10%nat]]
  /\ (exists m,
        [/\ accumulated (calls res.2) = iota 1 m,
            decimated (calls res.2)
            = filter (fun n => n %% 10 == 0)%nat (iota 1 m),
            decimation_cells (calls res.2)
            = nseq (size (decimated (calls res.2))) (3 # 1000)%Q
          & res.1 = None -> m = minn (frame_n res.2) 10])
  /\ (thin.1 = Ok tt
      /\ omap (@bg_points rat) (bg thin.2) = Some [:: (1, 1, 1)]
      /\ decimated (calls thin.2) = [:: 10%nat]).
Proof.
move=> res thin; split; first by split; vm_compute.
have [Hrun _] :=
  @decimation_cadence rat sample_tools sample_args_save sample_inputs
    sample_config (erefl _).
split.
  exact: (Hrun (nseq 10 sample_frame) sample_state0 (erefl _) (erefl _)
               (erefl _)).
have Ethin : thin = (Ok tt, thin.2) by rewrite [LHS]surjective_pairing.
have [_ Hstep] :=
  @decimation_cadence rat sample_tools_thin sample_args_save sample_inputs
    (@Config rat sample_tools_thin None tt tt 2 1 false 0 (4, 1)%nat)
    (erefl _).
have [mask_frame [rest [b [new_points [new_colors]]]]] :=
  Hstep sample_mesh [:: 1; 0; 1]%nat sample_state10 thin.2 (erefl _) Ethin.
move=> [[[<- _] [<-]] [[<-] [<-]] [Hd _ ->]].
by split=> //; split.
Defined.

Lemma background_grows_by_intersection_witness :
  let bg_mask := bg_mask_of (map_image (bgr2gray sample_tools) sample_frame) in
  let used_indices := [:: 1; 0; 1]%nat in
  bg_mask = [:: 0%nat]
  /\ exists s' b',
       update_background sample_tools sample_mesh used_indices sample_state1
       = (Ok tt, s')
       /\ bg s' = Some b'
       /\ bg_points b' = [:: (0, 0, 0)]
       /\ size (bg_points b') = (0 + 1)%nat.
Proof.
move=> bg_mask used_indices; split; first by [].
have Hrange i : i \in used_indices -> i \in bg_mask ->
    (i < size (points sample_mesh))%nat /\ (i < size (colors sample_mesh))%nat.
  by move=> _; rewrite inE => /eqP ->.
have [s' [b' [[Hs' Hb'] [Hp Hsz] _ _ _]]] :=
  @background_grows_by_intersection rat sample_tools sample_mesh used_indices
    sample_state1 sample_frame (nseq 9 sample_frame)
    (Background [::] [::] (Geometry [::] [::] [::]))
    (erefl _) (erefl _) (erefl _) Hrange.
by exists s', b'; split=> //; split=> //; split.
Defined.

End AccumulationExamples.

(** ** EquirectProjector *)

Module EquirectFacts.

Import Num8 Equirect.

Section Dims.

Variable pixel : Type.
Implicit Types (img : image pixel) (W H : nat).

(** An image of H > 0 rows of W pixels reads as W wide and H high. *)
Lemma has_dims_width W H img : 0 < H -> has_dims W H img -> width img = W.
Proof.
rewrite /has_dims /width; case: img => [|row img] /=.
  by move=> HH /andP [/eqP E]; rewrite -E in HH.
by move=> _ /andP [_ /andP [/eqP]].
Qed.

Lemma has_dims_height W H img : has_dims W H img -> height img = H.
Proof. by case/andP => /eqP. Qed.

End Dims.

Lemma src_pixel_left img y : src_pixel img (-1) y = black.
Proof. by []. Qed.

Lemma src_pixel_above img x : src_pixel img x (-1) = black.
Proof.
by rewrite /src_pixel; case: (0 <=? x)%Z => //=; case: (x <? _)%Z.
Qed.

(** With all the weight on a neighbour that is black the interpolated
    channel is 0, whatever the neighbour with no weight. *)
Lemma lerp2_corner c : lerp2 0 0 0 0 0 c = 0%Z.
Proof. by []. Qed.

(** The dummy coordinate (-1, -1) samples the border value. *)
Lemma sample_linear_dummy img : sample_linear img (-1 # 1) (-1 # 1) = black.
Proof.
rewrite /sample_linear.
have -> : Qfloor (-1 # 1) = (-1)%Z by [].
have -> : ((-1 # 1) - inject_Z (-1) = 0)%Q by [].
rewrite !src_pixel_left !src_pixel_above.
have -> : (-1 + 1 = 0)%Z by [].
by rewrite /= !lerp2_corner.
Qed.

Lemma fabs_leP (a : float) (bound : Q) :
  fabs_le a bound <-> exists2 q, a = Some q & (Qabs q <= bound)%Q.
Proof.
rewrite /fabs_le; case: a => [q|]; last by split=> // -[].
split=> [/Qle_bool_iff Hq|[q' [<-] /Qle_bool_iff //]].
by exists q.
Qed.


Section Projector.

Variable np_tan : Q -> Q.

Lemma linspace_nth n i : i < n -> nth 0%Q (linspace n) i = inject_Z (Z.of_nat i).
Proof.
by move=> Hi; rewrite /linspace (nth_map 0%nat) ?size_iota // nth_iota.
Qed.

Lemma size_linspace n : size (linspace n) = n.
Proof. by rewrite /linspace size_map size_iota. Qed.

Lemma center_neq0 n : 1 < n -> Qeq_bool (center n) 0 = false.
Proof.
move=> /ltP Hn; apply/negbTE/negP => /Qeq_bool_iff.
rewrite /center /Qeq /Qdiv /Qmult /Qminus /Qplus /Qinv /inject_Z.
by cbn [Qnum Qden Qopp]; lia.
Qed.

End Projector.

End EquirectFacts.

(** ** EquirectProjector in binary64 *)

Module Equirect64Facts.

Import Num8 PrimFloat.
Import Equirect64.

(** The dummy coordinate -1 is a float32 as it is, and samples the
    border value. *)
Lemma remap_pixel_dummy img : remap_pixel img ((-1)%float, (-1)%float) = black.
Proof.
rewrite /remap_pixel /Equirect.remap_pixel.
have -> : SF2Q (astype_float32 (-1)%float) = Some (-8388608 # 8388608)%Q.
  by vm_compute.
rewrite /Equirect.sample_linear.
have -> : Qfloor (-8388608 # 8388608) = (-1)%Z by [].
rewrite !EquirectFacts.src_pixel_left !EquirectFacts.src_pixel_above.
by vm_compute.
Qed.

Section Projector.

Variable np_tan : float -> float.

Lemma linspace64_nth n i :
  i < n -> nth 0%float (linspace n) i = of_Z (Z.of_nat i).
Proof.
by move=> Hi; rewrite /linspace (nth_map 0%nat) ?size_iota // nth_iota.
Qed.

Lemma size_linspace64 n : size (linspace n) = n.
Proof. by rewrite /linspace size_map size_iota. Qed.

(** The image the projector returns, pixel by pixel. *)
Lemma convert_pixels64 (img : image rgb_pixel) (input_fov : float) (W H : nat) :
  0 < W -> 0 < H -> has_dims W H img ->
  exists out,
    [/\ convert_to_equirectangular np_tan img input_fov = Ok out,
        has_dims W H out
      & forall x y, x < W -> y < H ->
        pixel_at black out x y
        = remap_pixel img
            (map_xy np_tan W H input_fov (of_Z (Z.of_nat x))
               (of_Z (Z.of_nat y)))].
Proof.
move=> HW HH Hdims.
have EW := EquirectFacts.has_dims_width HH Hdims.
have EH := EquirectFacts.has_dims_height Hdims.
rewrite /convert_to_equirectangular EW EH.
rewrite (negbTE (lt0n_neq0 HH)) (negbTE (lt0n_neq0 HW)) /=.
eexists; split; first by [].
  rewrite /has_dims size_map size_linspace64 eqxx /= all_map.
  rewrite (@eq_all _ _ xpredT) ?all_predT // => y /=.
  by rewrite size_map size_linspace64 eqxx.
move=> x y Hx Hy.
rewrite /pixel_at (nth_map 0%float) ?size_linspace64 // linspace64_nth //.
by rewrite (nth_map 0%float) ?size_linspace64 // linspace64_nth.
Qed.

(** C8, as the code has it: on an image of H > 0 rows of W > 0 pixels
    the projector returns an image of H rows of W pixels.  Its pixel at
    (x, y) is valid exactly when the binary64 numbers the code computes,
    theta = (x - cx) / cx * (pi / 2), phi alike and
    half = input_fov / 2 * (pi / 180), every operation rounded, satisfy
    |theta| <= half and |phi| <= half; a valid pixel is sampled at its
    pinhole coordinates, and a pixel that is not valid is black. *)
Theorem convert_to_equirectangular_mask
    (img : image rgb_pixel) (input_fov : float) (W H : nat) :
  0 < W -> 0 < H -> has_dims W H img ->
  exists out,
    [/\ convert_to_equirectangular np_tan img input_fov = Ok out,
        has_dims W H out
      & forall x y, x < W -> y < H ->
        let fx := of_Z (Z.of_nat x) in
        let fy := of_Z (Z.of_nat y) in
        let cx := (of_Z (Z.of_nat W - 1) / 2)%float in
        let cy := (of_Z (Z.of_nat H - 1) / 2)%float in
        let theta := ((fx - cx) / cx * (np_pi / 2))%float in
        let phi := ((fy - cy) / cy * (np_pi / 2))%float in
        let half := (input_fov / 2 * (np_pi / 180))%float in
        let valid := (abs theta <=? half)%float && (abs phi <=? half)%float in
        [/\ valid_mask W H input_fov fx fy = valid,
            valid ->
            pixel_at black out x y
            = remap_pixel img (pinhole np_tan W input_fov fx,
                               pinhole np_tan H input_fov fy)
          & ~~ valid -> pixel_at black out x y = black]].
Proof.
move=> HW HH Hdims.
have [out [Hout Hd Hpix]] := convert_pixels64 input_fov HW HH Hdims.
exists out; split=> // x y Hx Hy /=.
rewrite (Hpix x y Hx Hy) /map_xy.
split=> //; first by rewrite -/(valid_mask _ _ _ _ _) => ->.
rewrite -/(valid_mask _ _ _ _ _) => /negbTE ->.
exact: remap_pixel_dummy.
Qed.

End Projector.

(** On a white image of 3 x 3 pixels seen with a field of view of 90
    degrees, the center is valid and the corner is black. *)
Lemma convert_to_equirectangular_mask_witness :
  [/\ valid_mask 3 3 90 1 1, ~~ valid_mask 3 3 90 0 0
     & exists out,
         [/\ convert_to_equirectangular (fun t => t) sample_white 90 = Ok out,
             has_dims 3 3 out
           & pixel_at black out 0 0 = black]].
Proof.
split; try by vm_compute.
have [out [Hout Hdims Hpix]] :=
  @convert_to_equirectangular_mask (fun t => t) sample_white 90 3 3
    (erefl _) (erefl _) (erefl _).
exists out; split=> //.
have [_ _ Hblack] := Hpix 0%nat 0%nat (erefl _) (erefl _).
by apply: Hblack; vm_compute.
Defined.

(** The claim as the spec words it fails where an angle is half the
    field of view: in an image 16 wide seen with 156 degrees, column 1
    lies at 78 degrees exactly, and the exact comparison holds; in
    binary64 theta is -1.3613568165555772 and half 1.3613568165555769:
    the pixel is not valid, and black on a white image. *)
Lemma tie_pixel_is_black :
  let img := nseq 16 (nseq 16 (RGB 255 255 255)) in
  [/\ (Qabs ((1 - 15 / 2) / (15 / 2) * 90) <= 156 / 2)%Q
      /\ (Qabs ((7 - 15 / 2) / (15 / 2) * 90) <= 156 / 2)%Q,
      Equirect.valid_mask 16 16 156 1 7,
      valid_mask 16 16 156 1 7 = false
    & exists out,
        convert_to_equirectangular (fun t => t) img 156 = Ok out
        /\ pixel_at black out 1 7 = black].
Proof.
move=> img; split; try by vm_compute.
have [out [Hout _ Hpix]] :=
  @convert_pixels64 (fun t => t) img 156 16 16 (erefl _) (erefl _) (erefl _).
exists out; split=> //.
rewrite (Hpix 1%nat 7%nat (erefl _) (erefl _)) /map_xy.
have -> : valid_mask 16 16 156 (of_Z (Z.of_nat 1)) (of_Z (Z.of_nat 7)) = false.
  by vm_compute.
exact: remap_pixel_dummy.
Qed.

End Equirect64Facts.


(** ** FrameAssembler *)

Section Layout.

Variable pixel : Type.
Implicit Types (a b c img : image pixel) (W H : nat).

Lemma has_dims_size W H img : has_dims W H img -> size img = H.
Proof. by case/andP => /eqP. Qed.

(** One image above another of the same width. *)
Lemma has_dims_cat W Ha Hb a b :
  has_dims W Ha a -> has_dims W Hb b -> has_dims W (Ha + Hb) (a ++ b).
Proof.
move=> /andP [/eqP Ea Hra] /andP [/eqP Eb Hrb].
by rewrite /has_dims size_cat Ea Eb eqxx all_cat Hra Hrb.
Qed.

Lemma vconcat2 W H a b :
  0 < H -> has_dims W H a -> has_dims W H b -> vconcat [:: a; b] = Ok (a ++ b).
Proof.
move=> HH Ha Hb; rewrite /vconcat /= cats0.
by rewrite (EquirectFacts.has_dims_width HH Ha)
           (EquirectFacts.has_dims_width HH Hb) eqxx.
Qed.

(** The rows of two images of the same height side by side. *)
Lemma beside_nth a b y :
  size a = size b ->
  nth [::] (beside a b) y = nth [::] a y ++ nth [::] b y.
Proof.
elim: a b y => [|ra a IH] [|rb b] [|y] //= [Hs].
exact: IH.
Qed.

Lemma beside_dims Wa Wb H a b :
  has_dims Wa H a -> has_dims Wb H b -> has_dims (Wa + Wb) H (beside a b).
Proof.
elim: a b H => [|ra a IH] [|rb b] [|H] //.
rewrite /has_dims /= !eqSS => /andP [Ea /andP [/eqP Era Hra]].
move=> /andP [Eb /andP [/eqP Erb Hrb]].
have /andP [-> ->] : has_dims (Wa + Wb) H (beside a b).
  by apply: IH; rewrite /has_dims ?Ea ?Eb.
by rewrite size_cat Era Erb eqxx.
Qed.

Lemma hconcat2 Wa Wb H a b :
  has_dims Wa H a -> has_dims Wb H b -> hconcat [:: a; b] = Ok (beside a b).
Proof.
move=> /has_dims_size Ea /has_dims_size Eb.
by rewrite /hconcat /height /= Ea Eb !eqxx.
Qed.

Lemma hconcat3 Wa Wb Wc H a b c :
  has_dims Wa H a -> has_dims Wb H b -> has_dims Wc H c ->
  hconcat [:: a; b; c] = Ok (beside (beside a b) c).
Proof.
move=> /has_dims_size Ea /has_dims_size Eb /has_dims_size Ec.
by rewrite /hconcat /height /= Ea Eb Ec !eqxx.
Qed.

End Layout.

Lemma has_dims_map (A B : Type) (f : A -> B) W H (img : image A) :
  has_dims W H img -> has_dims W H (map_image f img).
Proof.
move=> /andP [Es Hr]; rewrite /has_dims /map_image size_map Es /= all_map.
by apply: sub_all Hr => row /=; rewrite size_map.
Qed.

Section StereoLayout.

Variable np_tan : Q -> Q.
Variables (vr180 : bool) (render_fov : Z) (W H : nat).
Hypotheses (W_pos : 0 < W) (H_pos : 0 < H).
Implicit Types (img left right depth : image rgb_pixel).

(** The projector keeps the shape of a frame. *)
Lemma convert_dims img input_fov :
  has_dims W H img ->
  exists2 out,
    Equirect.convert_to_equirectangular np_tan img input_fov = Ok out
    & has_dims W H out.
Proof.
move=> Hdims; rewrite /Equirect.convert_to_equirectangular.
rewrite (EquirectFacts.has_dims_width H_pos Hdims).
rewrite (EquirectFacts.has_dims_height Hdims).
rewrite (negbTE (lt0n_neq0 H_pos)) (negbTE (lt0n_neq0 W_pos)) /=.
eexists; first by [].
rewrite /has_dims size_map EquirectFacts.size_linspace eqxx /= all_map.
rewrite (@eq_all _ _ xpredT) ?all_predT // => y /=.
by rewrite size_map EquirectFacts.size_linspace eqxx.
Qed.

Local Notation projected := (projected np_tan vr180 render_fov).

Lemma projected_dims img :
  has_dims W H img -> exists2 img', projected img img' & has_dims W H img'.
Proof.
rewrite /projected; case: vr180 => Hdims; last by exists img.
exact: convert_dims.
Qed.

(** Two buffers: [left, right], 2W x H. *)
Lemma assemble_stereo2 left right :
  has_dims W H left -> has_dims W H right ->
  exists l r out,
    [/\ assemble_stereo np_tan vr180 render_fov left right None = Ok out,
        projected left l /\ projected right r,
        has_dims (W * 2) H out
      & forall y, nth [::] out y = nth [::] l y ++ nth [::] r y].
Proof.
move=> /projected_dims [l Hl Hdl] /projected_dims [r Hr Hdr].
exists l, r, (beside l r); split=> //.
- rewrite /assemble_stereo /stereo_imgs; cbn [cat].
  move: Hl Hr; rewrite /projected; case: vr180 => [|<- <-];
    last by cbn [bind]; exact: hconcat2 Hdl Hdr.
  by cbn [map_result] => -> ->; cbn [bind]; exact: hconcat2 Hdl Hdr.
- by rewrite muln2 -addnn; apply: beside_dims.
- move=> y; apply: beside_nth.
  by rewrite (has_dims_size Hdl) (has_dims_size Hdr).
Qed.

(** Three buffers: [left, right, left depth], 3W x H. *)
Lemma assemble_stereo3 left right depth :
  has_dims W H left -> has_dims W H right -> has_dims W H depth ->
  exists l r d out,
    [/\ assemble_stereo np_tan vr180 render_fov left right (Some depth)
        = Ok out,
        [/\ projected left l, projected right r & projected depth d],
        has_dims (W * 3) H out
      & forall y,
          nth [::] out y = nth [::] l y ++ nth [::] r y ++ nth [::] d y].
Proof.
move=> /projected_dims [l Hl Hdl] /projected_dims [r Hr Hdr].
move=> /projected_dims [d Hd Hdd].
have Hlr : has_dims (W + W) H (beside l r) by apply: beside_dims.
exists l, r, d, (beside (beside l r) d); split=> //.
- rewrite /assemble_stereo /stereo_imgs; cbn [cat].
  move: Hl Hr Hd; rewrite /projected; case: vr180 => [|<- <- <-];
    last by cbn [bind]; exact: hconcat3 Hdl Hdr Hdd.
  by cbn [map_result] => -> -> ->; cbn [bind]; exact: hconcat3 Hdl Hdr Hdd.
- have -> : W * 3 = W + W + W by rewrite !mulnS muln0 addn0 addnA.
  exact: beside_dims.
- have Es1 : size l = size r.
    by rewrite (has_dims_size Hdl) (has_dims_size Hdr).
  have Es2 : size (beside l r) = size d.
    by rewrite (has_dims_size Hlr) (has_dims_size Hdd).
  by move=> y; rewrite (beside_nth _ Es2) (beside_nth _ Es1) catA.
Qed.

End StereoLayout.

(** ** The frames of a run *)

Section OutFacts.

Variable F : fieldType.
Variable dmt : collaborators F.
Implicit Types (s : state F) (r : scene_ref).

Lemma translate_scene_keeps_out r offset :
  keeps (@out F) (@translate_scene F r offset).
Proof. by apply: keeps_modify => s; case: r. Qed.

Lemma render_call_keeps_out (cfg : config dmt) r mode bg_color :
  keeps (@out F) (render_call cfg r mode bg_color).
Proof.
apply: keeps_bind; first exact: get_scene_keeps.
move=> scene; apply: keeps_bind; first exact: keeps_get.
move=> s; apply: keeps_bind; first exact: keeps_modify.
by move=> _; apply: keeps_ret.
Qed.

Lemma write_infill_mask_keeps_out out_mask_image :
  keeps (@out F) (write_infill_mask dmt out_mask_image).
Proof.
apply: keeps_bind; first exact: keeps_lift.
by move=> frame; apply: keeps_modify.
Qed.

Lemma update_background_keeps_out mesh used_indices :
  keeps (@out F) (update_background dmt mesh used_indices).
Proof.
apply: keeps_bind; first exact: keeps_get.
move=> s; case: (mask_video s) => [[|mask_frame rest]|]; try by [].
apply: keeps_bind; first exact: keeps_modify.
move=> _; apply: keeps_bind; first exact: keeps_lift.
move=> new_points; apply: keeps_bind; first exact: keeps_lift.
move=> new_colors; case: (bg s) => [b|]; last by [].
apply: keeps_bind; first exact: keeps_modify.
move=> _; apply: keeps_if; last exact: keeps_modify.
apply: keeps_bind; first exact: keeps_modify.
by move=> _; apply: keeps_modify.
Qed.

Lemma render_touchly1_keeps_out a inp (cfg : config dmt) r infill bg_color :
  keeps (@out F) (render_touchly1 a inp cfg r infill bg_color).
Proof.
apply: keeps_bind; first exact: render_call_keeps_out.
move=> buffers; apply: keeps_bind; first exact: keeps_lift.
move=> gain; apply: keeps_bind; first exact: keeps_lift.
move=> out_image; apply: keeps_bind; last by move=> _; apply: keeps_ret.
apply: keeps_if; last exact: keeps_ret.
apply: keeps_bind; first exact: keeps_lift.
move=> img_mask; apply: keeps_bind; first exact: keeps_lift.
by move=> m; apply: write_infill_mask_keeps_out.
Qed.

Lemma render_stereo_keeps_out a inp (cfg : config dmt) r infill bg_color :
  keeps (@out F) (render_stereo a inp cfg r infill bg_color).
Proof.
rewrite /render_stereo.
apply: keeps_bind; first exact: translate_scene_keeps_out.
move=> _; apply: keeps_bind; first exact: render_call_keeps_out.
move=> left; apply: keeps_bind; first by apply: keeps_if.
move=> mask1; apply: keeps_bind.
  apply: keeps_if; last exact: keeps_ret.
  apply: keeps_bind; first exact: render_call_keeps_out.
  move=> buffers; apply: keeps_bind; first exact: keeps_lift.
  by move=> gain; apply: keeps_ret.
move=> depth; apply: keeps_bind; first exact: translate_scene_keeps_out.
move=> _; apply: keeps_bind; first exact: translate_scene_keeps_out.
move=> _; apply: keeps_bind; first exact: render_call_keeps_out.
move=> right; apply: keeps_bind; first by apply: keeps_if.
move=> mask2; apply: keeps_bind; first exact: keeps_lift.
move=> out_image; apply: keeps_bind; last by move=> _; apply: keeps_ret.
apply: keeps_if; last exact: keeps_ret.
apply: keeps_bind; first exact: keeps_lift.
by move=> m; apply: write_infill_mask_keeps_out.
Qed.

(** Lines 393-396 write the frame, converted to BGR. *)
Lemma finish_Ok a out_image s ctl s' :
  @finish F a out_image s = (Ok ctl, s') ->
  out s' = rcons (out s) (map_image rgb2bgr out_image).
Proof. by case=> _ <-. Qed.

End OutFacts.

Section StageLayout.

Variable F : fieldType.
Variable dmt : collaborators F.
Variable a : args.
Variable inp : inputs F.
Variable cfg : config dmt.
Variables W H : nat.
Hypotheses (W_pos : 0 < W) (H_pos : 0 < H).
Implicit Types (s : state F) (r : scene_ref).

Local Notation projected :=
  (projected (np_tan dmt) (use_vr180 cfg) (render_fov cfg)).
Local Notation cam := (render_cam_matrix cfg).
Local Notation max_d := (touchly_max_depth a).

(** The fast path, lines 247-250: the color frame above the depth. *)
Lemma fast_path_layout depth color out_image :
  has_dims W H depth -> has_dims W H color ->
  fast_path a depth color = Ok out_image ->
  has_dims W (H * 2) out_image
  /\ exists2 gain,
       Touchly.depth_gain max_d = Ok gain
       & out_image = color ++ map_image (Touchly.fast_depth max_d gain) depth.
Proof.
move=> Hd Hc; rewrite /fast_path.
case: (Touchly.depth_gain max_d) => [gain|e] //=.
have Hd' := has_dims_map (Touchly.fast_depth max_d gain) Hd.
rewrite /assemble_mono (vconcat2 H_pos Hc Hd') => -[<-]; split.
  by rewrite muln2 -addnn; apply: has_dims_cat.
by exists gain.
Qed.

Hypothesis render_dims :
  forall scenes mode bgc,
    has_dims W H (render dmt scenes cam mode bgc).1
    /\ has_dims W H (render dmt scenes cam mode bgc).2.

(** The rendered Touchly frame, lines 317-327: the color buffer above the
    depth buffer of the same render. *)
Lemma render_touchly1_layout r infill bgc s out_image s' :
  render_touchly1 a inp cfg r infill bgc s = (Ok out_image, s') ->
  exists g gain,
    [/\ scene_of r s = Some g, Touchly.depth_gain max_d = Ok gain,
        has_dims W (H * 2) out_image
      & let buffers := render dmt [:: g] cam ColorAndDepth (Some bgc) in
        out_image
        = map_image Touchly.color8bit buffers.1
          ++ map_image (Touchly.rendered_depth max_d gain) buffers.2].
Proof.
move=> Hrun.
have [buffers [s1 [H1 {}Hrun]]] := bindM_Ok Hrun.
have [g [Hg _ _ _]] := render_call_Ok H1.
have Eb := render_call_value Hg H1.
have [gain [s2 [H2 {}Hrun]]] := bindM_Ok Hrun.
have [Hgain _] := lift_Ok H2.
have [out [s3 [H3 {}Hrun]]] := bindM_Ok Hrun.
have [Hout _] := lift_Ok H3.
have [[] [s4 [_ [Eret _]]]] := bindM_Ok Hrun.
have [Hd1 Hd2] := render_dims [:: g] ColorAndDepth (Some bgc).
have Hc := has_dims_map Touchly.color8bit Hd1.
have Hd := has_dims_map (Touchly.rendered_depth max_d gain) Hd2.
move: Hout; rewrite Eb /assemble_mono (vconcat2 H_pos Hc Hd) => -[Eout].
exists g, gain; split=> //; last by rewrite -Eret -Eout.
by rewrite -Eret -Eout muln2 -addnn; apply: has_dims_cat.
Qed.

(** The renders of the stereo path look at a scene. *)
Lemma render_stereo_scene r infill bgc s out_image s' :
  render_stereo a inp cfg r infill bgc s = (Ok out_image, s') ->
  exists g, scene_of r s = Some g.
Proof.
case Hg: (scene_of r s) => [g|]; first by exists g.
rewrite /render_stereo => Hrun.
have [[] [s1 [H1 {}Hrun]]] := bindM_Ok Hrun.
have [s1' [E1 Hg1 _ _]] :=
  translate_scene_Ok r (- left_shift F (pupillary_distance a), 0, 0)%R s.
move: H1; rewrite E1 => -[?]; subst s1'; rewrite Hg /= in Hg1.
have [left [s2 [Hleft _]]] := bindM_Ok Hrun.
have [g2 [Hg2 _ _ _]] := render_call_Ok Hleft.
by move: Hg2; rewrite Hg1.
Qed.

(** The stereo, VR180 and 3-in-1 frames, lines 341-380: the left color,
    the right color, and with [--touchly0] the left depth, side by
    side. *)
Lemma render_stereo_layout r infill bgc s out_image s' :
  render_stereo a inp cfg r infill bgc s = (Ok out_image, s') ->
  let shift := right_shift F (pupillary_distance a) in
  exists g left right,
    let g_left := translate (shift, 0, 0)%R g in
    let g_right := translate (- shift, 0, 0)%R g in
    [/\ scene_of r s = Some g,
        projected (map_image Touchly.color8bit
                     (render dmt [:: g_left] cam ColorOnly (Some bgc)).1)
                  left,
        projected (map_image Touchly.color8bit
                     (render dmt [:: g_right] cam ColorOnly (Some bgc)).1)
                  right,
        has_dims (W * (if touchly0 a then 3 else 2)) H out_image
      & if touchly0 a then
          exists gain depth,
            [/\ Touchly.depth_gain max_d = Ok gain,
                projected (map_image (Touchly.rendered_depth max_d gain)
                             (render dmt [:: g_left] cam DepthOnly None).2)
                          depth
              & forall y,
                  nth [::] out_image y
                  = nth [::] left y ++ nth [::] right y ++ nth [::] depth y]
        else forall y,
               nth [::] out_image y = nth [::] left y ++ nth [::] right y].
Proof.
move=> Hrun shift.
have [g Hg] := render_stereo_scene Hrun; exists g.
have [_ _ [depth []]] := render_stereo_Ok Hg Hrun.
rewrite -/shift.
set g_left := translate (shift, _, _) g.
set g_right := translate (- shift, _, _)%R g.
have [Hl _] := render_dims [:: g_left] ColorOnly (Some bgc).
have [Hr _] := render_dims [:: g_right] ColorOnly (Some bgc).
have {}Hl := has_dims_map Touchly.color8bit Hl.
have {}Hr := has_dims_map Touchly.color8bit Hr.
case: (touchly0 a) => [[gain Hgain ->]| ->] Hasm.
  have [_ Hd] := render_dims [:: g_left] DepthOnly None.
  have {}Hd := has_dims_map (Touchly.rendered_depth max_d gain) Hd.
  have [l [r' [d [out [Hout [Pl Pr Pd] Hdims Hrows]]]]] :=
    assemble_stereo3 (np_tan dmt) (use_vr180 cfg) (render_fov cfg)
      W_pos H_pos Hl Hr Hd.
  move: Hout; rewrite Hasm => -[?]; subst out.
  by exists l, r'; split=> //; exists gain, d.
have [l [r' [out [Hout [Pl Pr] Hdims Hrows]]]] :=
  assemble_stereo2 (np_tan dmt) (use_vr180 cfg) (render_fov cfg)
    W_pos H_pos Hl Hr.
move: Hout; rewrite Hasm => -[?]; subst out.
by exists l, r'.
Qed.

(** Lines 229-236 keep the shape of the frames. *)
Lemma read_color_frame_Ok rgb s color_frame s1 :
  has_dims W H rgb ->
  (forall frame rest,
     color_video s = Some (frame :: rest) -> has_dims W H frame) ->
  @read_color_frame F rgb s = (Ok color_frame, s1) ->
  has_dims W H color_frame /\ out s1 = out s.
Proof.
move=> Hrgb Hcolor; rewrite /read_color_frame /bindM /get /=.
case E: (color_video s) => [[|frame rest]|] //; last by case=> <- <-.
rewrite /modify /=; case: ifP => // _ [<- <-]; split=> //.
exact/has_dims_map/(Hcolor _ _ E).
Qed.

(** Every frame that completes is written once, in the size of the
    selected format. *)
Lemma step_frame_dims raw_frame s ctl s' :
  has_dims W H raw_frame ->
  (forall frame rest,
     color_video s = Some (frame :: rest) -> has_dims W H frame) ->
  ~~ save_background a ->
  step a inp cfg raw_frame s = (Ok ctl, s') ->
  exists2 out_image,
    out s' = rcons (out s) (map_image rgb2bgr out_image)
    & has_dims (select_out_size a W H).1 (select_out_size a W H).2 out_image.
Proof.
move=> Hraw Hcolor Hsave; rewrite /step => Hrun.
have Hrgb := has_dims_map bgr2rgb Hraw.
have [color_frame [s1 [H1 {}Hrun]]] := bindM_Ok Hrun.
have [Hc Ho1] := read_color_frame_Ok Hrgb Hcolor H1.
have [depth [s2 [H2 {}Hrun]]] := bindM_Ok Hrun.
have [Hdepth ?] := lift_Ok H2; subst s2.
have Hd : has_dims W H depth.
  move: Hdepth; rewrite /DepthCodec.decode_frame; case: ifP => // _ [<-].
  exact: has_dims_map.
case: ifP Hrun => [/andP [_ Ht1]|_] Hrun.
  have [out_image [s3 [H3 {}Hrun]]] := bindM_Ok Hrun.
  have [Hfast ?] := lift_Ok H3; subst s3.
  have [Hdims _] := fast_path_layout Hd Hc Hfast.
  exists out_image; first by rewrite (finish_Ok Hrun) Ho1.
  by rewrite /select_out_size Ht1.
have [s0 [s3 [[? ?] {}Hrun]]] := bindM_Ok Hrun; subst s0 s3.
have [tz [s4 [H4 {}Hrun]]] := bindM_Ok Hrun.
have Ho4 : out s4 = out s1.
  apply: keeps_Ok H4; case: (transformations cfg) => [ts|];
    [exact: keeps_lift | exact: keeps_ret].
move: Hrun; case: (get_mesh_from_depth_map _ _ _ _ _ _) => mesh0 used Hrun.
have [[] [s5 [[?] {}Hrun]]] := bindM_Ok Hrun; subst s5.
have [[] [s6 [H6 {}Hrun]]] := bindM_Ok Hrun.
have Ho6 := keeps_Ok (@update_background_keeps_out _ dmt _ _) H6.
have [s0 [s7 [[? ?] {}Hrun]]] := bindM_Ok Hrun; subst s0 s7.
move: Hrun; rewrite (negbTE Hsave) => Hrun.
have [out_image [s8 [H8 {}Hrun]]] := bindM_Ok Hrun.
exists out_image.
  rewrite (finish_Ok Hrun); congr (rcons _ _).
  suff -> : out s8 = out s6 by rewrite Ho6 /= Ho4 Ho1.
  case: (touchly1 a) H8 => H8.
    exact: keeps_Ok (@render_touchly1_keeps_out _ dmt _ _ _ _ _ _) H8.
  exact: keeps_Ok (@render_stereo_keeps_out _ dmt _ _ _ _ _ _) H8.
rewrite /select_out_size; case: (touchly1 a) H8 => H8.
  by have [g [gain [_ _ Hdims _]]] := render_touchly1_layout H8.
have /= [g [l [r' [_ _ _ Hdims _]]]] := render_stereo_layout H8.
by case: (touchly0 a) Hdims.
Qed.


End StageLayout.

Section LayoutExample.


End LayoutExample.

(** * Part III: more of what the code does *)

(** ** Rounding and the 8-bit depth of the Touchly formats *)

Module TouchlyFacts.

Import Num8 Touchly.
Local Open Scope Z_scope.

Lemma Qrint_bounds q : Qfloor q <= Qrint q <= Qfloor q + 1.
Proof.
rewrite /Qrint; cbv zeta.
by case: (_ ?= _)%Q; [case: (Z.even _) | |]; lia.
Qed.

Lemma Qrint_inject_Z k : Qrint (inject_Z k) = k.
Proof.
rewrite /Qrint Qfloor_Z.
have -> : (inject_Z k - inject_Z k ?= 1 # 2)%Q = Lt; last by [].
by apply: (proj1 (Qlt_alt _ _)); move: (inject_Z k) => K; lra.
Qed.

(** [np.rint] never swaps two numbers. *)
Lemma Qrint_le_mono q1 q2 : (q1 <= q2)%Q -> Qrint q1 <= Qrint q2.
Proof.
move=> Hle; have Hf := Qfloor_resp_le _ _ Hle.
have [B1 B1'] := Qrint_bounds q1; have [B2 B2'] := Qrint_bounds q2.
have [Hlt|Heq] : Qfloor q1 < Qfloor q2 \/ Qfloor q1 = Qfloor q2 by lia.
  by lia.
move: B1 B1' B2 B2'; rewrite /Qrint -Heq.
move: (inject_Z (Qfloor q1)) => f.
case: (Qcompare_spec (q1 - f) (1 # 2)) => H1;
  case: (Qcompare_spec (q2 - f) (1 # 2)) => H2 *;
  try lia; exfalso; lra.
Qed.

Lemma Qrint_comp q1 q2 : (q1 == q2)%Q -> Qrint q1 = Qrint q2.
Proof.
move=> Heq; apply: Z.le_antisymm; apply: Qrint_le_mono; rewrite Heq;
  exact: Qle_refl.
Qed.

Lemma Qminimum_le_l a b : (Qminimum a b <= a)%Q.
Proof.
rewrite /Qminimum; case E: (Qle_bool a b); first exact: Qle_refl.
apply/Qlt_le_weak/Qnot_le_lt => /Qle_bool_iff.
by rewrite E.
Qed.

Lemma Qminimum_le_r a b : (Qminimum a b <= b)%Q.
Proof.
by rewrite /Qminimum; case E: (Qle_bool a b); [apply/Qle_bool_iff | apply: Qle_refl].
Qed.

Lemma Qminimum_glb a b c : (c <= a)%Q -> (c <= b)%Q -> (c <= Qminimum a b)%Q.
Proof. by rewrite /Qminimum; case: (Qle_bool a b). Qed.

Lemma Qminimum_mono a a' b : (a <= a')%Q -> (Qminimum a b <= Qminimum a' b)%Q.
Proof.
move=> Ha; apply: Qminimum_glb; last exact: Qminimum_le_r.
by have := @Qminimum_le_l a b; move: (Qminimum a b) => m; lra.
Qed.

Section Scaled.

Variables (touchly_max_depth gain : Q).
Hypothesis max_pos : (0 < touchly_max_depth)%Q.
Hypothesis gain_eq : depth_gain touchly_max_depth = Ok gain.

Local Notation tm := touchly_max_depth.

Lemma gain_val : gain = (inject_Z 255 / tm)%Q.
Proof.
move: gain_eq; rewrite /depth_gain.
by case: (Qeq_bool tm 0) => // -[].
Qed.

(** The clipped and scaled depth, before it is rounded. *)
Lemma scaled_eq d : (Qminimum d tm * gain == 255 * Qminimum d tm / tm)%Q.
Proof.
rewrite gain_val; change (inject_Z 255) with 255%Q.
by field; lra.
Qed.

Lemma scaled_range d : (0 <= d)%Q -> (0 <= Qminimum d tm * gain <= 255)%Q.
Proof.
move=> Hd; rewrite scaled_eq.
have H0 : (0 <= Qminimum d tm)%Q by apply: Qminimum_glb => //; lra.
have H1 := @Qminimum_le_r d tm.
split; first by apply: Qle_shift_div_l => //; lra.
by apply: Qle_shift_div_r => //; lra.
Qed.

Lemma scaled_mono d1 d2 :
  (d1 <= d2)%Q -> (Qminimum d1 tm * gain <= Qminimum d2 tm * gain)%Q.
Proof.
move=> Hd; rewrite !scaled_eq.
have Hm := @Qminimum_mono _ _ tm Hd.
apply: Qle_shift_div_l => //.
have -> : (255 * Qminimum d1 tm / tm * tm == 255 * Qminimum d1 tm)%Q.
  by field; lra.
by lra.
Qed.

(** The 8-bit depth does not wrap. *)
Lemma depth8bit_eq d :
  (0 <= d)%Q ->
  depth8bit tm gain d = Qrint (Qminimum d tm * gain)
  /\ 0 <= depth8bit tm gain d <= 255.
Proof.
move=> /scaled_range [H0 H255].
have := Qrint_le_mono H0; have := Qrint_le_mono H255.
rewrite (Qrint_inject_Z 0) (Qrint_inject_Z 255) /depth8bit /to_uint8 => Hhi Hlo.
by rewrite Z.mod_small //; lia.
Qed.

Lemma depth8bit_far d : (tm <= d)%Q -> depth8bit tm gain d = 255.
Proof.
move=> Hd; have Hd0 : (0 <= d)%Q by lra.
have [-> _] := depth8bit_eq Hd0.
rewrite -(Qrint_inject_Z 255); apply: Qrint_comp.
rewrite scaled_eq.
have -> : (Qminimum d tm == tm)%Q.
  apply: Qle_antisym; first exact: Qminimum_le_r.
  by apply: Qminimum_glb => //; lra.
by change (inject_Z 255) with 255%Q; field; lra.
Qed.

Lemma depth8bit_zero d : (d == 0)%Q -> depth8bit tm gain d = 0.
Proof.
move=> Hd; have Hd0 : (0 <= d)%Q by lra.
have [-> _] := depth8bit_eq Hd0.
rewrite -(Qrint_inject_Z 0); apply: Qrint_comp.
rewrite scaled_eq.
have -> : (Qminimum d tm == 0)%Q.
  apply: Qle_antisym; last by apply: Qminimum_glb; lra.
  by have := @Qminimum_le_l d tm; lra.
by change (inject_Z 0) with 0%Q; field; lra.
Qed.

Lemma depth8bit_mono d1 d2 :
  (0 <= d1)%Q -> (d1 <= d2)%Q -> depth8bit tm gain d1 <= depth8bit tm gain d2.
Proof.
move=> H1 H12; have H2 : (0 <= d2)%Q by lra.
have [-> _] := depth8bit_eq H1; have [-> _] := depth8bit_eq H2.
exact/Qrint_le_mono/scaled_mono.
Qed.

Lemma reverse_depth_eq v : 0 <= v <= 255 -> reverse_depth v = 255 - v.
Proof. by move=> Hv; rewrite /reverse_depth /to_uint8 Z.mod_small; lia. Qed.

(** The fast path of lines 247-249: the depth is coded on one byte,
    reversed, 255 at the camera and 0 from the clip depth on; the code
    does not wrap, and a larger depth never gets a larger code. *)
Theorem fast_depth_reversed d :
  (0 <= d)%Q ->
  let v := 255 - Qrint (Qminimum d tm * gain) in
  [/\ fast_depth tm gain d = gray3 v, 0 <= v <= 255,
      (d == 0)%Q -> v = 255,
      (tm <= d)%Q -> v = 0
    & forall d', (d <= d')%Q ->
        red (fast_depth tm gain d') <= red (fast_depth tm gain d)].
Proof.
move=> Hd v; have [E8 B8] := depth8bit_eq Hd.
split.
- by rewrite /fast_depth reverse_depth_eq // E8.
- by rewrite /v -E8; lia.
- by move=> /depth8bit_zero; rewrite /v -E8 => ->.
- by move=> /depth8bit_far; rewrite /v -E8 => ->.
move=> d' Hd'; have Hd0 : (0 <= d')%Q by lra.
have [_ B8'] := depth8bit_eq Hd0.
have := depth8bit_mono Hd Hd'.
by rewrite /fast_depth /= !reverse_depth_eq //; lia.
Qed.

(** A rendered depth buffer, lines 322-325 and 355-358: the code 0 of a
    pixel the render did not hit is moved to 255 before the reversal, so
    the frame holds 0 both for the depths that round to 0 and for those
    from the clip depth on, never 255, and else what the fast path
    holds. *)
Theorem rendered_depth_pushed_back d :
  (0 <= d)%Q ->
  let v8 := Qrint (Qminimum d tm * gain) in
  [/\ rendered_depth tm gain d
      = (if (v8 =? 0) then black else fast_depth tm gain d),
      0 <= red (rendered_depth tm gain d) <= 254,
      (d == 0)%Q -> rendered_depth tm gain d = black
    & (tm <= d)%Q -> rendered_depth tm gain d = black].
Proof.
move=> Hd v8; have [E8 B8] := depth8bit_eq Hd.
have E : rendered_depth tm gain d
         = (if (v8 =? 0) then black else fast_depth tm gain d).
  rewrite /rendered_depth /fast_depth /push_back E8 -/v8.
  by case: (v8 =? 0).
split=> //.
- rewrite E; case: Z.eqb_spec => [//|Hv] /=.
  by rewrite reverse_depth_eq //; move: Hv; rewrite /v8 -E8; lia.
- by move=> /depth8bit_zero; rewrite E /v8 -E8 => ->.
- move=> /depth8bit_far H255; rewrite E /v8 -E8 H255 /=.
  by rewrite /fast_depth H255.
Qed.

End Scaled.

End TouchlyFacts.

Lemma fast_depth_reversed_witness :
  Touchly.fast_depth 5 (inject_Z 255 / 5)%Q 2 = gray3 153
  /\ Touchly.fast_depth 5 (inject_Z 255 / 5)%Q 7 = gray3 0.
Proof.
have H2 : (0 <= 2)%Q by [].
have H7 : (0 <= 7)%Q by [].
have [E2 _ _ _ _] :=
  @TouchlyFacts.fast_depth_reversed 5 (inject_Z 255 / 5)%Q (erefl _) (erefl _)
    2 H2.
have [E7 _ _ Hfar _] :=
  @TouchlyFacts.fast_depth_reversed 5 (inject_Z 255 / 5)%Q (erefl _) (erefl _)
    7 H7.
by split; [rewrite E2 | rewrite E7 Hfar].
Defined.

Lemma rendered_depth_pushed_back_witness :
  Touchly.rendered_depth 5 (inject_Z 255 / 5)%Q (1 # 1000) = black
  /\ Touchly.rendered_depth 5 (inject_Z 255 / 5)%Q 2 = gray3 153.
Proof.
have H0 : (0 <= 1 # 1000)%Q by [].
have H2 : (0 <= 2)%Q by [].
have [E0 _ _ _] :=
  @TouchlyFacts.rendered_depth_pushed_back 5 (inject_Z 255 / 5)%Q (erefl _)
    (erefl _) (1 # 1000)%Q H0.
have [E2 _ _ _] :=
  @TouchlyFacts.rendered_depth_pushed_back 5 (inject_Z 255 / 5)%Q (erefl _)
    (erefl _) 2 H2.
by split; [rewrite E0 | rewrite E2].
Defined.

(** ** The order of the decoded depths *)

Module DepthCodecOrder.

Import Num8 DepthCodec.
Local Open Scope Z_scope.

(** The decoder keeps the order of the 16-bit values
    [256 * ((r+g)//2) + b]: a larger value is a larger depth, and two
    pixels decode to the same depth only when they agree on the average
    of red and green and on blue.  Nothing of the 16 bits is lost. *)
Theorem decode_strictly_monotone (max_depth : Z) (p q : rgb_pixel) :
  valid_pixel p -> valid_pixel q -> 0 < max_depth ->
  ((decode max_depth p < decode max_depth q)%Q
   <-> 256 * avg_rg p + blue p < 256 * avg_rg q + blue q)
  /\ ((decode max_depth p == decode max_depth q)%Q
      <-> avg_rg p = avg_rg q /\ blue p = blue q).
Proof.
move=> Hp Hq; case: max_depth => // md _.
have Hmd : 0 < Z.pos md by [].
have Ep := DepthCodecFacts.depth_word_eq Hp.
have Eq := DepthCodecFacts.depth_word_eq Hq.
have Ap := DepthCodecFacts.avg_rg_range Hp.
have Aq := DepthCodecFacts.avg_rg_range Hq.
have [_ [_ Bp]] := Hp; have [_ [_ Bq]] := Hq; rewrite /is_uint8 in Bp Bq.
rewrite !DepthCodecFacts.decode_fraction /Qlt /Qeq; cbn [Qnum Qden].
rewrite Ep Eq.
set x := 256 * avg_rg p + blue p; set y := 256 * avg_rg q + blue q.
have H4 : 0 < Z.pos 4228250625 by [].
split.
- rewrite -(Z.mul_lt_mono_pos_r _ _ _ H4) -(Z.mul_lt_mono_pos_r _ _ _ Hmd).
  by lia.
- have -> : (x * 2 ^ 16 * Z.pos md * Z.pos 4228250625
             = y * 2 ^ 16 * Z.pos md * Z.pos 4228250625) <-> x = y.
    split=> [|-> //] /Z.mul_cancel_r E.
    have {E} /Z.mul_cancel_r E := E (ltac:(lia)).
    by have := E (ltac:(lia)); lia.
  by rewrite /x /y; lia.
Qed.

Lemma decode_strictly_monotone_witness :
  (decode 20 (RGB 10 20 7) < decode 20 (RGB 10 20 8))%Q
  /\ ~ (decode 20 (RGB 10 21 7) == decode 20 (RGB 10 22 7))%Q.
Proof.
have V r g b : 0 <= r <= 255 -> 0 <= g <= 255 -> 0 <= b <= 255 ->
               valid_pixel (RGB r g b) by [].
have [H1 _] :=
  @decode_strictly_monotone 20 (RGB 10 20 7) (RGB 10 20 8)
    (V 10 20 7 ltac:(lia) ltac:(lia) ltac:(lia))
    (V 10 20 8 ltac:(lia) ltac:(lia) ltac:(lia)) (erefl _).
have [_ H2] :=
  @decode_strictly_monotone 20 (RGB 10 21 7) (RGB 10 22 7)
    (V 10 21 7 ltac:(lia) ltac:(lia) ltac:(lia))
    (V 10 22 7 ltac:(lia) ltac:(lia) ltac:(lia)) (erefl _).
split; first by apply/H1.
by move=> /H2 [].
Defined.

End DepthCodecOrder.

(** ** The sentinel of the infill mask *)

Module SentinelFacts.

Import Num8 Touchly.

Lemma Qfloor_eq (k : Z) (x : Q) :
  (inject_Z k <= x)%Q -> (x < inject_Z (k + 1))%Q -> Qfloor x = k.
Proof.
move=> Hlo Hhi.
have H1 := Qfloor_resp_le _ _ Hlo; rewrite Qfloor_Z in H1.
have H2 : (inject_Z (Qfloor x) < inject_Z (k + 1))%Q.
  exact: Qle_lt_trans _ _ _ (Qfloor_le x) Hhi.
by move: H2; rewrite -Zlt_Qlt; lia.
Qed.

(** [(c*255).astype(np.uint8)] on a channel in [0, 1]: the integer part
    of [255 c], which is 0 below 1/255 and 255 at 1 only. *)
Lemma channel8bit c :
  (0 <= c <= 1)%Q ->
  let v := to_uint8 (Qtrunc (c * inject_Z 255)%Q) in
  [/\ v = Qfloor (c * 255)%Q, (0 <= v <= 255)%Z,
      v = 0%Z <-> (c < 1 # 255)%Q & v = 255%Z <-> (c == 1)%Q].
Proof.
move=> [H0 H1] v; change (inject_Z 255) with 255%Q in v.
have Hx0 : (inject_Z 0 <= c * 255)%Q by change (inject_Z 0) with 0%Q; lra.
have Hx1 : (c * 255 <= inject_Z 255)%Q
  by change (inject_Z 255) with 255%Q; lra.
have F0 := Qfloor_resp_le _ _ Hx0; have F1 := Qfloor_resp_le _ _ Hx1.
rewrite !Qfloor_Z in F0 F1.
have Ev : v = Qfloor (c * 255)%Q.
  rewrite /v /Qtrunc; have -> : Qle_bool 0 (c * 255)%Q = true.
    by apply/Qle_bool_iff.
  by rewrite /to_uint8 Z.mod_small //; lia.
have Hfl := Qfloor_le (c * 255)%Q; have Hlf := Qlt_floor (c * 255)%Q.
split=> //; first by rewrite Ev; lia.
- rewrite Ev; split=> [E|Hc].
    by move: Hlf; rewrite E /=; change (inject_Z 1) with 1%Q; lra.
  by apply: Qfloor_eq => //; change (inject_Z (0 + 1)) with 1%Q; lra.
- rewrite Ev; split=> [E|Hc].
    by move: Hfl; rewrite E; change (inject_Z 255) with 255%Q; lra.
  apply: Qfloor_eq; change (inject_Z 255) with 255%Q;
    change (inject_Z (255 + 1)) with 256%Q; lra.
Qed.

(** Lines 330, 346 and 368 compare the 8-bit render with (0, 255, 0): a
    pixel is marked as to be filled in exactly when its rendered color
    has red and blue below 1/255 and green 1.  The background color
    (0, 1, 0) of line 255 is marked, and so is every mesh color that
    close to it. *)
Theorem sentinel_marks_green (r g b : Q) :
  (0 <= r <= 1)%Q -> (0 <= g <= 1)%Q -> (0 <= b <= 1)%Q ->
  rgb_eqb (color8bit (r, g, b)) sentinel
  <-> [/\ (r < 1 # 255)%Q, (g == 1)%Q & (b < 1 # 255)%Q].
Proof.
move=> /channel8bit [_ _ Hr _] /channel8bit [_ _ _ Hg] /channel8bit [_ _ Hb _].
rewrite /rgb_eqb /color8bit /sentinel; cbn [red green blue].
split.
  by move=> /and3P [/Z.eqb_eq /Hr ? /Z.eqb_eq /Hg ? /Z.eqb_eq /Hb ?].
move=> [/Hr -> /Hg -> /Hb ->]; by [].
Qed.

End SentinelFacts.

Lemma sentinel_marks_green_witness :
  rgb_eqb (Touchly.color8bit (0, 1, 0)%Q) sentinel
  /\ rgb_eqb (Touchly.color8bit (1 # 1000, 1, 3 # 1000)%Q) sentinel
  /\ ~ rgb_eqb (Touchly.color8bit (0, 254 # 255, 0)%Q) sentinel.
Proof.
have B (c : Q) : (0 <=? Qnum c)%Z && (Qnum c <=? Z.pos (Qden c))%Z ->
                 (0 <= c <= 1)%Q.
  case: c => n d /= /andP [/Z.leb_le H0 /Z.leb_le H1].
  by rewrite /Qle /=; lia.
have H1 := @SentinelFacts.sentinel_marks_green 0 1 0
             (B 0%Q (erefl _)) (B 1%Q (erefl _)) (B 0%Q (erefl _)).
have H2 := @SentinelFacts.sentinel_marks_green (1 # 1000) 1 (3 # 1000)
             (B (1 # 1000)%Q (erefl _)) (B 1%Q (erefl _))
             (B (3 # 1000)%Q (erefl _)).
have H3 := @SentinelFacts.sentinel_marks_green 0 (254 # 255) 0
             (B 0%Q (erefl _)) (B (254 # 255)%Q (erefl _)) (B 0%Q (erefl _)).
split; first by apply/H1.
split; first by apply/H2.
by move=> /H3 [_ E _].
Defined.

(** ** The background mask: lines 275-279 *)

Section MaskFacts.

Implicit Types (mask_img : image Z) (W H : nat).

Lemma size_flatten_dims (T : Type) W H (img : image T) :
  has_dims W H img -> size (flatten img) = H * W.
Proof.
move=> /andP [/eqP <-]; elim: img => [|row img IH] //= /andP [/eqP Er Hr].
by rewrite size_cat Er IH.
Qed.

Lemma nth_flatten_dims (T : Type) (x0 : T) W H (img : image T) x y :
  has_dims W H img -> x < W -> y < H ->
  nth x0 (flatten img) (y * W + x) = nth x0 (nth [::] img y) x.
Proof.
move=> /andP [/eqP <-] Hrows Hx.
elim: img y Hrows => [|row img IH] [|y] //= /andP [/eqP Er Hr] Hy.
  by rewrite mul0n add0n nth_cat Er Hx.
rewrite nth_cat Er mulSn -addnA ltnNge leq_addr /= addKn.
exact: IH.
Qed.

(** [np.where(mask_img.reshape(-1) < 128)[0]]: the pixels of the mask
    frame darker than 128, as their positions [y * W + x] in the rows
    laid end to end, in increasing order.  These are the vertex numbers
    that may join the background. *)
Theorem bg_mask_of_row_major W H mask_img :
  has_dims W H mask_img ->
  [/\ sorted ltn (bg_mask_of mask_img),
      forall i, i \in bg_mask_of mask_img -> i < H * W
    & forall x y, x < W -> y < H ->
        (y * W + x \in bg_mask_of mask_img)
        = (pixel_at 0%Z mask_img x y <? 128)%Z].
Proof.
move=> Hdims; have Es := size_flatten_dims Hdims.
rewrite /bg_mask_of; cbv zeta; rewrite Es; split.
- by apply: sorted_filter (iota_ltn_sorted _ _); apply: ltn_trans.
- by move=> i; rewrite mem_filter mem_iota add0n => /andP [_ /andP [_]].
move=> x y Hx Hy; rewrite mem_filter mem_iota add0n /=.
have -> : y * W + x < H * W.
  apply: (@leq_trans (y.+1 * W)); last by rewrite leq_mul2r Hy orbT.
  by rewrite mulSn addnC ltn_add2r.
by rewrite andbT (nth_flatten_dims _ Hdims).
Qed.

Lemma bg_mask_of_row_major_witness :
  let mask_img : image Z := [:: [:: 0; 255; 130]; [:: 127; 128; 3]]%Z in
  bg_mask_of mask_img = [:: 0; 3; 5]
  /\ (1 * 3 + 2 \in bg_mask_of mask_img) = true.
Proof.
move=> mask_img; split; first by [].
have [_ _ Hmem] := @bg_mask_of_row_major 3 2 mask_img (erefl _).
by rewrite (Hmem 2 1 (erefl _) (erefl _)).
Defined.

End MaskFacts.

(** ** More on the re-basing of the transformation stream *)

Section RebaseMore.

Variable F : fieldType.
Local Open Scope ring_scope.
Implicit Types (ts : seq (transformation F)) (L : Z).

Lemma py_getitem_closed (T : Type) (x0 : T) (s : seq T) (i : Z) :
  let n := Z.of_nat (size s) in
  py_getitem s i
  = if ((- n <=? i) && (i <? n))%Z
    then Ok (nth x0 s (Z.to_nat (i mod n)))
    else Raise IndexError.
Proof.
move=> n; rewrite /py_getitem -/n.
have En : n = Z.of_nat (size s) by [].
clearbody n.
have Hn : (0 <= n)%Z by lia.
case: (Z.ltb_spec i 0) => Hi.
  case: (Z.leb_spec (- n) i) => Hlo /=; last first.
    by have -> : (0 <=? i + n)%Z = false by apply/Z.leb_gt; lia.
  have -> : (0 <=? i + n)%Z = true by apply/Z.leb_le; lia.
  have -> : (i + n <? n)%Z = true by apply/Z.ltb_lt; lia.
  have -> : (i <? n)%Z = true by apply/Z.ltb_lt; lia.
  have -> : (i mod n = i + n)%Z.
    by rewrite -(Z_mod_plus_full i 1 n) Z.mul_1_l Z.mod_small; lia.
  have Hk : (Z.to_nat (i + n) < size s)%nat by apply/ltP; lia.
  by rewrite /= (drop_nth x0 Hk).
have -> : (- n <=? i)%Z = true by apply/Z.leb_le; lia.
have -> : (0 <=? i)%Z = true by apply/Z.leb_le.
case: (Z.ltb_spec i n) => Hhi //=.
rewrite Z.mod_small; first by lia.
have Hk : (Z.to_nat i < size s)%nat by apply/ltP; lia.
by rewrite (drop_nth x0 Hk).
Qed.


Lemma invmx_mul (n : nat) (A B : 'M[F]_n) :
  A \in unitmx -> B \in unitmx -> invmx (A *m B) = invmx B *m invmx A.
Proof.
move=> HA HB; have HAB : A *m B \in unitmx by rewrite unitmx_mul HA HB.
have E : (A *m B) *m (invmx B *m invmx A) = 1%:M.
  by rewrite mulmxA -(mulmxA A) mulmxV // mulmx1 mulmxV.
by rewrite -[RHS](mulKmx HAB) E mulmx1.
Qed.

(** In exact arithmetic (the matrices are over a field, [np.linalg.inv]
    is the exact inverse and [@] the exact product), re-basing changes
    the base frame only: the transformation from one frame to another is
    what it was.  In the float64 of the script the two sides agree up to
    rounding only. *)
Theorem rebase_keeps_relative L ts ts' i j :
  rebase L ts = Ok ts' ->
  (i < size ts)%nat -> (j < size ts)%nat -> nth 0 ts j \in unitmx ->
  size ts' = size ts
  /\ nth 0 ts' i *m invmx (nth 0 ts' j) = nth 0 ts i *m invmx (nth 0 ts j).
Proof.
rewrite /rebase; case: (L =? 0)%Z; first by case=> <-.
rewrite (py_getitem_closed 0); case: (_ && _) => //=.
set ref := nth 0 ts _; rewrite /np_linalg_inv.
case: ifP => //= Href; rewrite rebase_all_map => -[<-] Hi Hj Hu.
rewrite size_map; split=> //.
rewrite !(nth_map 0) // invmx_mul ?unitmx_inv // invmxK.
by rewrite mulmxA -(mulmxA (nth 0 ts i)) mulVmx // mulmx1.
Qed.

End RebaseMore.

Section RebaseMoreExamples.

Local Open Scope ring_scope.

Lemma rebase_keeps_relative_witness :
  let ts : seq (transformation rat) := [:: 2%:M; 3%:M] in
  exists ts',
    [/\ rebase 1 ts = Ok ts', size ts' = 2%nat
      & nth 0 ts' 0 *m invmx (nth 0 ts' 1) = 2%:M *m invmx 3%:M].
Proof.
move=> ts.
have U1 : nth 0 ts 1 \in unitmx by apply: scalar_unitmx.
have Hok : rebase 1 ts = Ok [seq t *m invmx (nth 0 ts 1) | t <- ts].
  by rewrite /rebase (py_getitem_closed 0) /= /np_linalg_inv U1 /= rebase_all_map.
eexists; split; first exact: Hok.
  by [].
by have [_ ->] := @rebase_keeps_relative rat 1 ts _ 0 1 Hok (erefl _) (erefl _) U1.
Defined.

End RebaseMoreExamples.

(** ** What lines 118-183 accept, and what they set *)

Section ConfigureFacts.

Variable F : fieldType.
Variable dmt : collaborators F.
Implicit Types (a : args) (inp : inputs F) (cfg : config dmt).

(** When lines 118-183 go through. *)
Lemma configure_is_ok a inp :
  is_ok (configure dmt a inp)
  = [&& xfov a || yfov a,
        (if transformation_file inp is Some ts
         then is_ok (rebase (transformation_lock_frame a) ts) else true)
      & ~~ (touchly0 a || vr180 a)
        || (if (xfov a, yfov a) is (Some x, Some y)
            then (Z.max x y <? 180)%Z else false)].
Proof.
rewrite /configure /max_fov -negb_or; case: (xfov a) => [x|]; case: (yfov a) => [y|] //=;
  (case: (transformation_file inp) => [ts|] /=;
     first case: (rebase _ ts) => [ts'|e] //=);
  case: (touchly0 a || vr180 a) => //=;
  try by rewrite Z.leb_antisym; case: (_ <? _)%Z.
Qed.

(** When lines 202-211 go through: without a mask video, or without
    [--load_background], always; else when the file holds an array of
    numbers with at least two rows. *)
Lemma init_state_is_ok a inp :
  is_ok (init_state a inp)
  = if (mask_video_file inp, load_background_file inp) is (Some _, Some file)
    then rectangular file && (1 < size file)%nat else true.
Proof.
rewrite /init_state /init_background.
case: (mask_video_file inp) => [v|] //=.
case: (load_background_file inp) => [file|] //=.
rewrite /load_background /np_load; case: (rectangular file) => //=.
case: file => [|pts [|cols rest]] //.
cbv beta iota delta [bind].
by rewrite (@py_getitem_nat _ [::] _ 0) // (@py_getitem_nat _ [::] _ 1).
Qed.

(** The set-up of the script, lines 117-211, on input files that exist
    and parse (the inputs of the model hold what the files contain, so
    the [os.path.isfile] checks of lines 127-145 are passed).  The script
    gets to its frame loop exactly when a field of view is given, the
    transformation stream can be re-based, for the VR180 and 3-in-1
    formats both fields of view are given and below 180 degrees, and, in
    a run with a mask video and [--load_background], the background file
    holds an array of numbers with at least two rows. *)
Theorem setup_accepts a inp :
  is_ok (main dmt a inp)
  = [&& xfov a || yfov a,
        (if transformation_file inp is Some ts
         then is_ok (rebase (transformation_lock_frame a) ts) else true),
        ~~ (touchly0 a || vr180 a)
        || (if (xfov a, yfov a) is (Some x, Some y)
            then (Z.max x y <? 180)%Z else false)
      & if (mask_video_file inp, load_background_file inp)
           is (Some _, Some file)
        then rectangular file && (1 < size file)%nat else true].
Proof.
have -> : is_ok (main dmt a inp)
          = is_ok (configure dmt a inp) && is_ok (init_state a inp).
  rewrite /main; case: (configure dmt a inp) => [cfg|e] //=.
  case: (init_state a inp) => [s0|e] //=.
  case: (run_loop a inp cfg (depth_video inp) s0) => [[e|] s] //=.
  by case: (save_background a) => //; case: (bg s).
by rewrite configure_is_ok init_state_is_ok -!andbA.
Qed.

(** What a run is configured with: [--touchly0] turns [--vr180] on; the
    VR180 render is 1920 x 1920 with a field of view of at least 75 and
    below 180 degrees, the other renders have the size and the camera of
    the input; the size of the output video is that of the selected
    format. *)
Theorem configure_result a inp cfg :
  configure dmt a inp = Ok cfg ->
  [/\ use_vr180 cfg = touchly0 a || vr180 a,
      out_size cfg = select_out_size a (out_width cfg) (out_height cfg),
      cam_matrix cfg
      = compute_camera_matrix dmt (xfov a) (yfov a)
          (frame_width inp) (frame_height inp)
    & if use_vr180 cfg then
        exists x y,
          [/\ xfov a = Some x /\ yfov a = Some y,
              render_fov cfg = Z.max 75 (Z.max x y),
              (75 <= render_fov cfg < 180)%Z,
              out_width cfg = 1920 /\ out_height cfg = 1920
            & render_cam_matrix cfg
              = compute_camera_matrix dmt (Some (render_fov cfg))
                  (Some (render_fov cfg)) 1920 1920]
      else [/\ out_width cfg = frame_width inp,
               out_height cfg = frame_height inp
             & render_cam_matrix cfg = cam_matrix cfg]].
Proof.
rewrite /configure; case: (~~ _ && ~~ _) => //.
case: (match transformation_file inp with Some _ => _ | None => _ end)
  => [ts|e] //=.
case Hvr: (touchly0 a || vr180 a); last by case=> <-.
rewrite /max_fov; case: (xfov a) => [x|] //; case: (yfov a) => [y|] //=.
case: Z.leb_spec => // Hmax [<-] /=; split=> //.
by exists x, y; split=> //; lia.
Qed.

End ConfigureFacts.

Lemma configure_result_witness :
  let cfg := @Config rat sample_tools None tt tt 1920 1920 true 75
               (5760, 1920)%nat in
  configure sample_tools sample_args_touchly0 sample_inputs = Ok cfg
  /\ use_vr180 cfg = true /\ render_fov cfg = 75%Z.
Proof.
move=> cfg.
have Hcfg : configure sample_tools sample_args_touchly0 sample_inputs = Ok cfg.
  by [].
have [Hvr _ _] := configure_result Hcfg.
move: (Hvr) => ->; rewrite -/(touchly0 _ || _) => -[x [y [[Ex Ey] Hfov _ _ _]]].
by split.
Defined.

(** ** More on the equirectangular remap *)

Module EquirectMore.

Import Num8 Equirect.

Section Projector.

Variable np_tan : Q -> Q.
Variable img : image rgb_pixel.
Variable input_fov : Q.
Variables W H : nat.
Hypotheses (W_pos : 0 < W) (H_pos : 0 < H).
Hypothesis img_dims : has_dims W H img.

Local Notation out_pixel x y :=
  (remap_pixel img
     (map_xy np_tan W H input_fov (inject_Z (Z.of_nat x))
        (inject_Z (Z.of_nat y)))).

(** The pixels of the remap, one by one. *)
Lemma convert_pixels :
  exists2 out,
    convert_to_equirectangular np_tan img input_fov = Ok out
    & forall x y, x < W -> y < H -> pixel_at black out x y = out_pixel x y.
Proof.
rewrite /convert_to_equirectangular.
rewrite (EquirectFacts.has_dims_width H_pos img_dims).
rewrite (EquirectFacts.has_dims_height img_dims).
rewrite (negbTE (lt0n_neq0 H_pos)) (negbTE (lt0n_neq0 W_pos)) /=.
eexists; first by [].
move=> x y Hx Hy; rewrite /pixel_at.
rewrite (nth_map 0%Q) ?EquirectFacts.size_linspace //.
rewrite EquirectFacts.linspace_nth //.
rewrite (nth_map 0%Q) ?EquirectFacts.size_linspace //.
by rewrite EquirectFacts.linspace_nth.
Qed.

Lemma invalid_black x y :
  valid_mask W H input_fov (inject_Z (Z.of_nat x)) (inject_Z (Z.of_nat y))
  = false ->
  out_pixel x y = black.
Proof.
by rewrite /map_xy => -> /=; apply: EquirectFacts.sample_linear_dummy.
Qed.

Lemma half_below_quarter_turn :
  (input_fov < 180)%Q -> (half_input_fov input_fov < np_pi / 2)%Q.
Proof.
move=> Hfov; rewrite /half_input_fov /np_pi /Qdiv; cbn [Qinv Qnum Qden].
by lra.
Qed.

(** At the first and at the last position of an axis the angle is a
    quarter turn, or not a number on an axis of one pixel: outside every
    field of view below 180 degrees. *)
Lemma edge_invalid n i :
  (input_fov < 180)%Q -> 0 < n -> (i = 0%nat) \/ (i = n.-1) ->
  fabs_le (angle n (inject_Z (Z.of_nat i))) (half_input_fov input_fov)
  = false.
Proof.
move=> /half_below_quarter_turn Hhalf Hn Hi.
apply/negbTE/negP => /EquirectFacts.fabs_leP [q Hq /Qabs_Qle_condition Hle].
move: Hq; rewrite /angle /fdiv.
case Ec: (Qeq_bool (center n) 0) => //= -[Eq].
have {Ec} Hc : ~ (center n == 0)%Q by apply: Qeq_bool_neq.
have Ecen : (2 * center n == inject_Z (Z.of_nat n) - 1)%Q.
  by rewrite /center; field.
have Et : ((inject_Z (Z.of_nat i) - center n) / center n == -1)%Q
          \/ ((inject_Z (Z.of_nat i) - center n) / center n == 1)%Q.
  case: Hi => ->; [left | right].
    by change (inject_Z (Z.of_nat 0)) with 0%Q; field.
  have -> : Z.of_nat n.-1 = (Z.of_nat n + -1)%Z.
    by have /ltP Hn' := Hn; rewrite -subn1 -minusE; lia.
  rewrite inject_Z_plus; change (inject_Z (-1)) with (-1)%Q.
  have -> : (inject_Z (Z.of_nat n) + -1 == 2 * center n)%Q by rewrite Ecen; ring.
  by field.
move: Hle Hhalf Et; rewrite -Eq.
move: ((inject_Z (Z.of_nat i) - center n) / center n)%Q => t.
move: (half_input_fov input_fov) => h.
by rewrite /np_pi /Qdiv; cbn [Qinv Qnum Qden] => Hle Hh [Et|Et]; lra.
Qed.

(** The docstring's black padding, lines 64-75: for every field of view
    below 180 degrees the first and the last column and the first and
    the last row of the remap are black. *)
Theorem equirect_border_black :
  (input_fov < 180)%Q ->
  exists2 out,
    convert_to_equirectangular np_tan img input_fov = Ok out
    & forall x y, x < W -> y < H ->
        [\/ x = 0%nat, x = W.-1, y = 0%nat | y = H.-1] ->
        pixel_at black out x y = black.
Proof.
move=> Hfov; have [out Hout Hpix] := convert_pixels; exists out => //.
move=> x y Hx Hy Hedge; rewrite Hpix //; apply: invalid_black.
rewrite /valid_mask.
case: Hedge => E.
- by rewrite (edge_invalid Hfov W_pos (or_introl E)).
- by rewrite (edge_invalid Hfov W_pos (or_intror E)).
- by rewrite (edge_invalid Hfov H_pos (or_introl E)) andbF.
- by rewrite (edge_invalid Hfov H_pos (or_intror E)) andbF.
Qed.

(** An image one pixel wide or one pixel high: the center is 0, the
    angles are 0/0, no pixel is valid and the remap is black, whatever
    the field of view. *)
Theorem equirect_thin_black :
  W = 1%nat \/ H = 1%nat ->
  exists2 out,
    convert_to_equirectangular np_tan img input_fov = Ok out
    & forall x y, x < W -> y < H -> pixel_at black out x y = black.
Proof.
move=> Hthin; have [out Hout Hpix] := convert_pixels; exists out => //.
move=> x y Hx Hy; rewrite Hpix //; apply: invalid_black.
by rewrite /valid_mask; case: Hthin => ->; rewrite /angle /= ?andbF.
Qed.

End Projector.

Section Center.

Variable np_tan : Q -> Q.
Variable img : image rgb_pixel.
Variable input_fov : Q.
Variables k l : nat.

Local Notation W := (k.*2.+1).
Local Notation H := (l.*2.+1).

Hypotheses (k_pos : 0 < k) (l_pos : 0 < l).
Hypothesis img_dims : has_dims W H img.
Hypothesis fov_nonneg : (0 <= input_fov)%Q.
Hypothesis tan_zero : forall q, (q == 0)%Q -> (np_tan q == 0)%Q.
Hypothesis tan_half : ~ (np_tan (half_input_fov input_fov) == 0)%Q.
Hypothesis center_valid : valid_pixel (pixel_at black img k l).

Lemma center_odd n : (center n.*2.+1 == inject_Z (Z.of_nat n))%Q.
Proof.
rewrite /center.
have -> : Z.of_nat n.*2.+1 = (2 * Z.of_nat n + 1)%Z.
  by rewrite Nat2Z.inj_succ -addnn Nat2Z.inj_add; lia.
rewrite inject_Z_plus inject_Z_mult.
change (inject_Z 1) with 1%Q; change (inject_Z 2) with 2%Q.
by field.
Qed.

Lemma center_odd_neq0 n : 0 < n -> ~ (center n.*2.+1 == 0)%Q.
Proof.
move=> /ltP Hn; rewrite center_odd => E.
have : (inject_Z 0 < inject_Z (Z.of_nat n))%Q by rewrite -Zlt_Qlt; lia.
by rewrite E; change (inject_Z 0) with 0%Q; lra.
Qed.

(** The angle at the center of an odd axis is 0, and the pinhole model
    sends it to the center. *)
Lemma center_fixed n :
  0 < n ->
  fabs_le (angle n.*2.+1 (inject_Z (Z.of_nat n))) (half_input_fov input_fov)
  /\ exists2 m, pinhole np_tan n.*2.+1 input_fov (inject_Z (Z.of_nat n))
                = Some m
              & (m == inject_Z (Z.of_nat n))%Q.
Proof.
move=> Hn; have Hc := center_odd_neq0 Hn; have Ec := center_odd n.
have Hcb : Qeq_bool (center n.*2.+1) 0 = false.
  by apply/negbTE/negP => /Qeq_bool_iff.
have Htb : Qeq_bool (np_tan (half_input_fov input_fov)) 0 = false.
  by apply/negbTE/negP => /Qeq_bool_iff.
pose theta := ((inject_Z (Z.of_nat n) - center n.*2.+1) / center n.*2.+1
               * (np_pi / 2))%Q.
have Ea : (theta == 0)%Q by rewrite /theta -Ec; field.
have Hhalf : (0 <= half_input_fov input_fov)%Q.
  by rewrite /half_input_fov /np_pi /Qdiv; cbn [Qinv Qnum Qden]; lra.
split.
  rewrite /angle /fdiv Hcb; apply/EquirectFacts.fabs_leP; exists theta => //.
  by apply: (proj2 (Qabs_Qle_condition _ _)); rewrite Ea; lra.
exists (center n.*2.+1 / np_tan (half_input_fov input_fov) * np_tan theta
        + center n.*2.+1)%Q; first by rewrite /pinhole /angle /fdiv Hcb Htb.
by rewrite (tan_zero Ea) Ec; ring.
Qed.

Lemma saturate_uint8_id v : (0 <= v <= 255)%Z -> saturate_uint8 v = v.
Proof. by rewrite /saturate_uint8; lia. Qed.

Lemma lerp2_at_pixel fx fy c00 c10 c01 c11 :
  (fx == 0)%Q -> (fy == 0)%Q -> (0 <= c00 <= 255)%Z ->
  lerp2 fx fy c00 c10 c01 c11 = c00.
Proof.
move=> Ex Ey Hc; rewrite /lerp2.
set v := (_ + _)%Q.
have E : (v == inject_Z c00)%Q by rewrite /v Ex Ey; ring.
by rewrite (TouchlyFacts.Qrint_comp E) TouchlyFacts.Qrint_inject_Z
           saturate_uint8_id.
Qed.

(** A coordinate on a pixel samples that pixel. *)
Lemma sample_linear_at_pixel mx my x y :
  (mx == inject_Z (Z.of_nat x))%Q -> (my == inject_Z (Z.of_nat y))%Q ->
  x < W -> y < H -> valid_pixel (pixel_at black img x y) ->
  sample_linear img mx my = pixel_at black img x y.
Proof.
move=> Ex Ey Hx Hy [Hr [Hg Hb]]; rewrite /sample_linear.
have Fx : Qfloor mx = Z.of_nat x by rewrite (Qfloor_comp _ _ Ex) Qfloor_Z.
have Fy : Qfloor my = Z.of_nat y by rewrite (Qfloor_comp _ _ Ey) Qfloor_Z.
rewrite Fx Fy.
have E0x : (mx - inject_Z (Z.of_nat x) == 0)%Q by rewrite Ex; ring.
have E0y : (my - inject_Z (Z.of_nat y) == 0)%Q by rewrite Ey; ring.
have Ep : src_pixel img (Z.of_nat x) (Z.of_nat y) = pixel_at black img x y.
  rewrite /src_pixel /pixel_at !Nat2Z.id.
  rewrite (EquirectFacts.has_dims_width (ltn0Sn _) img_dims).
  rewrite (EquirectFacts.has_dims_height img_dims).
  have -> : (0 <=? Z.of_nat x)%Z by apply/Z.leb_le; lia.
  have -> : (0 <=? Z.of_nat y)%Z by apply/Z.leb_le; lia.
  have -> : (Z.of_nat x <? Z.of_nat W)%Z by apply/Z.ltb_lt/inj_lt/ltP.
  by have -> : (Z.of_nat y <? Z.of_nat H)%Z by apply/Z.ltb_lt/inj_lt/ltP.
rewrite Ep !lerp2_at_pixel //.
by case: (pixel_at black img x y).
Qed.


End Center.

End EquirectMore.

Lemma equirect_border_black_witness :
  exists2 out,
    Equirect.convert_to_equirectangular id sample_white 90 = Ok out
    & pixel_at black out 2 1 = black.
Proof.
have H90 : (90 < 180)%Q by [].
have [out Hout Hpix] :=
  @EquirectMore.equirect_border_black id sample_white 90 3 3 (erefl _)
    (erefl _) (erefl _) H90.
exists out => //.
by apply: Hpix => //; apply: Or42.
Defined.

Lemma equirect_thin_black_witness :
  exists2 out,
    Equirect.convert_to_equirectangular id
      [:: [:: RGB 255 255 255]; [:: RGB 255 255 255]] 170 = Ok out
    & pixel_at black out 0 1 = black.
Proof.
have [out Hout Hpix] :=
  @EquirectMore.equirect_thin_black id
    [:: [:: RGB 255 255 255]; [:: RGB 255 255 255]] 170 1 2 (erefl _)
    (erefl _) (erefl _) (or_introl (erefl _)).
by exists out => //; apply: Hpix.
Defined.


(** ** What the parts of the loop body leave alone *)

Section KeepsGeneric.

Variable F : fieldType.
Variable dmt : collaborators F.
Variables (a : args) (inp : inputs F) (cfg : config dmt).
Variable X : Type.
Variable proj : state F -> X.
Implicit Types (s : state F) (r : scene_ref).

Hypothesis proj_calls : forall c s, proj (set_calls c s) = proj s.

Lemma log_keeps_gen c : keeps proj (log c).
Proof. by apply: keeps_modify => s; rewrite proj_calls. Qed.

Lemma render_call_keeps_gen r mode bg_color :
  keeps proj (render_call cfg r mode bg_color).
Proof.
apply: keeps_bind; first exact: get_scene_keeps.
move=> scene; apply: keeps_bind; first exact: keeps_get.
move=> s; apply: keeps_bind; first exact: log_keeps_gen.
by move=> _; apply: keeps_ret.
Qed.

Section Background.

Hypothesis proj_mask : forall v s, proj (set_mask_video v s) = proj s.
Hypothesis proj_bg : forall b s, proj (set_bg b s) = proj s.

Lemma update_background_keeps_gen mesh used_indices :
  keeps proj (update_background dmt mesh used_indices).
Proof.
apply: keeps_bind; first exact: keeps_get.
move=> s; case: (mask_video s) => [[|mask_frame rest]|]; try by [].
apply: keeps_bind; first exact: keeps_modify.
move=> _; apply: keeps_bind; first exact: keeps_lift.
move=> new_points; apply: keeps_bind; first exact: keeps_lift.
move=> new_colors; case: (bg s) => [b|]; last by [].
apply: keeps_bind; first exact: log_keeps_gen.
move=> _; apply: keeps_if; last exact: keeps_modify.
apply: keeps_bind; first exact: log_keeps_gen.
by move=> _; apply: keeps_modify.
Qed.

End Background.

Section Render.

Hypothesis proj_translate :
  forall r offset, keeps proj (@translate_scene F r offset).

Section Plain.

Hypothesis proj_infill :
  forall v s, proj (set_infill_mask_video v s) = proj s.

Lemma write_infill_mask_keeps_gen out_mask_image :
  keeps proj (write_infill_mask dmt out_mask_image).
Proof.
apply: keeps_bind; first exact: keeps_lift.
by move=> frame; apply: keeps_modify.
Qed.

Lemma render_touchly1_keeps_gen r infill bg_color :
  keeps proj (render_touchly1 a inp cfg r infill bg_color).
Proof.
apply: keeps_bind; first exact: render_call_keeps_gen.
move=> buffers; apply: keeps_bind; first exact: keeps_lift.
move=> gain; apply: keeps_bind; first exact: keeps_lift.
move=> out_image; apply: keeps_bind; last by move=> _; apply: keeps_ret.
apply: keeps_if; last exact: keeps_ret.
apply: keeps_bind; first exact: keeps_lift.
move=> img_mask; apply: keeps_bind; first exact: keeps_lift.
by move=> m; apply: write_infill_mask_keeps_gen.
Qed.

Lemma render_stereo_keeps_gen r infill bg_color :
  keeps proj (render_stereo a inp cfg r infill bg_color).
Proof.
rewrite /render_stereo.
apply: keeps_bind; first exact: proj_translate.
move=> _; apply: keeps_bind; first exact: render_call_keeps_gen.
move=> left; apply: keeps_bind; first by apply: keeps_if.
move=> mask1; apply: keeps_bind.
  apply: keeps_if; last exact: keeps_ret.
  apply: keeps_bind; first exact: render_call_keeps_gen.
  move=> buffers; apply: keeps_bind; first exact: keeps_lift.
  by move=> gain; apply: keeps_ret.
move=> depth; apply: keeps_bind; first exact: proj_translate.
move=> _; apply: keeps_bind; first exact: proj_translate.
move=> _; apply: keeps_bind; first exact: render_call_keeps_gen.
move=> right; apply: keeps_bind; first by apply: keeps_if.
move=> mask2; apply: keeps_bind; first exact: keeps_lift.
move=> out_image; apply: keeps_bind; last by move=> _; apply: keeps_ret.
apply: keeps_if; last exact: keeps_ret.
apply: keeps_bind; first exact: keeps_lift.
by move=> m; apply: write_infill_mask_keeps_gen.
Qed.

End Plain.

(** The renders up to the write of the infill mask. *)
Lemma render_touchly1_infill r bg_color s out_image s' :
  render_touchly1 a inp cfg r (infill_mask_video s) bg_color s
  = (Ok out_image, s') ->
  exists2 s1,
    proj s1 = proj s
    & if infill_mask_video s then
        exists m, write_infill_mask dmt m s1 = (Ok tt, s')
      else s' = s1.
Proof.
move=> Hrun.
have [buffers [s1 [H1 {}Hrun]]] := bindM_Ok Hrun.
have P1 := keeps_Ok (render_call_keeps_gen _ _ _) H1.
have [gain [s2 [H2 {}Hrun]]] := bindM_Ok Hrun.
have [_ ?] := lift_Ok H2; subst s2.
have [out [s3 [H3 {}Hrun]]] := bindM_Ok Hrun.
have [_ ?] := lift_Ok H3; subst s3.
have [[] [s4 [H4 [_ ?]]]] := bindM_Ok Hrun; subst s4.
exists s1 => //; move: H4; case: (isSome _) => [H4|[]//].
have [img_mask [s5 [H5 {}H4]]] := bindM_Ok H4.
have [_ ?] := lift_Ok H5; subst s5.
have [m [s6 [H6 {}H4]]] := bindM_Ok H4.
have [_ ?] := lift_Ok H6; subst s6.
by exists m.
Qed.

Lemma render_stereo_infill r bg_color s out_image s' :
  render_stereo a inp cfg r (infill_mask_video s) bg_color s
  = (Ok out_image, s') ->
  exists2 s1,
    proj s1 = proj s
    & if infill_mask_video s then
        exists m, write_infill_mask dmt m s1 = (Ok tt, s')
      else s' = s1.
Proof.
rewrite /render_stereo => Hrun.
have [[] [s1 [H1 {}Hrun]]] := bindM_Ok Hrun.
have P1 := keeps_Ok (proj_translate _ _) H1.
have [left [s2 [H2 {}Hrun]]] := bindM_Ok Hrun.
have P2 := keeps_Ok (render_call_keeps_gen _ _ _) H2.
have [mask1 [s3 [H3 {}Hrun]]] := bindM_Ok Hrun.
have P3 : proj s3 = proj s2.
  by apply: keeps_Ok H3; apply: keeps_if; [apply: keeps_lift | apply: keeps_ret].
have [depth [s4 [H4 {}Hrun]]] := bindM_Ok Hrun.
have P4 : proj s4 = proj s3.
  apply: keeps_Ok H4; apply: keeps_if; last exact: keeps_ret.
  apply: keeps_bind; first exact: render_call_keeps_gen.
  move=> buffers; apply: keeps_bind; first exact: keeps_lift.
  by move=> gain; apply: keeps_ret.
have [[] [s5 [H5 {}Hrun]]] := bindM_Ok Hrun.
have P5 := keeps_Ok (proj_translate _ _) H5.
have [[] [s6 [H6 {}Hrun]]] := bindM_Ok Hrun.
have P6 := keeps_Ok (proj_translate _ _) H6.
have [right [s7 [H7 {}Hrun]]] := bindM_Ok Hrun.
have P7 := keeps_Ok (render_call_keeps_gen _ _ _) H7.
have [mask2 [s8 [H8 {}Hrun]]] := bindM_Ok Hrun.
have P8 : proj s8 = proj s7.
  by apply: keeps_Ok H8; apply: keeps_if; [apply: keeps_lift | apply: keeps_ret].
have [out [s9 [H9 {}Hrun]]] := bindM_Ok Hrun.
have [_ ?] := lift_Ok H9; subst s9.
have [[] [s10 [H10 [_ ?]]]] := bindM_Ok Hrun; subst s10.
exists s8; first by rewrite P8 P7 P6 P5 P4 P3 P2 P1.
move: H10; case: (isSome _) => [H10|[]//].
have [m [s11 [H11 {}H10]]] := bindM_Ok H10.
have [_ ?] := lift_Ok H11; subst s11.
by exists m.
Qed.

End Render.

End KeepsGeneric.

(** ** The frames of a run, counted *)

Section StepEffect.

Variable F : fieldType.
Variable dmt : collaborators F.
Variables (a : args) (inp : inputs F) (cfg : config dmt).
Implicit Types (s : state F) (r : scene_ref).

Local Notation fast := (~~ transformations cfg && touchly1 a).

(** The side of the state the videos are read from and written to. *)
Local Notation video_side :=
  (fun s : state F => (frame_n s, color_video s, out s, infill_mask_video s)).

Local Notation write_side :=
  (fun s : state F => (frame_n s, color_video s, out s)).

Lemma translate_scene_keeps_video r offset :
  keeps video_side (@translate_scene F r offset).
Proof. by apply: keeps_modify => s; case: r. Qed.

Lemma translate_scene_keeps_write r offset :
  keeps write_side (@translate_scene F r offset).
Proof. by apply: keeps_modify => s; case: r. Qed.

Lemma read_color_frame_effect rgb s color_frame s1 :
  @read_color_frame F rgb s = (Ok color_frame, s1) ->
  [/\ color_video s1 = omap behead (color_video s),
      (frame_n s1, out s1, infill_mask_video s1)
      = (frame_n s, out s, infill_mask_video s)
    & color_frame = if color_video s is Some (frame :: _)
                    then map_image bgr2rgb frame else rgb].
Proof.
rewrite /read_color_frame /bindM /get /=.
case E: (color_video s) => [[|frame rest]|] //=; last by case=> <- <-.
by rewrite /modify /=; case: ifP => // _ [<- <-].
Qed.

Lemma finish_effect out_image s ctl s' :
  @finish F a out_image s = (Ok ctl, s') ->
  s' = set_out (rcons (out s) (map_image rgb2bgr out_image)) s
  /\ ctl = (if past_max_frames a s then Break else Next).
Proof. by case=> <- <-. Qed.

Lemma write_infill_mask_effect m s s' :
  write_infill_mask dmt m s = (Ok tt, s') ->
  write_side s' = write_side s
  /\ omap size (infill_mask_video s') = omap succn (omap size (infill_mask_video s)).
Proof.
move=> Hrun; have [frame [s1 [H1 H2]]] := bindM_Ok Hrun.
case: H2 => <-; have [_ ->] := lift_Ok H1; split=> //=.
by case: (infill_mask_video s) => //= v; rewrite size_rcons.
Qed.

(** A render that completes adds one frame to the infill mask video, if
    there is one, and leaves the other videos and the counter as they
    are. *)
Lemma render_effect r bg_color s out_image s' :
  (if touchly1 a
   then render_touchly1 a inp cfg r (infill_mask_video s) bg_color
   else render_stereo a inp cfg r (infill_mask_video s) bg_color) s
  = (Ok out_image, s') ->
  write_side s' = write_side s
  /\ omap size (infill_mask_video s')
     = omap succn (omap size (infill_mask_video s)).
Proof.
move=> Hrun.
have [s1 [P1 Hinf]] :
  exists s1, video_side s1 = video_side s
             /\ if infill_mask_video s then
                  exists m, write_infill_mask dmt m s1 = (Ok tt, s')
                else s' = s1.
  case: (touchly1 a) Hrun => Hrun.
    have [s1 P1 H1] :=
      render_touchly1_infill (proj := video_side) (fun _ _ => erefl) Hrun.
    by exists s1.
  have [s1 P1 H1] :=
    render_stereo_infill (proj := video_side) (fun _ _ => erefl)
      (@translate_scene_keeps_video) Hrun.
  by exists s1.
move: P1 Hinf => [En Ec Eo Ei].
case Hi: (infill_mask_video s) => [v|] /=; last first.
  by move=> ->; rewrite En Ec Eo Ei Hi.
move=> [m /write_infill_mask_effect [[-> -> ->] ->]].
by rewrite En Ec Eo Ei Hi.
Qed.

(** A pass of the loop body that completes: the counter stays, the loop
    goes on unless the counter is past [max_frames], one color frame is
    read, one frame is written unless the background is being saved,
    and one infill mask frame when the frame was rendered. *)
Lemma step_effect raw_frame s ctl s' :
  step a inp cfg raw_frame s = (Ok ctl, s') ->
  [/\ frame_n s' = frame_n s,
      ctl = (if past_max_frames a s then Break else Next),
      color_video s' = omap behead (color_video s),
      size (out s') = size (out s) + (fast || ~~ save_background a)
    & omap size (infill_mask_video s')
      = omap (addn (~~ fast && ~~ save_background a))
          (omap size (infill_mask_video s))].
Proof.
rewrite /step => Hrun.
have [color_frame [s1 [H1 {}Hrun]]] := bindM_Ok Hrun.
have [Ec [En Eo Ei] _] := read_color_frame_effect H1.
have Epast : past_max_frames a s1 = past_max_frames a s.
  by rewrite /past_max_frames En.
have [depth [s2 [H2 {}Hrun]]] := bindM_Ok Hrun.
have [_ ?] := lift_Ok H2; subst s2.
have Esz (v : option (seq (image bgr_pixel))) :
  omap size v = omap (addn false) (omap size v) by case: v.
case: ifP Hrun => [Hfast|_] Hrun.
  have [out_image [s3 [H3 {}Hrun]]] := bindM_Ok Hrun.
  have [_ ?] := lift_Ok H3; subst s3.
  have [-> ->] := finish_effect Hrun; rewrite /= size_rcons Eo En Ec Ei Epast.
  by rewrite addn1; split.
have [s0 [s3 [[? ?] {}Hrun]]] := bindM_Ok Hrun; subst s0 s3.
have [tz [s4 [H4 {}Hrun]]] := bindM_Ok Hrun.
have P4 : video_side s4 = video_side s1.
  apply: (keeps_Ok (proj := video_side) _ H4).
  by case: (transformations cfg) => [ts|];
    [exact: keeps_lift | exact: keeps_ret].
move: Hrun; case: (get_mesh_from_depth_map _ _ _ _ _ _) => mesh0 used Hrun.
have [[] [s5 [[?] {}Hrun]]] := bindM_Ok Hrun; subst s5.
have [[] [s6 [H6 {}Hrun]]] := bindM_Ok Hrun.
have P6 : video_side s6 = video_side s1.
  rewrite -P4.
  exact: (keeps_Ok (proj := video_side)
            (update_background_keeps_gen dmt (proj := video_side)
               (fun _ _ => erefl) (fun _ _ => erefl) (fun _ _ => erefl) _ _)
            H6).
move: P6 => [En6 Ec6 Eo6 Ei6].
have Epast6 : past_max_frames a s6 = past_max_frames a s.
  by rewrite /past_max_frames En6 En.
have [s0 [s7 [[? ?] {}Hrun]]] := bindM_Ok Hrun; subst s0 s7.
case Hsave: (save_background a) Hrun => Hrun.
  case: Hrun => <- <-; rewrite En6 Ec6 Eo6 Ei6 En Ec Eo Ei Epast6 addn0.
  by split.
have [out_image [s8 [H8 {}Hrun]]] := bindM_Ok Hrun.
have [-> ->] := finish_effect Hrun; rewrite /= size_rcons.
rewrite -Ei6 in H8.
have [[En8 Ec8 Eo8] Ei8] := render_effect H8.
have -> : past_max_frames a s8 = past_max_frames a s.
  by rewrite /past_max_frames En8 En6 En.
by rewrite En8 Ec8 Eo8 Ei8 En6 Ec6 Eo6 Ei6 En Ec Eo Ei addn1; split.
Qed.

Lemma frames_done_nil n0 : frames_done a n0 0 = 0.
Proof. by rewrite /frames_done min0n; case: ifP. Qed.

Lemma frames_done_next n0 N s :
  frame_n s = n0.+1 -> past_max_frames a s = false ->
  frames_done a n0 N.+1 = (frames_done a n0.+1 N).+1.
Proof.
rewrite /past_max_frames /frames_done => ->.
case: Z.eqb_spec => // Hm1; rewrite andbT => /Z.ltb_ge Hm.
rewrite -minnSS; congr (minn _ _.+1).
by apply/eqP; rewrite eqn_leq; apply/andP; split; apply/leP; lia.
Qed.

Lemma frames_done_break n0 N s :
  frame_n s = n0.+1 -> past_max_frames a s = true ->
  frames_done a n0 N.+1 = 1.
Proof.
rewrite /past_max_frames /frames_done => ->.
case: Z.eqb_spec => [|Hm1]; first by rewrite andbF.
rewrite andbT => /Z.ltb_lt Hm.
have -> : Z.to_nat (max_frames a - Z.of_nat n0) = 0 by lia.
by rewrite /minn ltnS; case: N.
Qed.

(** A run that no exception ends. *)
Lemma run_loop_effect frames s s' :
  run_loop a inp cfg frames s = (None, s') ->
  let d := frames_done a (frame_n s) (size frames) in
  [/\ size (out s') = size (out s) + (fast || ~~ save_background a) * d,
      color_video s' = omap (drop d) (color_video s)
    & omap size (infill_mask_video s')
      = omap (addn ((~~ fast && ~~ save_background a) * d))
          (omap size (infill_mask_video s))].
Proof.
elim: frames s => [|raw_frame rest IH] s /=.
  case=> <-; rewrite frames_done_nil !muln0 addn0 /=.
  by split=> //; [case: (color_video s) => //= v; rewrite drop0
                 | case: (infill_mask_video s)].
set s1 := set_frame_n _ s.
case E: (step a inp cfg raw_frame s1) => [[[|]|e] s2] //.
  have [En Ectl Ec Eo Ei] := step_effect E.
  have Hpast : past_max_frames a s1 = false.
    by move: Ectl; case: (past_max_frames a s1).
  move=> /IH; rewrite En /= => -[-> -> ->].
  rewrite (frames_done_next _ (erefl : frame_n s1 = _) Hpast) Ec Eo Ei /=.
  rewrite mulnS addnA; split=> //.
    by case: (color_video s) => [[|x v]|].
  by case: (infill_mask_video s) => //= v; rewrite mulnS addnA [_ * _ + _]addnC.
have [En Ectl Ec Eo Ei] := step_effect E.
have Hpast : past_max_frames a s1 = true.
  by move: Ectl; case: (past_max_frames a s1).
case=> <-; rewrite (frames_done_break _ (erefl : frame_n s1 = _) Hpast).
rewrite Ec Eo Ei /= !muln1; split=> //.
by case: (color_video s) => //= v; rewrite drop1.
Qed.

(** Lines 307 and 395: with [--max_frames m] other than -1 the loop
    breaks after the first frame whose number is above m, so a run that
    no exception ends writes [min(N, max(m, 0) + 1)] frames of the N of
    the depth video, one more than m; with -1 it writes all N.  (With
    [--save_background] and the full pipeline nothing is written.) *)
Theorem max_frames_stops frames s s' :
  frame_n s = 0 ->
  fast || ~~ save_background a ->
  run_loop a inp cfg frames s = (None, s') ->
  size (out s')
  = size (out s)
    + (if (max_frames a =? -1)%Z then size frames
       else minn (size frames) (Z.to_nat (max_frames a)).+1).
Proof.
move=> En Hw /run_loop_effect [-> _ _].
by rewrite Hw mul1n /frames_done En /= Z.sub_0_r.
Qed.

(** The color video is read in step with the depth video: a run that no
    exception ends has read as many color frames as it got through depth
    frames, which is the number of frames it wrote. *)
Theorem color_video_in_step frames s s' :
  fast || ~~ save_background a ->
  run_loop a inp cfg frames s = (None, s') ->
  exists2 d,
    d <= size frames
    & color_video s' = omap (drop d) (color_video s)
      /\ size (out s') = size (out s) + d.
Proof.
move=> Hw /run_loop_effect [Eo Ec _].
exists (frames_done a (frame_n s) (size frames)).
  by rewrite /frames_done; case: ifP => // _; apply: geq_minl.
by rewrite Ec Eo Hw mul1n.
Qed.

(** With [--infill_mask] and the full pipeline the infill mask video
    gets one frame for every frame of the output video. *)
Theorem infill_mask_in_step frames s s' :
  ~~ fast -> ~~ save_background a ->
  infill_mask_video s = Some [::] -> out s = [::] ->
  run_loop a inp cfg frames s = (None, s') ->
  exists2 v, infill_mask_video s' = Some v & size v = size (out s').
Proof.
move=> Hf Hs Hi Ho /run_loop_effect [Eo _].
rewrite Eo Hi Ho Hf Hs (negbTE Hf) /= !mul1n add0n addn0.
by case: (infill_mask_video s') => // v [E]; exists v.
Qed.

End StepEffect.

Section RunExamples.

Lemma max_frames_stops_witness :
  let res := run_loop sample_args_max3 sample_inputs sample_config
               (nseq 5 sample_frame) sample_state0 in
  res.1 = None /\ size (out res.2) = 4.
Proof.
move=> res; have He : res.1 = None by vm_compute.
split; first exact: He.
case E: res He => [e s'] /= He; rewrite He in E.
by rewrite (@max_frames_stops rat sample_tools sample_args_max3 sample_inputs
              sample_config (nseq 5 sample_frame) sample_state0 s'
              (erefl _) (erefl _) E).
Defined.

Lemma color_video_in_step_witness :
  let s0 := set_color_video (Some (nseq 3 sample_frame)) sample_state0 in
  let res := run_loop sample_args sample_inputs sample_config
               (nseq 2 sample_frame) s0 in
  res.1 = None
  /\ exists2 d, d <= 2
       & color_video res.2 = Some (nseq (3 - d) sample_frame)
         /\ size (out res.2) = d.
Proof.
move=> s0 res; have He : res.1 = None by vm_compute.
split; first exact: He.
case E: res He => [e s'] /= He; rewrite He in E.
have [d Hd [Ec Eo]] :=
  @color_video_in_step rat sample_tools sample_args sample_inputs
    sample_config (nseq 2 sample_frame) s0 s' (erefl _) E.
exists d; first exact: Hd.
split; last by rewrite Eo; exact: add0n.
by rewrite Ec; exact: (congr1 Some (drop_nseq d 3 sample_frame)).
Defined.

Lemma infill_mask_in_step_witness :
  let s0 := set_infill_mask_video (Some [::]) sample_state0 in
  let res := run_loop sample_args_infill sample_inputs sample_config
               (nseq 2 sample_frame) s0 in
  res.1 = None
  /\ exists2 v, infill_mask_video res.2 = Some v & size v = size (out res.2).
Proof.
move=> s0 res; have He : res.1 = None by vm_compute.
split; first exact: He.
case E: res He => [e s'] /= He; rewrite He in E.
exact: (@infill_mask_in_step rat sample_tools sample_args_infill sample_inputs
          sample_config (nseq 2 sample_frame) s0 s' (erefl _) (erefl _)
          (erefl _) (erefl _) E).
Defined.

End RunExamples.

(** ** What the fast path and [--save_background] write *)

Section WrittenFrames.

Variable F : fieldType.
Variable dmt : collaborators F.
Variables (a : args) (inp : inputs F) (cfg : config dmt).
Implicit Types (s : state F) (r : scene_ref).

Local Notation fast := (~~ transformations cfg && touchly1 a).

Lemma map_image_comp (A B C : Type) (f : A -> B) (g : B -> C) (img : image A) :
  map_image g (map_image f img) = map_image (g \o f) img.
Proof.
by rewrite /map_image -map_comp; apply: eq_map => row /=; rewrite -map_comp.
Qed.

(** [cv2.COLOR_BGR2RGB] and back. *)
Lemma bgr2rgbK : cancel bgr2rgb rgb2bgr.
Proof. by case. Qed.

Lemma map_image_bgr2rgbK (img : image bgr_pixel) :
  map_image rgb2bgr (map_image bgr2rgb img) = img.
Proof.
rewrite map_image_comp /map_image -[RHS]map_id; apply: eq_map => row.
by rewrite -[RHS]map_id; apply: eq_map => p /=; rewrite bgr2rgbK.
Qed.

(** Lines 227-250 and 393: on the fast path the frame that is written
    is the color frame as it was read, untouched, above the depth frame
    recoded pixel by pixel; without a color video the upper half is the
    input frame itself. *)
Theorem fast_path_frame raw_frame s ctl s' :
  fast ->
  step a inp cfg raw_frame s = (Ok ctl, s') ->
  exists2 gain,
    Touchly.depth_gain (touchly_max_depth a) = Ok gain
    & let color := if color_video s is Some (frame :: _) then frame
                   else raw_frame in
      let recode p :=
        rgb2bgr (Touchly.fast_depth (touchly_max_depth a) gain
                   (DepthCodec.decode (max_depth a) (bgr2rgb p))) in
      out s' = rcons (out s) (color ++ map_image recode raw_frame).
Proof.
move=> Hfast; rewrite /step Hfast => Hrun.
have [color_frame [s1 [H1 {}Hrun]]] := bindM_Ok Hrun.
have [_ [_ Eo _] Ecolor] := read_color_frame_effect H1.
have [depth [s2 [H2 {}Hrun]]] := bindM_Ok Hrun.
have [Hdepth ?] := lift_Ok H2; subst s2.
have [out_image [s3 [H3 {}Hrun]]] := bindM_Ok Hrun.
have [Hfp ?] := lift_Ok H3; subst s3.
have [-> _] := finish_effect Hrun; rewrite /= Eo.
move: Hdepth; rewrite /DepthCodec.decode_frame; case: ifP => // _ [Ed].
move: Hfp; rewrite /fast_path.
case: (Touchly.depth_gain _) => [gain|e] //= Hfp; exists gain => //.
move: Hfp; rewrite /assemble_mono /vconcat; case: ifP => // _ [<-].
rewrite /= cats0 /map_image map_cat -!/(map_image _ _); congr (rcons _ (_ ++ _)).
  rewrite Ecolor; case: (color_video s) => [[|frame rest]|];
    exact: map_image_bgr2rgbK.
by rewrite -Ed !map_image_comp.
Qed.

(** The loop, whatever ends it, keeps what every pass keeps. *)
Lemma run_loop_keeps X (proj : state F -> X) :
  (forall n s, proj (set_frame_n n s) = proj s) ->
  (forall raw_frame, keeps proj (step a inp cfg raw_frame)) ->
  forall frames s, proj (run_loop a inp cfg frames s).2 = proj s.
Proof.
move=> Hn Hstep; elim=> [|raw_frame rest IH] s /=; first exact: Hn.
have := Hstep raw_frame (set_frame_n (frame_n s).+1 s).
case: (step _ _ _ _ _) => [[[|]|e] s2] /=; rewrite Hn => E //.
by rewrite IH.
Qed.

Lemma finish_keeps_gen X (proj : state F -> X) out_image :
  (forall o s, proj (set_out o s) = proj s) ->
  keeps proj (@finish F a out_image).
Proof.
move=> Hout; apply: keeps_bind; first exact: keeps_modify.
by move=> _; apply: keeps_bind; [apply: keeps_get | move=> ?; apply: keeps_ret].
Qed.

Lemma read_color_frame_keeps_gen X (proj : state F -> X) rgb :
  (forall v s, proj (set_color_video v s) = proj s) ->
  keeps proj (@read_color_frame F rgb).
Proof.
move=> Hcolor; apply: keeps_bind; first exact: keeps_get.
move=> s; case: (color_video s) => [[|frame rest]|]; try by [].
apply: keeps_bind; first exact: keeps_modify.
by move=> _; apply: keeps_if.
Qed.

Lemma step_fast_keeps_gen X (proj : state F -> X) raw_frame :
  fast ->
  (forall v s, proj (set_color_video v s) = proj s) ->
  (forall o s, proj (set_out o s) = proj s) ->
  keeps proj (step a inp cfg raw_frame).
Proof.
move=> Hfast Hcolor Hout; rewrite /step Hfast.
apply: keeps_bind; first exact: read_color_frame_keeps_gen.
move=> color_frame; apply: keeps_bind; first exact: keeps_lift.
move=> depth; apply: keeps_bind; first exact: keeps_lift.
by move=> out_image; apply: finish_keeps_gen.
Qed.

Lemma step_save_keeps_gen X (proj : state F -> X) raw_frame :
  ~~ fast -> save_background a ->
  (forall v s, proj (set_color_video v s) = proj s) ->
  (forall m s, proj (set_last_mesh m s) = proj s) ->
  (forall mesh used, keeps proj (update_background dmt mesh used)) ->
  keeps proj (step a inp cfg raw_frame).
Proof.
move=> /negbTE Hfast Hsave Hcolor Hmesh Hbg; rewrite /step Hfast Hsave.
apply: keeps_bind; first exact: read_color_frame_keeps_gen.
move=> color_frame; apply: keeps_bind; first exact: keeps_lift.
move=> depth; apply: keeps_bind; first exact: keeps_get.
move=> s0; apply: keeps_bind.
  by case: (transformations cfg) => [ts|]; [apply: keeps_lift | apply: keeps_ret].
move=> tz; case: (get_mesh_from_depth_map _ _ _ _ _ _) => mesh0 used.
apply: keeps_bind; first exact: keeps_modify.
move=> _; apply: keeps_bind; first exact: Hbg.
by move=> _; apply: keeps_bind; [apply: keeps_get | move=> ?; apply: keeps_ret].
Qed.

(** On the fast path the infill mask video never gets a frame, also when
    [--infill_mask] opened it: the run ends, by the end of the video, a
    break or an exception, with the infill mask video as it was. *)
Theorem fast_path_writes_no_infill_mask frames s :
  fast ->
  infill_mask_video (run_loop a inp cfg frames s).2 = infill_mask_video s.
Proof.
move=> Hfast; apply: (run_loop_keeps (proj := @infill_mask_video F)) => //.
by move=> raw_frame; apply: step_fast_keeps_gen.
Qed.

(** With [--save_background] and the full pipeline line 309 goes on to
    the next frame before anything is rendered: no frame is written to
    the output video or to the infill mask video, however the run
    ends. *)
Theorem save_background_writes_no_frame frames s :
  ~~ fast -> save_background a ->
  let s' := (run_loop a inp cfg frames s).2 in
  out s' = out s /\ infill_mask_video s' = infill_mask_video s.
Proof.
move=> Hfast Hsave.
pose side := fun s : state F => (out s, infill_mask_video s).
have Hstep raw_frame : keeps side (step a inp cfg raw_frame).
  apply: step_save_keeps_gen => // mesh used.
  exact: (update_background_keeps_gen dmt (proj := side)
            (fun _ _ => erefl) (fun _ _ => erefl) (fun _ _ => erefl)).
by case: (run_loop_keeps (proj := side) (fun _ _ => erefl) Hstep frames s).
Qed.

(** A pass of the loop body that raises has written no frame: the write
    to the output video comes last, after everything that can fail. *)
Theorem failed_frame_not_written raw_frame s e s' :
  step a inp cfg raw_frame s = (Raise e, s') -> out s' = out s.
Proof.
pose Q := fun s' : state F => out s' = out s.
have Kbind A B (m : M F A) (k : A -> M F B) s0 :
    out s0 = out s -> keeps (@out F) m ->
    (forall x s1, out s1 = out s -> post (k x) s1 (fun _ _ => True) Q) ->
    post (bindM m k) s0 (fun _ _ => True) Q.
  move=> E0 Km Hk; apply: post_bind; apply: (post_keeps Km).
    by move=> x s1 E1; apply: Hk; rewrite E1.
  by move=> s1 E1; rewrite /Q E1.
have Kfinish out_image s0 : post (@finish F a out_image) s0 (fun _ _ => True) Q.
  by rewrite /post.
suff Hpost : post (step a inp cfg raw_frame) s (fun _ _ => True) Q.
  by move=> E; move: Hpost; rewrite /post E.
have E0 : out s = out s by [].
rewrite /step; apply: (Kbind _ _ _ _ _ E0).
  by apply: read_color_frame_keeps_gen.
move=> color_frame s1 E1; apply: (Kbind _ _ _ _ _ E1); first exact: keeps_lift.
move=> depth s2 E2; case: ifP => _.
  apply: (Kbind _ _ _ _ _ E2); first exact: keeps_lift.
  by move=> *; apply: (Kfinish _).
apply: (Kbind _ _ _ _ _ E2); first exact: keeps_get.
move=> s0 s3 E3; apply: (Kbind _ _ _ _ _ E3).
  by case: (transformations cfg) => [ts|]; [apply: keeps_lift | apply: keeps_ret].
move=> tz s4 E4; case: (get_mesh_from_depth_map _ _ _ _ _ _) => mesh0 used.
apply: (Kbind _ _ _ _ _ E4); first exact: keeps_modify.
move=> _ s5 E5; apply: (Kbind _ _ _ _ _ E5).
  exact: update_background_keeps_out.
move=> _ s6 E6; apply: (Kbind _ _ _ _ _ E6); first exact: keeps_get.
move=> s7 s8 E8; case: ifP => _; first exact: post_ret.
apply: (Kbind _ _ _ _ _ E8); last by move=> *; apply: (Kfinish _).
by case: (touchly1 a);
  [apply: render_touchly1_keeps_out | apply: render_stereo_keeps_out].
Qed.

End WrittenFrames.

Section WrittenFramesExamples.

Lemma fast_path_frame_witness :
  let res := step sample_args_touchly1 sample_inputs sample_config
               sample_frame sample_state1 in
  is_ok res.1
  /\ out res.2
     = [:: sample_frame ++ [:: [:: BGR 255 255 255; BGR 0 0 0]]].
Proof.
move=> res; have Hok : is_ok res.1 by vm_compute.
split; first exact: Hok.
case E: res Hok => [[ctl|e] s'] //= _.
have [gain Hgain ->] :=
  @fast_path_frame rat sample_tools sample_args_touchly1 sample_inputs
    sample_config sample_frame sample_state1 ctl s' (erefl _) E.
have [<-] : Ok (inject_Z 255 / 5)%Q = Ok gain := Hgain.
by vm_compute.
Defined.

Lemma fast_path_writes_no_infill_mask_witness :
  let s0 := set_infill_mask_video (Some [::]) sample_state0 in
  let res := run_loop sample_args_touchly1 sample_inputs sample_config
               (nseq 2 sample_frame) s0 in
  infill_mask_video res.2 = Some [::].
Proof.
move=> s0 res.
exact: (@fast_path_writes_no_infill_mask rat sample_tools
          sample_args_touchly1 sample_inputs sample_config
          (nseq 2 sample_frame) s0 (erefl _)).
Defined.

Lemma save_background_writes_no_frame_witness :
  let res := run_loop sample_args_save sample_inputs sample_config
               (nseq 2 sample_frame) sample_state0 in
  out res.2 = [::] /\ infill_mask_video res.2 = None.
Proof.
move=> res.
exact: (@save_background_writes_no_frame rat sample_tools sample_args_save
          sample_inputs sample_config (nseq 2 sample_frame) sample_state0
          (erefl _) (erefl _)).
Defined.

Lemma failed_frame_not_written_witness :
  let s0 := set_mask_video (Some [::]) sample_state1 in
  let res := step sample_args sample_inputs sample_config sample_frame s0 in
  res.1 = Raise CvError /\ out res.2 = [::].
Proof.
move=> s0 res; have He : res.1 = Raise CvError by vm_compute.
split; first exact: He.
case E: res He => [[ctl|e] s'] //= _.
exact: (@failed_frame_not_written rat sample_tools sample_args sample_inputs
          sample_config sample_frame s0 e s' E).
Defined.

End WrittenFramesExamples.

(** ** The renders and the background cloud *)

Section RenderFacts.

Variable F : fieldType.
Variable dmt : collaborators F.
Variables (a : args) (inp : inputs F) (cfg : config dmt).
Implicit Types (s : state F) (r : scene_ref).

Local Notation cam := (render_cam_matrix cfg).

Lemma translate_scene_keeps_bg_arrays r offset :
  keeps bg_arrays (@translate_scene F r offset).
Proof.
apply: keeps_modify => s; case: r => //; rewrite /bg_arrays /=.
by case: (bg s).
Qed.

(** The renders move the cloud object, never the accumulated arrays:
    what line 399 saves and what the next frame appends to is not
    displaced by the eye shifts, whether the render returns or
    raises. *)
Theorem renders_keep_bg_arrays r infill bg_color :
  keeps bg_arrays (render_touchly1 a inp cfg r infill bg_color)
  /\ keeps bg_arrays (render_stereo a inp cfg r infill bg_color).
Proof.
split.
  exact: (render_touchly1_keeps_gen a inp cfg (proj := bg_arrays)
            (fun _ _ => erefl) (fun _ _ => erefl)).
exact: (render_stereo_keeps_gen a inp cfg (proj := bg_arrays)
          (fun _ _ => erefl) translate_scene_keeps_bg_arrays
          (fun _ _ => erefl)).
Qed.

(** A render of a scene that is bound returns the buffers of the
    collaborator. *)
Lemma render_call_run r mode bgc s g :
  scene_of r s = Some g ->
  exists2 s1,
    render_call cfg r mode bgc s = (Ok (render dmt [:: g] cam mode bgc), s1)
    & out s1 = out s.
Proof.
rewrite /render_call /get_scene /bindM /get /ret /raise /log /modify /=.
case: r => /=.
  by move=> ->; eexists.
by case: (bg s) => [b|] //= [->]; eexists.
Qed.

Section Mismatch.

Variables W H : nat.
Hypothesis H_pos : 0 < H.
Hypothesis render_dims :
  forall scenes mode bgc,
    has_dims W H (render dmt scenes cam mode bgc).1
    /\ has_dims W H (render dmt scenes cam mode bgc).2.
Hypothesis mismatch : (W != frame_width inp) || (H != frame_height inp).

Lemma infill_plane_mismatch (img : image rgb_pixel) :
  has_dims W H img -> infill_plane inp img = Raise IndexError.
Proof.
move=> Hd; rewrite /infill_plane; case: ifP => // Hd'.
move: mismatch; rewrite -(has_dims_size Hd) (has_dims_size Hd') eqxx orbF.
have HH : 0 < frame_height inp by rewrite -(has_dims_size Hd') (has_dims_size Hd).
rewrite -(EquirectFacts.has_dims_width H_pos Hd).
by rewrite (EquirectFacts.has_dims_width HH Hd') eqxx.
Qed.

(** Lines 331-332, 347-348 and 369-370 mark the render on a plane of the
    size of the input frame: when the render has another size, as the
    1920 x 1920 render of [--vr180] has for most inputs, the first frame
    with an infill mask raises IndexError, and no frame is written. *)
Theorem infill_mask_needs_frame_size r bgc s g :
  scene_of r s = Some g ->
  (let res := render_stereo a inp cfg r true bgc s in
   res.1 = Raise IndexError /\ out res.2 = out s)
  /\ (is_ok (Touchly.depth_gain (touchly_max_depth a)) ->
      let res := render_touchly1 a inp cfg r true bgc s in
      res.1 = Raise IndexError /\ out res.2 = out s).
Proof.
move=> Hg; split.
  have [s1 [E1 Hg1 _ _]] :=
    translate_scene_Ok r (- left_shift F (pupillary_distance a), 0, 0)%R s.
  rewrite Hg /= in Hg1.
  have [s2 E2 Eo2] := render_call_run ColorOnly (Some bgc) Hg1.
  have Eo1 : out s1 = out s.
    exact: (keeps_Ok (translate_scene_keeps_out _ _) E1).
  have [Hd _] := render_dims
    [:: translate (- left_shift F (pupillary_distance a), 0, 0)%R g]
    ColorOnly (Some bgc).
  have Hpl := infill_plane_mismatch (has_dims_map Touchly.color8bit Hd).
  by rewrite /render_stereo /bindM E1 E2 /lift Hpl /= Eo2 Eo1.
case Hgain: (Touchly.depth_gain _) => [gain|e] // _.
have [s2 E2 Eo2] := render_call_run ColorAndDepth (Some bgc) Hg.
have [Hd1 Hd2] := render_dims [:: g] ColorAndDepth (Some bgc).
have Hc := has_dims_map Touchly.color8bit Hd1.
have Hd := has_dims_map (Touchly.rendered_depth (touchly_max_depth a) gain) Hd2.
have Hpl := infill_plane_mismatch Hc.
rewrite /render_touchly1 /bindM E2 /lift Hgain /assemble_mono.
by rewrite (vconcat2 H_pos Hc Hd) Hpl /= Eo2.
Qed.

End Mismatch.

(** Lines 272-302, when they fail: the mask video has no frame left
    (an OpenCV error), a vertex number of the mask is beyond the vertices
    of the mesh (IndexError), or the arrays were never bound (NameError).
    In every case the accumulated cloud is what it was, and nothing was
    handed to [pts_2_pcd] or to the down-sampling. *)
Theorem update_background_failure mesh used_indices s e s' :
  update_background dmt mesh used_indices s = (Raise e, s') ->
  [/\ bg s' = bg s, calls s' = calls s
    & [\/ e = CvError /\ mask_video s = Some [::],
          e = IndexError
        | e = NameError /\ bg s = None]].
Proof.
rewrite /update_background /bindM /get /=.
case Em: (mask_video s) => [[|mask_frame rest]|] //=.
  by rewrite /raise => -[<- <-]; split=> //; apply: Or31.
rewrite /lift.
have Htake T (arr : seq T) idx e0 : py_take arr idx = Raise e0 -> e0 = IndexError.
  elim: idx => [|i idx IH] //=.
  case: (ohead _) => [x|]; last by case: (py_take arr idx) => [xs|e1] [].
  by case: (py_take arr idx) IH => [xs|e1] // IH [<-]; apply: IH.
case Ep: (py_take (points mesh) _) => [new_points|e1] /=; last first.
  by move=> [<- <-]; split=> //; apply: Or32; apply: Htake Ep.
case Ec: (py_take (colors mesh) _) => [new_colors|e1] /=; last first.
  by move=> [<- <-]; split=> //; apply: Or32; apply: Htake Ec.
case Eb: (bg s) => [b|] /=; last first.
  by rewrite /raise => -[<- <-]; split=> //=; apply: Or33.
by rewrite /log /modify /=; case: ifP.
Qed.

End RenderFacts.

Section EyeSeparation.

Variable F : fieldType.
Variable dmt : collaborators F.
Variables (a : args) (inp : inputs F) (cfg : config dmt).
Implicit Types (s : state F) (r : scene_ref).

Local Open Scope ring_scope.
Import GRing.Theory.

Hypothesis two_neq0 : (2%:R : F) != 0.

Lemma shift_twice :
  right_shift F (pupillary_distance a) + right_shift F (pupillary_distance a)
  = ZtoF F (pupillary_distance a) / 1000%:R.
Proof. by rewrite /right_shift -mulr2n -mulr_natr divfK. Qed.

(** Lines 214-215, 342 and 361-365: the scene of the left-eye render is
    the scene of the right-eye render moved by the whole pupillary
    distance, pd/1000 along x; the depth of the 3-in-1 format is
    rendered from the left-eye pose. *)
Theorem eyes_are_pd_apart r infill bgc s out_image s' :
  render_stereo a inp cfg r infill bgc s = (Ok out_image, s') ->
  exists g_right,
    let g_left :=
      translate (ZtoF F (pupillary_distance a) / 1000%:R, 0, 0) g_right in
    calls s'
    = calls s
      ++ CallRender (frame_n s) [:: g_left] ColorOnly
         :: (if touchly0 a then [:: CallRender (frame_n s) [:: g_left] DepthOnly]
             else [::])
      ++ [:: CallRender (frame_n s) [:: g_right] ColorOnly].
Proof.
move=> Hrun.
have [g Hg] : exists g, scene_of r s = Some g.
  case Hg: (scene_of r s) => [g|]; first by exists g.
  move: Hrun; rewrite /render_stereo => Hrun.
  have [[] [s1 [H1 {}Hrun]]] := bindM_Ok Hrun.
  have [s1' [E1 Hg1 _ _]] :=
    translate_scene_Ok r (- left_shift F (pupillary_distance a), 0, 0) s.
  move: H1; rewrite E1 => -[?]; subst s1'; rewrite Hg /= in Hg1.
  have [left [s2 [Hleft _]]] := bindM_Ok Hrun.
  have [g2 [Hg2 _ _ _]] := render_call_Ok Hleft.
  by move: Hg2; rewrite Hg1.
have [_ Hcalls _] := render_stereo_Ok Hg Hrun.
set shift := right_shift F (pupillary_distance a) in Hcalls.
exists (translate (- shift, 0, 0) g); rewrite /= translate_translate.
have -> : vadd (- shift, 0, 0) (ZtoF F (pupillary_distance a) / 1000%:R, 0, 0)
          = (shift, 0, 0) :> vec3 F.
  by rewrite /vadd -shift_twice -/shift addrA addNr !add0r.
exact: Hcalls.
Qed.

End EyeSeparation.

Section RenderExamples.

Local Open Scope ring_scope.

Lemma infill_mask_needs_frame_size_witness :
  let inp := @Inputs rat [::] 3 1 None None None None in
  (render_stereo sample_args inp sample_config FrameMesh true (0, 1, 0)%Q
     sample_state).1
  = Raise IndexError.
Proof.
move=> inp.
have [[E _] _] :=
  @infill_mask_needs_frame_size rat sample_tools sample_args inp sample_config
    2 1 (erefl _) (fun _ _ _ => conj (erefl _) (erefl _)) (erefl _)
    FrameMesh (0, 1, 0)%Q sample_state sample_mesh (erefl _).
exact: E.
Defined.

Lemma update_background_failure_witness :
  let s0 := set_mask_video (Some [::]) sample_state1 in
  let res := update_background sample_tools sample_mesh [:: 0%nat] s0 in
  res.1 = Raise CvError /\ bg res.2 = bg s0 /\ calls res.2 = [::].
Proof.
move=> s0 res; have He : res.1 = Raise CvError by [].
split; first exact: He.
case E: res He => [[[]|e] s'] //= _.
have [Hb Hc _] :=
  @update_background_failure rat sample_tools sample_mesh [:: 0%nat] s0 e s' E.
by split.
Defined.

Lemma eyes_are_pd_apart_witness :
  let res := render_stereo sample_args sample_inputs sample_config FrameMesh
               false (0, 0, 0)%Q sample_state in
  exists g_right,
    calls res.2
    = [:: CallRender 1 [:: translate (63%:R / 1000%:R, 0, 0) g_right] ColorOnly;
          CallRender 1 [:: g_right] ColorOnly].
Proof.
move=> res.
have Hok : is_ok res.1 by [].
case E: res Hok => [[out_image|e] s'] //= _.
have H2 : (2%:R : rat) != 0 by [].
exact: (@eyes_are_pd_apart rat sample_tools sample_args sample_inputs
          sample_config H2 FrameMesh false (0, 0, 0)%Q sample_state
          out_image s' E).
Defined.

End RenderExamples.

(** ** [--save_background] without a mask video *)

Section SaveBackground.

Variable F : fieldType.
Variable dmt : collaborators F.
Implicit Types (a : args) (inp : inputs F) (s : state F).

Local Notation cloud_side :=
  (fun s : state F => (mask_video s, bg s)).

Lemma update_background_no_mask mesh used_indices s :
  mask_video s = None ->
  update_background dmt mesh used_indices s = (Ok tt, s).
Proof. by rewrite /update_background /bindM /get /= => ->. Qed.

(** Without a mask video a pass of the loop that does not render leaves
    the cloud unbound. *)
Lemma step_save_no_mask a inp (cfg : config dmt) raw_frame s :
  save_background a -> mask_video s = None ->
  cloud_side (step a inp cfg raw_frame s).2 = cloud_side s.
Proof.
move=> Hsave Hmask.
pose Q := fun s' : state F => cloud_side s' = cloud_side s.
have Kbind A B (m : M F A) (k : A -> M F B) s0 :
    cloud_side s0 = cloud_side s -> keeps cloud_side m ->
    (forall x s1, cloud_side s1 = cloud_side s -> post (k x) s1 (fun _ => Q) Q) ->
    post (bindM m k) s0 (fun _ => Q) Q.
  move=> E0 Km Hk; apply: post_bind; apply: (post_keeps Km).
    by move=> x s1 E1; apply: Hk; rewrite E1.
  by move=> s1 E1; rewrite /Q E1.
have Kfinish out_image s0 :
    cloud_side s0 = cloud_side s ->
    post (@finish F a out_image) s0 (fun _ => Q) Q.
  by move=> E0; rewrite /post /Q /= -E0.
suff : post (step a inp cfg raw_frame) s (fun _ => Q) Q.
  by rewrite /post; case: (step _ _ _ _ _) => [[ctl|e] s'].
have E0 : cloud_side s = cloud_side s by [].
rewrite /step; apply: (Kbind _ _ _ _ _ E0).
  by apply: read_color_frame_keeps_gen.
move=> color_frame s1 E1; apply: (Kbind _ _ _ _ _ E1); first exact: keeps_lift.
move=> depth s2 E2; case: ifP => _.
  apply: (Kbind _ _ _ _ _ E2); first exact: keeps_lift.
  by move=> out_image s3 E3; apply: (Kfinish _ _ E3).
apply: (Kbind _ _ _ _ _ E2); first exact: keeps_get.
move=> s0 s3 E3; apply: (Kbind _ _ _ _ _ E3).
  by case: (transformations cfg) => [ts|]; [apply: keeps_lift | apply: keeps_ret].
move=> tz s4 E4; case: (get_mesh_from_depth_map _ _ _ _ _ _) => mesh0 used.
apply: (Kbind _ _ _ _ _ E4); first exact: keeps_modify.
move=> _ s5 E5; apply: post_bind.
have Hm5 : mask_video s5 = None by case: E5 => -> _.
rewrite /post (update_background_no_mask _ _ Hm5).
apply: (Kbind _ _ _ _ _ E5); first exact: keeps_get.
by move=> s6 s7 E7; rewrite Hsave; apply: post_ret.
Qed.

Lemma run_loop_save_no_mask a inp (cfg : config dmt) frames s :
  save_background a -> mask_video s = None ->
  cloud_side (run_loop a inp cfg frames s).2 = cloud_side s.
Proof.
move=> Hsave; elim: frames s => [|raw_frame rest IH] s Hmask //=.
set s1 := set_frame_n _ s.
have := @step_save_no_mask a inp cfg raw_frame s1 Hsave Hmask.
case: (step _ _ _ _ _) => [[[|]|e] s2] //= E.
by rewrite IH //; case: E => ->.
Qed.

(** Lines 202-211 and 398-399: the arrays of the background are bound
    only when a mask video is given.  With [--save_background] and no
    [--mask_video] nothing is ever saved: a run that gets through its
    frames ends at line 399 with a NameError. *)
Theorem save_background_needs_mask_video a inp o :
  save_background a -> mask_video_file inp = None ->
  main dmt a inp = Ok o ->
  [/\ saved_background o = None, bg (final o) = None
    & raised o <> None].
Proof.
move=> Hsave Hmask; rewrite /main.
case: (configure dmt a inp) => [cfg|e] //=.
rewrite /init_state Hmask /=.
set s0 := State _ _ _ _ _ _ _ _.
have := @run_loop_save_no_mask a inp cfg (depth_video inp) s0 Hsave (erefl _).
case: (run_loop _ _ _ _ _) => [[e|] s] /= [_ Hbg]; first by case=> <-.
by rewrite Hsave Hbg => -[<-].
Qed.

End SaveBackground.

Lemma save_background_needs_mask_video_witness :
  let inp := @Inputs rat (nseq 2 sample_frame) 2 1 None None None None in
  exists o,
    [/\ main sample_tools sample_args_save inp = Ok o,
        raised o = Some NameError & saved_background o = None].
Proof.
move=> inp.
have Hrun :
  (if main sample_tools sample_args_save inp is Ok o then raised o else None)
  = Some NameError by vm_compute.
case E: (main sample_tools sample_args_save inp) Hrun => [o|e] // Hr.
have [Hs _ _] :=
  @save_background_needs_mask_video rat sample_tools sample_args_save inp o
    (erefl _) (erefl _) E.
by exists o.
Defined.

(** ** The names of the files *)

Section FileNames.

Local Open Scope string_scope.

Lemma append_assoc (s1 s2 s3 : string) : (s1 ++ s2) ++ s3 = s1 ++ (s2 ++ s3).
Proof. by elim: s1 => [|c s1 IH] //=; rewrite IH. Qed.

Lemma append_empty (s : string) : s ++ "" = s.
Proof. by elim: s => [|c s IH] //=; rewrite IH. Qed.

Lemma append_inj (s x y : string) : s ++ x = s ++ y -> x = y.
Proof. by elim: s => [|c s IH] //= [/IH]. Qed.

(** Lines 174-200 and 399: the files the script writes are named after
    the depth video with a suffix that tells the format and the
    container.  No file it writes has the name of the depth video or of
    another file it writes, and two runs on the same video write to the
    same output file only when they agree on the format and on
    [--compressed]. *)
Theorem output_files_distinct (depth_video : string) (a : args)
    (compressed : bool) :
  [/\ output_file depth_video a compressed <> depth_video
      /\ infill_mask_file depth_video a compressed <> depth_video
      /\ background_file depth_video <> depth_video,
      infill_mask_file depth_video a compressed
      <> output_file depth_video a compressed,
      background_file depth_video <> output_file depth_video a compressed
      /\ background_file depth_video
         <> infill_mask_file depth_video a compressed
    & forall a' compressed',
        output_file depth_video a compressed
        = output_file depth_video a' compressed' ->
        [/\ compressed = compressed', touchly1 a = touchly1 a'
          & touchly1 a = false -> touchly0 a = touchly0 a']].
Proof.
rewrite /infill_mask_file /background_file /output_file.
split; [split; [|split] | | split |].
- by case: (touchly1 a); case: (touchly0 a); case: compressed;
    rewrite !append_assoc -{2}(append_empty depth_video) => /append_inj.
- by case: (touchly1 a); case: (touchly0 a); case: compressed;
    rewrite !append_assoc -{2}(append_empty depth_video) => /append_inj.
- by rewrite -{2}(append_empty depth_video) => /append_inj.
- by case: (touchly1 a); case: (touchly0 a); case: compressed;
    rewrite !append_assoc => /append_inj.
- by case: (touchly1 a); case: (touchly0 a); case: compressed;
    rewrite !append_assoc => /append_inj.
- by case: (touchly1 a); case: (touchly0 a); case: compressed;
    rewrite !append_assoc => /append_inj.
move=> a' compressed'.
by case: (touchly1 a); case: (touchly0 a); case: compressed;
   case: (touchly1 a'); case: (touchly0 a'); case: compressed';
   rewrite !append_assoc => /append_inj.
Qed.

End FileNames.
